(** * GraceQ/MPS2: master/slave two-site sweep engine, order protocol and
      MPO generator front-end

    Shallow embedding of the control skeleton of
      - [gqmps2/algo_mpi/mps_algo_order.h]
      - [gqmps2/algo_mpi/tdvp/two_site_update_finite_tdvp_mpi_impl_slave.h]
      - [gqmps2/algo_mpi/vmps/two_site_update_noised_finite_vmps_mpi_impl.h]
      - [gqmps2/algo_mpi/vmps/two_site_update_finite_vmps_init.h]
      - [gqmps2/mpogen/mpogen_impl.h]

    Tensor contents are not modelled: the block-sparse tensor library is an
    external collaborator.  What is modelled is what the sweep engine itself
    decides: which orders are broadcast and when, which sites are visited,
    which files are read and removed, which MPS tensors are resident in
    memory, and how tasks are handed to slaves. *)

From Stdlib Require Import ZArith List Lia Bool Ascii PrimFloat QArith Lqa Sorting.Permutation Sorting.Sorted.
From stdpp Require Import base list gmap.
Import ListNotations.

Local Open Scope Z_scope.

(** ** [size_t] arithmetic

    Every index in the sources is a [size_t].  It is modelled as a [Z] in
    [0, 2^64) with the wrap-around of unsigned arithmetic written out. *)
Module SizeT.

Definition modulus : Z := 2 ^ 64.
Definition max : Z := modulus - 1.
Definition wrap (z : Z) : Z := z mod modulus.
Definition add (a b : Z) : Z := wrap (a + b).
Definition sub (a b : Z) : Z := wrap (a - b).
Definition mul (a b : Z) : Z := wrap (a * b).
Definition in_range (z : Z) : Prop := 0 <= z < modulus.

#[global] Arguments wrap : simpl never.
#[global] Arguments add : simpl never.
#[global] Arguments sub : simpl never.
#[global] Arguments mul : simpl never.

Lemma modulus_val : modulus = 18446744073709551616.
Proof. reflexivity. Qed.

Lemma wrap_small z : 0 <= z < modulus -> wrap z = z.
Proof. intros H. unfold wrap. apply Z.mod_small. exact H. Qed.

Lemma wrap_range z : 0 <= wrap z < modulus.
Proof. unfold wrap. apply Z.mod_pos_bound. rewrite modulus_val. lia. Qed.

Lemma add_small a b : 0 <= a -> 0 <= b -> a + b < modulus -> add a b = a + b.
Proof. intros. unfold add. apply wrap_small. lia. Qed.

Lemma sub_small a b : 0 <= b <= a -> a < modulus -> sub a b = a - b.
Proof. intros. unfold sub. apply wrap_small. lia. Qed.

Lemma sub_underflow a b : 0 <= a < b -> b <= modulus -> sub a b = modulus + a - b.
Proof.
  intros Hab Hb. unfold sub, wrap.
  replace (a - b) with ((modulus + a - b) + (-1) * modulus) by lia.
  rewrite Z.mod_add by (rewrite modulus_val; lia).
  apply Z.mod_small. lia.
Qed.

(** [for (size_t i = lo; i <= hi; ++i) body(i)].  The loop is driven by fuel
    because with [hi = SIZE_MAX] the condition never fails. *)
Fixpoint for_up {S : Type} (fuel : nat) (i hi : Z) (body : Z -> S -> option S)
    (s : S) : option S :=
  match fuel with
  | O => None
  | Datatypes.S fuel' =>
      if i <=? hi then
        match body i s with
        | Some s' => for_up fuel' (add i 1) hi body s'
        | None => None
        end
      else Some s
  end.

(** [for (size_t i = hi; i >= lo; --i) body(i)].  With [lo = 0] the condition
    never fails: [i] wraps from 0 to [SIZE_MAX]. *)
Fixpoint for_down {S : Type} (fuel : nat) (i lo : Z) (body : Z -> S -> option S)
    (s : S) : option S :=
  match fuel with
  | O => None
  | Datatypes.S fuel' =>
      if lo <=? i then
        match body i s with
        | Some s' => for_down fuel' (sub i 1) lo body s'
        | None => None
        end
      else Some s
  end.

(** The sites [lo, lo+1, ..., lo+n-1]. *)
Fixpoint upto (lo : Z) (n : nat) : list Z :=
  match n with
  | O => []
  | Datatypes.S n' => lo :: upto (lo + 1) n'
  end.

(** The sites [hi, hi-1, ..., hi-n+1]. *)
Fixpoint downto (hi : Z) (n : nat) : list Z :=
  match n with
  | O => []
  | Datatypes.S n' => hi :: downto (hi - 1) n'
  end.

(** Running a body over a list of indices, stopping at the first failure. *)
Fixpoint run_over {S : Type} (body : Z -> S -> option S) (l : list Z) (s : S)
    : option S :=
  match l with
  | [] => Some s
  | i :: l' =>
      match body i s with
      | Some s' => run_over body l' s'
      | None => None
      end
  end.

Lemma upto_In lo n x : In x (upto lo n) <-> lo <= x < lo + Z.of_nat n.
Proof.
  revert lo. induction n as [|n IH]; intros lo; simpl.
  - lia.
  - rewrite IH. lia.
Qed.

Lemma downto_In hi n x : In x (downto hi n) <-> hi - Z.of_nat n < x <= hi.
Proof.
  revert hi. induction n as [|n IH]; intros hi; simpl.
  - lia.
  - rewrite IH. lia.
Qed.

Lemma for_up_run {S : Type} (body : Z -> S -> option S) :
  forall (n : nat) (lo hi : Z) (fuel : nat) (s : S),
    0 <= lo -> hi < max -> lo + Z.of_nat n = hi + 1 ->
    (n < fuel)%nat ->
    for_up fuel lo hi body s = run_over body (upto lo n) s.
Proof.
  induction n as [|n IH]; intros lo hi fuel s Hlo Hhi Hn Hfuel.
  - destruct fuel as [|fuel]; [lia|]. simpl.
    destruct (Z.leb_spec lo hi); [lia|]. reflexivity.
  - destruct fuel as [|fuel]; [lia|]. simpl.
    destruct (Z.leb_spec lo hi); [|lia].
    destruct (body lo s) as [s'|]; [|reflexivity].
    assert (Hadd : add lo 1 = lo + 1).
    { apply add_small; try lia. unfold max in Hhi. lia. }
    rewrite Hadd. apply IH; lia.
Qed.

Lemma for_down_run {S : Type} (body : Z -> S -> option S) :
  forall (n : nat) (hi lo : Z) (fuel : nat) (s : S),
    0 < lo -> hi < modulus -> hi - Z.of_nat n = lo - 1 ->
    (n < fuel)%nat ->
    for_down fuel hi lo body s = run_over body (downto hi n) s.
Proof.
  induction n as [|n IH]; intros hi lo fuel s Hlo Hhi Hn Hfuel.
  - destruct fuel as [|fuel]; [lia|]. simpl.
    destruct (Z.leb_spec lo hi); [lia|]. reflexivity.
  - destruct fuel as [|fuel]; [lia|]. simpl.
    destruct (Z.leb_spec lo hi); [|lia].
    destruct (body hi s) as [s'|]; [|reflexivity].
    assert (Hsub : sub hi 1 = hi - 1) by (apply sub_small; lia).
    rewrite Hsub. apply IH; lia.
Qed.

End SizeT.

(** ** The order protocol ([mps_algo_order.h]) *)

(** [enum MPS_AlGO_ORDER], in declaration order. *)
Inductive MPS_AlGO_ORDER : Set :=
  | program_start
  | init_grow_env
  | init_grow_env_grow
  | init_grow_env_finish
  | lanczos
  | svd
  | lanczos_mat_vec_dynamic
  | lanczos_mat_vec_static
  | lanczos_finish
  | contract_for_right_moving_expansion
  | contract_for_left_moving_expansion
  | growing_left_env
  | growing_right_env
  | program_final.

#[global] Instance MPS_AlGO_ORDER_eq_dec : EqDecision MPS_AlGO_ORDER.
Proof. solve_decision. Defined.

Definition kMasterRank : Z := 0.
Definition two_site_eff_ham_size : Z := 4.

(** ** The TDVP slave receive loop
       ([two_site_update_finite_tdvp_mpi_impl_slave.h]) *)
Module TDVPSlave.

(** The two entries of [std::vector<TenT *> eff_ham(two_site_eff_ham_size)]
    through which the slave owns a tensor: [eff_ham[0]] and
    [eff_ham[two_site_eff_ham_size-1]].  ([eff_ham[1]] and [eff_ham[2]]
    point into the [mpo]; the [lanczos] case sets them together with the
    other two, so they are set whenever one of the owning entries is
    live.) *)
Inductive slot : Set := Slot0 | Slot3.

(** What one pass through the [switch] does, statement by statement.  The
    numeric kernels are collaborators; only the call is recorded. *)
Inductive action : Set :=
  | SendRankToMaster            (* world.send(kMasterRank, 2*rank, rank) *)
  | BroadcastSiteIndex          (* broadcast(world, lsite_idx, kMasterRank) *)
  | NewTen (k : slot)           (* eff_ham[k] = new TenT() *)
  | PointIntoMpo                (* eff_ham[1] = &mpo[lsite_idx]; eff_ham[2] = &mpo[rsite_idx] *)
  | RunSlaveLanczosSolver       (* SlaveLanczosSolver<TenT>(eff_ham, world) *)
  | RunMPISVDSlave              (* MPISVDSlave *)
  | PrintNoFunctionality (o : MPS_AlGO_ORDER)
  | WorldAbort (code : Z)       (* world.abort(1) *)
  | DeleteTen (k : slot)        (* delete eff_ham[k] *)
  | RunSlaveGrowLeftEnvironment   (* SlaveGrowLeftEnvironment, reading the tensor of eff_ham[0] *)
  | RunSlaveGrowRightEnvironment  (* SlaveGrowRightEnvironment, reading the tensor of eff_ham[3] *)
  | PrintWillStop
  | PrintDoesNotUnderstand (o : MPS_AlGO_ORDER).

(** How the slave function ends. *)
Inductive outcome : Set :=
  | Returned (log : list action) (unread : list MPS_AlGO_ORDER)
      (* the [while] condition failed; [unread] was never received *)
  | Aborted (log : list action)
      (* [world.abort] was called: the whole job is gone *)
  | Blocked (log : list action)
      (* waiting in [SlaveGetBroadcastOrder] with nothing left to receive *)
  | Undefined.
      (* a tensor was read through a null or deleted pointer, or deleted
         twice: C++ gives the run no meaning from there on *)

(** The body of [switch (order)]. *)
Definition switch (order : MPS_AlGO_ORDER) : list action :=
  match order with
  | program_start => [SendRankToMaster]
  | lanczos =>
      [BroadcastSiteIndex; NewTen Slot0; PointIntoMpo; NewTen Slot3; RunSlaveLanczosSolver]
  | svd => [RunMPISVDSlave]
  | contract_for_right_moving_expansion =>
      [PrintNoFunctionality contract_for_right_moving_expansion; WorldAbort 1]
  | contract_for_left_moving_expansion =>
      [PrintNoFunctionality contract_for_left_moving_expansion; WorldAbort 1]
  | growing_left_env =>
      [DeleteTen Slot3; RunSlaveGrowLeftEnvironment; DeleteTen Slot0]
  | growing_right_env =>
      [DeleteTen Slot0; RunSlaveGrowRightEnvironment; DeleteTen Slot3]
  | program_final => [PrintWillStop]
  | o => [PrintDoesNotUnderstand o]
  end.

Definition is_abort (a : action) : bool :=
  match a with WorldAbort _ => true | _ => false end.

Definition aborts (acts : list action) : bool := existsb is_abort acts.

(** *** The two owned tensors *)

(** An owning entry of [eff_ham]: null as the vector is created, pointing
    to a live tensor, or dangling after a [delete]. *)
Inductive pointer : Set := Null | Live | Freed.

(** The two owning entries, and the number of tensors no pointer reaches
    any more. *)
Record heap : Set := MkHeap {
  eff_ham_0 : pointer;
  eff_ham_3 : pointer;
  leaked : nat
}.

Definition fresh_heap : heap := MkHeap Null Null 0.

(** [eff_ham[k] = new TenT()] loses the tensor the entry pointed to. *)
Definition lost_by_new (p : pointer) : nat :=
  match p with Live => 1%nat | _ => 0%nat end.

(** [delete p]: nothing for a null pointer, undefined ([None]) for a
    pointer already deleted. *)
Definition delete (p : pointer) : option pointer :=
  match p with
  | Null => Some Null
  | Live => Some Freed
  | Freed => None
  end.

(** [*p]: defined for a live tensor only. *)
Definition deref (p : pointer) : option unit :=
  match p with Live => Some tt | _ => None end.

Definition entry (k : slot) (h : heap) : pointer :=
  match k with Slot0 => eff_ham_0 h | Slot3 => eff_ham_3 h end.

Definition set_entry (k : slot) (p : pointer) (h : heap) : heap :=
  match k with
  | Slot0 => MkHeap p (eff_ham_3 h) (leaked h)
  | Slot3 => MkHeap (eff_ham_0 h) p (leaked h)
  end.

(** What one statement does to the two owned tensors; [None] where C++
    gives it no meaning. *)
Definition effect (a : action) (h : heap) : option heap :=
  match a with
  | NewTen k =>
      Some (set_entry k Live
              (MkHeap (eff_ham_0 h) (eff_ham_3 h) (leaked h + lost_by_new (entry k h))))
  | DeleteTen k => p ← delete (entry k h); Some (set_entry k p h)
  | RunSlaveGrowLeftEnvironment => _ ← deref (eff_ham_0 h); Some h
  | RunSlaveGrowRightEnvironment => _ ← deref (eff_ham_3 h); Some h
  | _ => Some h
  end.

Fixpoint effects (acts : list action) (h : heap) : option heap :=
  match acts with
  | [] => Some h
  | a :: acts' => h' ← effect a h; effects acts' h'
  end.

(** The heap effect of the body of [switch (order)]. *)
Definition switch_heap (order : MPS_AlGO_ORDER) (h : heap) : option heap :=
  effects (switch order) h.

(** The heap after the [switch] bodies of a list of orders. *)
Fixpoint heap_after (orders : list MPS_AlGO_ORDER) (h : heap) : option heap :=
  match orders with
  | [] => Some h
  | o :: orders' => h' ← switch_heap o h; heap_after orders' h'
  end.

(** *** The loop *)

Definition prepend (acts : list action) (r : outcome) : outcome :=
  match r with
  | Returned log unread => Returned (acts ++ log) unread
  | Aborted log => Aborted (acts ++ log)
  | Blocked log => Blocked (acts ++ log)
  | Undefined => Undefined
  end.

(** [while (order != program_final) { order = SlaveGetBroadcastOrder(world);
    switch (order) {...} }], with [stream] the orders the master broadcasts
    to this loop, in order, and [h] the state of the two owned tensors.
    Each iteration receives exactly one order. *)
Fixpoint receive_loop (stream : list MPS_AlGO_ORDER) (order : MPS_AlGO_ORDER)
    (h : heap) {struct stream} : outcome :=
  if decide (order = program_final) then Returned [] stream
  else
    match stream with
    | [] => Blocked []
    | received :: stream' =>
        let acts := switch received in
        if aborts acts then Aborted acts
        else
          match switch_heap received h with
          | Some h' => prepend acts (receive_loop stream' received h')
          | None => Undefined
          end
    end.

(** [std::vector<TenT *> eff_ham(two_site_eff_ham_size);
    MPS_AlGO_ORDER order = program_start; while ...]: the vector starts
    with null pointers. *)
Definition SlaveTwoSiteFiniteTDVP (stream : list MPS_AlGO_ORDER) : outcome :=
  receive_loop stream program_start fresh_heap.

(** The orders whose case calls [world.abort]. *)
Definition abort_inducing (o : MPS_AlGO_ORDER) : bool :=
  match o with
  | contract_for_right_moving_expansion
  | contract_for_left_moving_expansion => true
  | _ => false
  end.

(** The orders that have a [case] of their own in the [switch]. *)
Definition recognized (o : MPS_AlGO_ORDER) : bool :=
  match o with
  | program_start | lanczos | svd
  | contract_for_right_moving_expansion | contract_for_left_moving_expansion
  | growing_left_env | growing_right_env | program_final => true
  | _ => false
  end.

(** An order that neither aborts the job nor ends the loop. *)
Definition passes (o : MPS_AlGO_ORDER) : bool :=
  negb (abort_inducing o) && negb (bool_decide (o = program_final)).

(** Number of orders the loop has received when it ends. *)
Definition received_count (stream : list MPS_AlGO_ORDER) (r : outcome) : nat :=
  match r with
  | Returned _ unread => length stream - length unread
  | _ => length stream
  end.

(** Every growing order comes after a [lanczos] order with no other
    growing order in between: [armed] tells whether a [lanczos] is
    pending. *)
Fixpoint lanczos_before_growing (armed : bool) (orders : list MPS_AlGO_ORDER) : bool :=
  match orders with
  | [] => true
  | lanczos :: orders' => lanczos_before_growing true orders'
  | growing_left_env :: orders' => armed && lanczos_before_growing false orders'
  | growing_right_env :: orders' => armed && lanczos_before_growing false orders'
  | _ :: orders' => lanczos_before_growing armed orders'
  end.

(** *** Facts about the receive loop *)

Lemma switch_passes_no_abort o : abort_inducing o = false -> aborts (switch o) = false.
Proof. destruct o; simpl; intros H; try reflexivity; discriminate H. Qed.

Lemma passes_not_final o : passes o = true -> o <> program_final.
Proof.
  unfold passes. intros H Heq. subst o. simpl in H. discriminate H.
Qed.

Lemma passes_not_abort o : passes o = true -> abort_inducing o = false.
Proof.
  unfold passes. intros H. apply andb_true_iff in H as [H _].
  now apply negb_true_iff in H.
Qed.

Lemma prepend_app a b r : prepend a (prepend b r) = prepend (a ++ b) r.
Proof. destruct r; simpl; try now rewrite app_assoc. reflexivity. Qed.

Lemma prepend_nil r : prepend [] r = r.
Proof. now destruct r. Qed.

Lemma last_cons_default {A : Type} (l : list A) :
  forall (a d : A), List.last (a :: l) d = List.last l a.
Proof.
  induction l as [|b l IH]; intros a d; [reflexivity|].
  change (List.last (a :: b :: l) d) with (List.last (b :: l) d).
  now rewrite !IH.
Qed.

(** A prefix of orders that neither abort nor stop is consumed one order
    per iteration, each leaving the statements of its [switch] body in the
    log, as long as every one of them has a meaning. *)
Lemma receive_loop_prefix (pre : list MPS_AlGO_ORDER) :
  forall (rest : list MPS_AlGO_ORDER) (order : MPS_AlGO_ORDER) (h : heap),
    order <> program_final ->
    forallb passes pre = true ->
    receive_loop (pre ++ rest) order h
    = match heap_after pre h with
      | Some h' =>
          prepend (flat_map switch pre) (receive_loop rest (List.last pre order) h')
      | None => Undefined
      end.
Proof.
  induction pre as [|o pre IH]; intros rest order h Hne Hpre.
  - simpl. now rewrite prepend_nil.
  - simpl in Hpre. apply andb_true_iff in Hpre as [Ho Hpre].
    cbn [app receive_loop heap_after].
    destruct (decide (order = program_final)) as [E|_]; [contradiction|].
    rewrite (switch_passes_no_abort o (passes_not_abort o Ho)).
    destruct (switch_heap o h) as [h1|]; [|reflexivity].
    cbn [mbind option_bind].
    rewrite (IH rest o h1 (passes_not_final o Ho) Hpre).
    destruct (heap_after pre h1) as [h2|]; [|reflexivity].
    rewrite prepend_app. now rewrite last_cons_default.
Qed.

Lemma last_passes_not_final pre order :
  order <> program_final -> forallb passes pre = true ->
  List.last pre order <> program_final.
Proof.
  revert order. induction pre as [|o pre IH]; intros order Hne Hpre; [exact Hne|].
  simpl in Hpre. apply andb_true_iff in Hpre as [Ho Hpre].
  destruct pre as [|x pre].
  - simpl. now apply passes_not_final.
  - change (List.last (x :: pre) order <> program_final).
    apply IH; [exact Hne|exact Hpre].
Qed.

(** Splitting a stream at its first [program_final]. *)
Lemma split_at_first_final (stream : list MPS_AlGO_ORDER) :
  forallb (fun o => negb (abort_inducing o)) stream = true ->
  In program_final stream ->
  exists pre unread,
    stream = pre ++ program_final :: unread /\ forallb passes pre = true.
Proof.
  induction stream as [|o stream IH]; intros Hna Hin; [destruct Hin|].
  simpl in Hna. apply andb_true_iff in Hna as [Ho Hna].
  destruct (decide (o = program_final)) as [->|Hne].
  - exists [], stream. split; reflexivity.
  - destruct Hin as [Heq|Hin]; [congruence|].
    destruct (IH Hna Hin) as (pre & unread & -> & Hpre).
    exists (o :: pre), unread. split; [reflexivity|].
    simpl. rewrite Hpre, andb_true_r. unfold passes. rewrite Ho. simpl.
    now rewrite bool_decide_eq_false_2.
Qed.

(** A stream ends with [o] when [o] is its last element. *)
Definition ends_with (stream : list MPS_AlGO_ORDER) (o : MPS_AlGO_ORDER) : Prop :=
  exists front, stream = front ++ [o].

Lemma ends_with_In stream o : ends_with stream o -> In o stream.
Proof. intros [front ->]. apply in_or_app. right. now left. Qed.

(** The heaps the loop can be in between two iterations while every
    statement had a meaning: both tensors live after a [lanczos]
    ([armed]), neither otherwise. *)
Definition in_place (armed : bool) (h : heap) : Prop :=
  if armed then eff_ham_0 h = Live /\ eff_ham_3 h = Live
  else eff_ham_0 h = eff_ham_3 h /\ eff_ham_0 h <> Live.

(** The statements of the [switch] bodies all have a meaning exactly when
    every growing order finds the tensors of a [lanczos] order. *)
Lemma heap_after_defined (orders : list MPS_AlGO_ORDER) :
  forall (armed : bool) (h : heap),
    in_place armed h ->
    (exists h', heap_after orders h = Some h')
    <-> lanczos_before_growing armed orders = true.
Proof.
  induction orders as [|o orders IH]; intros armed h Hs.
  - cbn. split; [reflexivity|]. intros _. now exists h.
  - assert (Hskip : switch_heap o h = Some h ->
                    lanczos_before_growing armed (o :: orders)
                    = lanczos_before_growing armed orders ->
                    (exists h', heap_after (o :: orders) h = Some h')
                    <-> lanczos_before_growing armed (o :: orders) = true).
    { intros E D. cbn [heap_after]. rewrite E, D. cbn [mbind option_bind].
      apply IH. exact Hs. }
    destruct h as [p0 p3 k]. unfold in_place in Hs. cbn in Hs.
    destruct o; try (apply Hskip; [reflexivity|reflexivity]); clear Hskip;
      cbn [heap_after lanczos_before_growing].
    + (* lanczos *)
      cbn. apply IH. split; reflexivity.
    + (* growing_left_env *)
      destruct armed.
      * destruct Hs as [-> ->]. cbn. apply IH. split; [reflexivity|discriminate].
      * destruct Hs as [<- Hp]. cbn [andb]. split; [|discriminate].
        destruct p0; [|contradiction|]; cbn; intros (h' & E); discriminate E.
    + (* growing_right_env *)
      destruct armed.
      * destruct Hs as [-> ->]. cbn. apply IH. split; [reflexivity|discriminate].
      * destruct Hs as [<- Hp]. cbn [andb]. split; [|discriminate].
        destruct p0; [|contradiction|]; cbn; intros (h' & E); discriminate E.
Qed.

Lemma fresh_heap_in_place : in_place false fresh_heap.
Proof. split; [reflexivity|discriminate]. Qed.

(** The run of the slave over a prefix that neither aborts nor stops it. *)
Lemma slave_prefix (pre rest : list MPS_AlGO_ORDER) :
  forallb passes pre = true ->
  SlaveTwoSiteFiniteTDVP (pre ++ rest)
  = if lanczos_before_growing false pre
    then
      match heap_after pre fresh_heap with
      | Some h' =>
          prepend (flat_map switch pre)
            (receive_loop rest (List.last pre program_start) h')
      | None => Undefined
      end
    else Undefined.
Proof.
  intros Hpre. unfold SlaveTwoSiteFiniteTDVP.
  rewrite receive_loop_prefix by (try discriminate; exact Hpre).
  pose proof (heap_after_defined pre false fresh_heap fresh_heap_in_place) as Hd.
  destruct (lanczos_before_growing false pre); [reflexivity|].
  destruct (heap_after pre fresh_heap) as [h'|]; [|reflexivity].
  assert (false = true) by (apply Hd; now exists h'). discriminate.
Qed.

(** C7: when the TDVP slave receives [contract_for_right_moving_expansion]
    or [contract_for_left_moving_expansion], after any orders that neither
    abort nor stop it and among which every growing order follows a
    [lanczos] order, it prints that it lacks the functionality and calls
    [world.abort(1)]: the outcome is an abort of the job, the order is not
    skipped, and no later order is received.  (After a prefix in which a
    growing order finds no tensor of a [lanczos] order the run has no
    meaning any more when the order is broadcast.) *)
Theorem tdvp_slave_expansion_order_aborts
    (pre rest : list MPS_AlGO_ORDER) (o : MPS_AlGO_ORDER) :
  forallb passes pre = true ->
  o = contract_for_right_moving_expansion \/ o = contract_for_left_moving_expansion ->
  SlaveTwoSiteFiniteTDVP (pre ++ o :: rest)
  = if lanczos_before_growing false pre
    then Aborted (flat_map switch pre ++ [PrintNoFunctionality o; WorldAbort 1])
    else Undefined.
Proof.
  intros Hpre Ho. rewrite slave_prefix by exact Hpre.
  pose proof (heap_after_defined pre false fresh_heap fresh_heap_in_place) as Hd.
  destruct (lanczos_before_growing false pre); [|reflexivity].
  destruct (proj2 Hd eq_refl) as [h' ->].
  assert (Hlast : List.last pre program_start <> program_final)
    by (apply last_passes_not_final; [discriminate|exact Hpre]).
  cbn [receive_loop].
  destruct (decide (List.last pre program_start = program_final)); [contradiction|].
  destruct Ho as [-> | ->]; reflexivity.
Qed.

Lemma tdvp_slave_expansion_order_aborts_witness :
  SlaveTwoSiteFiniteTDVP
    ([program_start; lanczos; svd; growing_left_env; lanczos]
       ++ contract_for_left_moving_expansion :: [svd; program_final])
  = if lanczos_before_growing false
         [program_start; lanczos; svd; growing_left_env; lanczos]
    then
      Aborted
        (flat_map switch [program_start; lanczos; svd; growing_left_env; lanczos]
           ++ [PrintNoFunctionality contract_for_left_moving_expansion; WorldAbort 1])
    else Undefined.
Proof.
  apply (tdvp_slave_expansion_order_aborts
           [program_start; lanczos; svd; growing_left_env; lanczos]
           [svd; program_final] contract_for_left_moving_expansion).
  - reflexivity.
  - right. reflexivity.
Defined.

Example expansion_order_after_lanczos :
  SlaveTwoSiteFiniteTDVP
    [program_start; lanczos; contract_for_right_moving_expansion; svd; program_final]
  = Aborted [ SendRankToMaster;
              BroadcastSiteIndex; NewTen Slot0; PointIntoMpo; NewTen Slot3;
              RunSlaveLanczosSolver;
              PrintNoFunctionality contract_for_right_moving_expansion; WorldAbort 1 ].
Proof. reflexivity. Qed.

(** C8 (as amended): on a finite stream of orders with no abort-inducing
    order that ends with [program_final], and in which every growing order
    before the first [program_final] follows a [lanczos] order with no
    other growing order in between, the receive loop returns, and it does
    so exactly when it processes the (first) [program_final]: every order
    before it has been dispatched, nothing after it is received.  Without
    that pairing the slave reads a tensor through a null or deleted pointer
    or deletes one twice, and the run has no meaning.  An order without a
    case of its own is reported, touches no tensor, and the loop goes on to
    the next receive. *)
Theorem tdvp_slave_terminates_on_program_final (stream : list MPS_AlGO_ORDER) :
  forallb (fun o => negb (abort_inducing o)) stream = true ->
  ends_with stream program_final ->
  (exists pre unread,
      stream = pre ++ program_final :: unread
      /\ ~ In program_final pre
      /\ SlaveTwoSiteFiniteTDVP stream
         = (if lanczos_before_growing false pre
            then Returned (flat_map switch pre ++ [PrintWillStop]) unread
            else Undefined)
      /\ (lanczos_before_growing false pre = true ->
          received_count stream (SlaveTwoSiteFiniteTDVP stream) = S (length pre)))
  /\ (forall o rest cur h,
        recognized o = false -> cur <> program_final ->
        receive_loop (o :: rest) cur h
        = prepend [PrintDoesNotUnderstand o] (receive_loop rest o h)).
Proof.
  intros Hna Hlast. split.
  - destruct (split_at_first_final stream Hna (ends_with_In _ _ Hlast))
      as (pre & unread & -> & Hpre).
    exists pre, unread. split; [reflexivity|]. split.
    + intros Hin. rewrite forallb_forall in Hpre.
      specialize (Hpre _ Hin). discriminate Hpre.
    + assert (Hrun : SlaveTwoSiteFiniteTDVP (pre ++ program_final :: unread)
                     = (if lanczos_before_growing false pre
                        then Returned (flat_map switch pre ++ [PrintWillStop]) unread
                        else Undefined)).
      { rewrite slave_prefix by exact Hpre.
        pose proof (heap_after_defined pre false fresh_heap fresh_heap_in_place) as Hd.
        destruct (lanczos_before_growing false pre); [|reflexivity].
        destruct (proj2 Hd eq_refl) as [h' ->].
        assert (Hl : List.last pre program_start <> program_final)
          by (apply last_passes_not_final; [discriminate|exact Hpre]).
        cbn [receive_loop].
        destruct (decide (List.last pre program_start = program_final)); [contradiction|].
        simpl. destruct unread; reflexivity. }
      split; [exact Hrun|]. intros Hd. rewrite Hrun, Hd. cbn [received_count].
      rewrite length_app. cbn [length]. lia.
  - intros o rest cur h Hrec Hcur. cbn [receive_loop].
    destruct (decide (cur = program_final)); [contradiction|].
    destruct o; try discriminate Hrec; reflexivity.
Qed.

Lemma tdvp_slave_terminates_on_program_final_witness :
  (exists pre unread,
      [program_start; lanczos; lanczos_finish; svd; growing_right_env; program_final]
      = pre ++ program_final :: unread
      /\ ~ In program_final pre
      /\ SlaveTwoSiteFiniteTDVP
           [program_start; lanczos; lanczos_finish; svd; growing_right_env; program_final]
         = (if lanczos_before_growing false pre
            then Returned (flat_map switch pre ++ [PrintWillStop]) unread
            else Undefined)
      /\ (lanczos_before_growing false pre = true ->
          received_count
            [program_start; lanczos; lanczos_finish; svd; growing_right_env; program_final]
            (SlaveTwoSiteFiniteTDVP
               [program_start; lanczos; lanczos_finish; svd; growing_right_env;
                program_final])
          = S (length pre)))
  /\ (forall o rest cur h,
        recognized o = false -> cur <> program_final ->
        receive_loop (o :: rest) cur h
        = prepend [PrintDoesNotUnderstand o] (receive_loop rest o h)).
Proof.
  apply (tdvp_slave_terminates_on_program_final
           [program_start; lanczos; lanczos_finish; svd; growing_right_env; program_final]).
  - reflexivity.
  - exists [program_start; lanczos; lanczos_finish; svd; growing_right_env]. reflexivity.
Defined.

(** C8 (as stated) fails: neither stream below holds an abort-inducing
    order and both end with [program_final], yet the slave does not get to
    process [program_final].  In the first the growing order comes before
    any [lanczos]: the tensor of [eff_ham[0]] is read through the null
    pointer the vector was created with.  In the second a growing order
    follows another: [eff_ham[0]], deleted by the first, is deleted
    again. *)
Lemma growing_without_lanczos_never_returns :
  forallb (fun o => negb (abort_inducing o))
    [program_start; growing_left_env; program_final] = true
  /\ ends_with [program_start; growing_left_env; program_final] program_final
  /\ SlaveTwoSiteFiniteTDVP [program_start; growing_left_env; program_final] = Undefined
  /\ effects [DeleteTen Slot3] fresh_heap = Some fresh_heap
  /\ effect RunSlaveGrowLeftEnvironment fresh_heap = None
  /\ forallb (fun o => negb (abort_inducing o))
       [program_start; lanczos; growing_left_env; growing_right_env; program_final] = true
  /\ ends_with
       [program_start; lanczos; growing_left_env; growing_right_env; program_final]
       program_final
  /\ SlaveTwoSiteFiniteTDVP
       [program_start; lanczos; growing_left_env; growing_right_env; program_final]
     = Undefined
  /\ heap_after [program_start; lanczos; growing_left_env] fresh_heap
     = Some (MkHeap Freed Freed 0)
  /\ effect (DeleteTen Slot0) (MkHeap Freed Freed 0) = None.
Proof.
  repeat split; try reflexivity.
  - now exists [program_start; growing_left_env].
  - now exists [program_start; lanczos; growing_left_env; growing_right_env].
Qed.

End TDVPSlave.

(** ** Boundary check before the first sweep
       ([two_site_update_finite_vmps_init.h]) *)
Module Init.

(** The site indices [a, a+1, ..., b-1] as a set. *)
Definition sites (a b : Z) : gset Z := list_to_set (SizeT.upto a (Z.to_nat (b - a))).

(** Residency of the MPS: the set of site indices whose tensor is in
    memory ([FiniteMPS] keeps a null pointer for the others), plus a log of
    the sites whose tensor was replaced by an index combiner. *)
Record mps_state : Type := MkMps {
  mem : gset Z;
  combined : list Z
}.

(** [mps.empty()]: no tensor resident. *)
Definition empty_mps : mps_state := MkMps ∅ [].

Section CheckAndUpdate.

(** [N = mps.size()], the configured [Dmax], and the shape
    [mps_ten.GetShape()] that the canonicalized tensor of site [i] has in
    the left and in the right pass.  The shapes are results of tensor
    algebra; every choice of them is a possible run. *)
Variable N : Z.
Variable Dmax : Z.
Variable lshape rshape : Z -> Z * Z * Z.

(** [mps.LoadTen(i, GenMPSTenName(mps_path, i))].  [None] stands for an
    access outside the vector. *)
Definition LoadTen (i : Z) (s : mps_state) : option mps_state :=
  if decide (0 <= i < N) then Some (MkMps ({[ i ]} ∪ mem s) (combined s)) else None.

(** [mps.DumpTen(i, GenMPSTenName(mps_path, i), true)]: written to disk and
    released.  [None] stands for dumping a tensor that is not there. *)
Definition DumpTen (i : Z) (s : mps_state) : option mps_state :=
  if decide (i ∈ mem s) then Some (MkMps (mem s ∖ {[ i ]}) (combined s)) else None.

(** [mps.LeftCanonicalizeTen(i)] works on the tensors of [i] and [i+1],
    [mps.RightCanonicalizeTen(i)] on those of [i] and [i-1]. *)
Definition LeftCanonicalizeTen (i : Z) (s : mps_state) : option mps_state :=
  if decide (i ∈ mem s /\ SizeT.add i 1 ∈ mem s) then Some s else None.

Definition RightCanonicalizeTen (i : Z) (s : mps_state) : option mps_state :=
  if decide (i ∈ mem s /\ SizeT.sub i 1 ∈ mem s) then Some s else None.

(** The [else if] branch: the tensor of site [i] is fused into its
    neighbour and replaced by the index combiner.  Both tensors stay
    resident. *)
Definition combine (i : Z) (s : mps_state) : mps_state :=
  MkMps (mem s) (combined s ++ [i]).

(** [for(size_t i=0;i<left_middle_site;i++) {...}], carrying [left_boundary]. *)
Fixpoint left_pass (fuel : nat) (i left_middle_site : Z) (s : mps_state)
    (left_boundary : Z) : option (mps_state * Z) :=
  match fuel with
  | O => None
  | S fuel' =>
      if i <? left_middle_site then
        s1 ← LoadTen (SizeT.add i 1) s;
        s2 ← LeftCanonicalizeTen i s1;
        let '(s0, d, s2') := lshape i in
        if Dmax <? SizeT.mul s0 d then Some (s2, i)          (* break *)
        else
          let s3 := if s2' <? SizeT.mul s0 d then combine i s2 else s2 in
          let lb := if i =? SizeT.sub left_middle_site 1 then i else left_boundary in
          left_pass fuel' (SizeT.add i 1) left_middle_site s3 lb
      else Some (s, left_boundary)
  end.

(** [for(size_t i=N-1;i>right_middle_site;i--) {...}], carrying
    [right_boundary]. *)
Fixpoint right_pass (fuel : nat) (i right_middle_site : Z) (s : mps_state)
    (right_boundary : Z) : option (mps_state * Z) :=
  match fuel with
  | O => None
  | S fuel' =>
      if right_middle_site <? i then
        s1 ← LoadTen (SizeT.sub i 1) s;
        s2 ← RightCanonicalizeTen i s1;
        let '(s0, d, s2') := rshape i in
        if Dmax <? SizeT.mul d s2' then Some (s2, i)         (* break *)
        else
          let s3 := if s0 <? SizeT.mul d s2' then combine i s2 else s2 in
          let rb := if i =? SizeT.add right_middle_site 1 then i else right_boundary in
          right_pass fuel' (SizeT.sub i 1) right_middle_site s3 rb
      else Some (s, right_boundary)
  end.

Definition left_middle_site : Z :=
  if N mod 2 =? 0 then SizeT.sub (N / 2) 1 else N / 2.

Definition right_middle_site : Z := N / 2.

(** [CheckAndUpdateBoundaryMPSTensors(mps, mps_path, Dmax)].  The two
    [assert(mps.empty())] are not executed here: the first is the
    precondition of the callers, the second is what is proved below. *)
Definition CheckAndUpdateBoundaryMPSTensors (fuel : nat) (s : mps_state)
    : option (Z * Z * mps_state) :=
  (* Left Side *)
  s1 ← LoadTen 0 s;
  '(s2, left_boundary) ← left_pass fuel 0 left_middle_site s1 0;
  s3 ← SizeT.for_up fuel 0 (SizeT.add left_boundary 1) DumpTen s2;
  (* Right Side *)
  s4 ← LoadTen (SizeT.sub N 1) s3;
  '(s5, right_boundary) ← right_pass fuel (SizeT.sub N 1) right_middle_site s4 0;
  s6 ← SizeT.for_down fuel (SizeT.sub N 1) (SizeT.sub right_boundary 1) DumpTen s5;
  Some (left_boundary, right_boundary, s6).

End CheckAndUpdate.

(** *** Residency invariants of the two passes *)

Lemma elem_of_sites a b x : x ∈ sites a b <-> a <= x < b.
Proof.
  unfold sites. rewrite elem_of_list_to_set, list_elem_of_In, SizeT.upto_In. lia.
Qed.

Ltac sites_solve :=
  apply set_eq; intros ?x;
  rewrite ?elem_of_union, ?elem_of_difference, ?elem_of_singleton,
    ?elem_of_sites, ?elem_of_empty;
  lia.

Lemma sites_empty a b : b <= a -> sites a b = ∅.
Proof. intros H. sites_solve. Qed.

Section Passes.

Variable N : Z.
Variable Dmax : Z.
Variable lshape rshape : Z -> Z * Z * Z.
Hypothesis HN : 3 <= N < SizeT.modulus.

Lemma LoadTen_sites_right i s :
  0 <= i -> i + 1 < N -> mem s = sites 0 (i + 1) ->
  exists s', LoadTen N (i + 1) s = Some s' /\ mem s' = sites 0 (i + 2)
             /\ combined s' = combined s.
Proof.
  intros Hi HiN Hm. unfold LoadTen.
  destruct (decide (0 <= i + 1 < N)); [|lia].
  eexists. split; [reflexivity|]. split; [|reflexivity].
  simpl. rewrite Hm. sites_solve.
Qed.

Lemma LoadTen_sites_left i s :
  0 < i -> i < N -> mem s = sites i N ->
  exists s', LoadTen N (i - 1) s = Some s' /\ mem s' = sites (i - 1) N
             /\ combined s' = combined s.
Proof.
  intros Hi HiN Hm. unfold LoadTen.
  destruct (decide (0 <= i - 1 < N)); [|lia].
  eexists. split; [reflexivity|]. split; [|reflexivity].
  simpl. rewrite Hm. sites_solve.
Qed.

(** The left pass leaves exactly the sites [0 .. left_boundary+1] resident. *)
Lemma left_pass_resident lms :
  1 <= lms < N ->
  forall (fuel : nat) (i : Z) (s : mps_state) (lb : Z),
    0 <= i <= lms ->
    mem s = sites 0 (i + 1) ->
    (i = lms -> lb = lms - 1) ->
    (Z.to_nat (lms - i) < fuel)%nat ->
    exists s' lb',
      left_pass N Dmax lshape fuel i lms s lb = Some (s', lb')
      /\ 0 <= lb' < lms /\ mem s' = sites 0 (lb' + 2).
Proof.
  intros Hlms. induction fuel as [|fuel IH]; intros i s lb Hi Hm Hlb Hfuel; [lia|].
  cbn [left_pass]. destruct (Z.ltb_spec i lms) as [Hlt|Hge].
  - assert (Hadd : SizeT.add i 1 = i + 1)
      by (apply SizeT.add_small; lia).
    rewrite Hadd.
    destruct (LoadTen_sites_right i s) as (s1 & -> & Hm1 & _); [lia|lia|exact Hm|].
    cbn [mbind option_bind]. unfold LeftCanonicalizeTen. rewrite Hadd.
    destruct (decide (i ∈ mem s1 /\ i + 1 ∈ mem s1)) as [_|Hno].
    2:{ exfalso. apply Hno. rewrite Hm1, !elem_of_sites. lia. }
    cbn [mbind option_bind].
    destruct (lshape i) as [[s0 d] s2'].
    destruct (Dmax <? SizeT.mul s0 d).
    + exists s1, i. split; [reflexivity|]. split; [lia|].
      rewrite Hm1. f_equal.
    + assert (Hsub : SizeT.sub lms 1 = lms - 1) by (apply SizeT.sub_small; lia).
      rewrite Hsub.
      apply IH.
      * lia.
      * destruct (s2' <? SizeT.mul s0 d); simpl; rewrite Hm1; f_equal; lia.
      * intros Heq. destruct (Z.eqb_spec i (lms - 1)); lia.
      * lia.
  - assert (i = lms) by lia. subst i.
    exists s, lb. split; [reflexivity|]. rewrite (Hlb eq_refl). split; [lia|].
    rewrite Hm. f_equal. lia.
Qed.

(** The right pass leaves exactly the sites [right_boundary-1 .. N-1]
    resident. *)
Lemma right_pass_resident rms :
  1 <= rms < N - 1 ->
  forall (fuel : nat) (i : Z) (s : mps_state) (rb : Z),
    rms <= i <= N - 1 ->
    mem s = sites i N ->
    (i = rms -> rb = rms + 1) ->
    (Z.to_nat (i - rms) < fuel)%nat ->
    exists s' rb',
      right_pass N Dmax rshape fuel i rms s rb = Some (s', rb')
      /\ rms < rb' <= N - 1 /\ mem s' = sites (rb' - 1) N.
Proof.
  intros Hrms. induction fuel as [|fuel IH]; intros i s rb Hi Hm Hrb Hfuel; [lia|].
  cbn [right_pass]. destruct (Z.ltb_spec rms i) as [Hlt|Hge].
  - assert (Hsub : SizeT.sub i 1 = i - 1)
      by (apply SizeT.sub_small; lia).
    rewrite Hsub.
    destruct (LoadTen_sites_left i s) as (s1 & -> & Hm1 & _); [lia|lia|exact Hm|].
    cbn [mbind option_bind]. unfold RightCanonicalizeTen. rewrite Hsub.
    destruct (decide (i ∈ mem s1 /\ i - 1 ∈ mem s1)) as [_|Hno].
    2:{ exfalso. apply Hno. rewrite Hm1, !elem_of_sites. lia. }
    cbn [mbind option_bind].
    destruct (rshape i) as [[s0 d] s2'].
    destruct (Dmax <? SizeT.mul d s2').
    + exists s1, i. split; [reflexivity|]. split; [lia|exact Hm1].
    + assert (Hadd : SizeT.add rms 1 = rms + 1) by (apply SizeT.add_small; lia).
      rewrite Hadd.
      apply IH.
      * lia.
      * destruct (s0 <? SizeT.mul d s2'); simpl; exact Hm1.
      * intros Heq. destruct (Z.eqb_spec i (rms + 1)); lia.
      * lia.
  - assert (i = rms) by lia. subst i.
    exists s, rb. split; [reflexivity|]. rewrite (Hrb eq_refl). split; [lia|].
    rewrite Hm. f_equal. lia.
Qed.

(** Dumping an interval of resident sites, upwards or downwards, empties it. *)
Lemma dump_upto (n : nat) :
  forall (a : Z) (s : mps_state),
    mem s = sites a (a + Z.of_nat n) ->
    exists s', SizeT.run_over DumpTen (SizeT.upto a n) s = Some s' /\ mem s' = ∅.
Proof.
  induction n as [|n IH]; intros a s Hm.
  - exists s. split; [reflexivity|]. rewrite Hm. apply sites_empty. lia.
  - cbn [SizeT.upto SizeT.run_over]. unfold DumpTen at 1.
    destruct (decide (a ∈ mem s)) as [_|Hno].
    2:{ exfalso. apply Hno. rewrite Hm, elem_of_sites. lia. }
    apply IH. simpl. rewrite Hm. sites_solve.
Qed.

Lemma dump_downto (n : nat) :
  forall (hi : Z) (s : mps_state),
    mem s = sites (hi - Z.of_nat n + 1) (hi + 1) ->
    exists s', SizeT.run_over DumpTen (SizeT.downto hi n) s = Some s' /\ mem s' = ∅.
Proof.
  induction n as [|n IH]; intros hi s Hm.
  - exists s. split; [reflexivity|]. rewrite Hm. apply sites_empty. lia.
  - cbn [SizeT.downto SizeT.run_over]. unfold DumpTen at 1.
    destruct (decide (hi ∈ mem s)) as [_|Hno].
    2:{ exfalso. apply Hno. rewrite Hm, elem_of_sites. lia. }
    apply IH. simpl. rewrite Hm. sites_solve.
Qed.

Lemma middle_sites :
  1 <= left_middle_site N < N /\ 1 <= right_middle_site N < N - 1
  /\ left_middle_site N <= right_middle_site N.
Proof.
  unfold left_middle_site, right_middle_site.
  assert (H2 := Z.div_mod N 2 ltac:(lia)).
  assert (Hr := Z.mod_pos_bound N 2 ltac:(lia)).
  destruct (Z.eqb_spec (N mod 2) 0) as [E|E].
  - rewrite SizeT.sub_small by lia. lia.
  - lia.
Qed.

(** The whole boundary check: it returns, with boundaries at least two
    sites apart, and with nothing left in memory. *)
Lemma CheckAndUpdate_returns_empty (fuel : nat) (s0 : mps_state) :
  mem s0 = ∅ ->
  (Z.to_nat N < fuel)%nat ->
  exists lb rb s',
    CheckAndUpdateBoundaryMPSTensors N Dmax lshape rshape fuel s0 = Some (lb, rb, s')
    /\ mem s' = ∅
    /\ 0 <= lb < left_middle_site N
    /\ right_middle_site N < rb <= N - 1.
Proof.
  intros Hm0 Hfuel. destruct middle_sites as (Hl & Hr & Hlr).
  unfold CheckAndUpdateBoundaryMPSTensors.
  assert (H0 : LoadTen N 0 s0 = Some (MkMps ({[ 0 ]} ∪ mem s0) (combined s0))).
  { unfold LoadTen. destruct (decide (0 <= 0 < N)); [reflexivity|lia]. }
  rewrite H0. cbn [mbind option_bind].
  edestruct (left_pass_resident (left_middle_site N) Hl fuel 0) as (s2 & lb & -> & Hlb & Hm2).
  { lia. } { simpl. rewrite Hm0. sites_solve. } { lia. } { lia. }
  cbn [mbind option_bind].
  assert (Hadd : SizeT.add lb 1 = lb + 1) by (apply SizeT.add_small; lia).
  rewrite Hadd.
  rewrite (SizeT.for_up_run DumpTen (Z.to_nat (lb + 2)) 0 (lb + 1) fuel s2)
    by (unfold SizeT.max; lia).
  destruct (dump_upto (Z.to_nat (lb + 2)) 0 s2) as (s3 & -> & Hm3).
  { rewrite Hm2. f_equal. lia. }
  cbn [mbind option_bind].
  assert (HsubN : SizeT.sub N 1 = N - 1) by (apply SizeT.sub_small; lia).
  rewrite HsubN.
  assert (H4 : LoadTen N (N - 1) s3
               = Some (MkMps ({[ N - 1 ]} ∪ mem s3) (combined s3))).
  { unfold LoadTen. destruct (decide (0 <= N - 1 < N)); [reflexivity|lia]. }
  rewrite H4. cbn [mbind option_bind].
  edestruct (right_pass_resident (right_middle_site N) Hr fuel (N - 1))
    as (s5 & rb & -> & Hrb & Hm5).
  { lia. } { simpl. rewrite Hm3. sites_solve. } { lia. } { lia. }
  cbn [mbind option_bind].
  assert (Hsubrb : SizeT.sub rb 1 = rb - 1) by (apply SizeT.sub_small; lia).
  rewrite Hsubrb.
  rewrite (SizeT.for_down_run DumpTen (Z.to_nat (N - rb + 1)) (N - 1) (rb - 1) fuel s5)
    by lia.
  destruct (dump_downto (Z.to_nat (N - rb + 1)) (N - 1) s5) as (s6 & -> & Hm6).
  { rewrite Hm5. f_equal; lia. }
  cbn [mbind option_bind].
  exists lb, rb, s6. repeat split; try lia; assumption.
Qed.

End Passes.

(** A two-site MPS is outside the domain of the function: the dump loop of
    the left side reaches site 1, which was never loaded. *)
Example check_and_update_two_sites :
  CheckAndUpdateBoundaryMPSTensors 2 16 (fun _ => (1, 2, 2)) (fun _ => (2, 2, 1))
    10 empty_mps = None.
Proof. vm_compute. reflexivity. Qed.

(** C10: called on an MPS of at least three sites with no site tensor in
    memory, [CheckAndUpdateBoundaryMPSTensors] returns (whatever the tensor
    shapes and [Dmax] make it decide) and no site tensor is in memory then:
    everything the two passes loaded has been dumped with release. *)
Theorem check_and_update_leaves_memory_empty
    (N Dmax : Z) (lshape rshape : Z -> Z * Z * Z) (fuel : nat) (s0 : mps_state) :
  3 <= N < SizeT.modulus ->
  mem s0 = ∅ ->
  (Z.to_nat N < fuel)%nat ->
  exists lb rb s',
    CheckAndUpdateBoundaryMPSTensors N Dmax lshape rshape fuel s0 = Some (lb, rb, s')
    /\ mem s' = ∅.
Proof.
  intros HN Hm Hfuel.
  destruct (CheckAndUpdate_returns_empty N Dmax lshape rshape HN fuel s0 Hm Hfuel)
    as (lb & rb & s' & Hrun & Hempty & _).
  exists lb, rb, s'. split; assumption.
Qed.

Lemma check_and_update_leaves_memory_empty_witness :
  exists lb rb s',
    CheckAndUpdateBoundaryMPSTensors 6 16 (fun _ => (1, 2, 2)) (fun i => (4, 2, i))
      7 empty_mps = Some (lb, rb, s')
    /\ mem s' = ∅.
Proof.
  apply (check_and_update_leaves_memory_empty 6 16
           (fun _ => (1, 2, 2)) (fun i => (4, 2, i)) 7 empty_mps).
  - rewrite SizeT.modulus_val. lia.
  - reflexivity.
  - simpl. lia.
Defined.

End Init.

(** ** The master of the noised two-site VMPS
       ([two_site_update_noised_finite_vmps_mpi_impl.h]) *)
Module Master.

(** [GenEnvTenName("l", ...)] and [GenEnvTenName("r", ...)]. *)
Inductive env_side : Set := LEnv | REnv.

#[global] Instance env_side_eq_dec : EqDecision env_side.
Proof. solve_decision. Defined.

(** Functions the master calls whose bodies belong to collaborators (the
    tensor library, the solvers, the non-noised VMPS files). *)
Inductive callee : Set :=
  | fNeedGenerateRightEnvs
  | fInitEnvs
  | fUpdateBoundaryEnvs
  | fContract
  | fMasterLanczosSolver
  | fSendBroadCastGQTensor
  | fBroadcastNoise
  | fExpansionFanIn
  | fCollectiveLinearCombine
  | fExpandMC
  | fMPISVDMaster
  | fMeasureEE
  | fMasterGrowLeftEnvironment
  | fMasterGrowRightEnvironment
  | fDumpRelatedTensOnTwoSiteAlgWhenRightMoving
  | fDumpRelatedTensOnTwoSiteAlgWhenLeftMoving.

(** What the master does, in program order. *)
Inductive event : Type :=
  | Broadcast (o : MPS_AlGO_ORDER)               (* MasterBroadcastOrder(o, world) *)
  | SweepBegin (sweep : Z) (noise : float)       (* "sweep k", then the sweep with [noise] *)
  | BondUpdate (dir : ascii) (target_site : Z) (noise : float)
                                                 (* entry of MasterTwoSiteFiniteVMPSUpdate *)
  | MpsLoadTen (i : Z)                           (* mps.LoadTen(i, GenMPSTenName(mps_path, i)) *)
  | MpsDumpTen (i : Z)                           (* mps.DumpTen(i, ..., true) *)
  | MpsAssign (i : Z)                            (* mps[i] = ... / mps(i) = ... *)
  | EnvLoadTen (s : env_side) (len : Z)          (* lenvs/renvs.LoadTen(len, GenEnvTenName(s, len, temp_path)) *)
  | RemoveFile (s : env_side) (len : Z)          (* RemoveFile(GenEnvTenName(s, len, temp_path)) *)
  | EnvAssign (s : env_side) (len : Z)           (* lenvs(len) = ... / renvs(len) = ... *)
  | Call (f : callee) (args : list Z).

(** The orders the functions modelled here pass to [MasterBroadcastOrder]
    themselves.  What a collaborator broadcasts during a [Call] is not
    known from these files and is not part of it. *)
Definition orders_of (tr : list event) : list MPS_AlGO_ORDER :=
  flat_map (fun e => match e with Broadcast o => [o] | _ => [] end) tr.

Definition bond_updates_of (tr : list event) : list (ascii * Z) :=
  flat_map (fun e => match e with BondUpdate d i _ => [(d, i)] | _ => [] end) tr.

Definition sweep_noises_of (tr : list event) : list (Z * float) :=
  flat_map (fun e => match e with SweepBegin k x => [(k, x)] | _ => [] end) tr.

Definition assigned_sites_of (tr : list event) : list Z :=
  flat_map (fun e => match e with MpsAssign i => [i] | _ => [] end) tr.

(** *** Loading the tensors a bond update needs *)

(** [LoadRelatedTensOnTwoSiteAlgWhenRightMoving]. *)
Definition LoadRelatedTensOnTwoSiteAlgWhenRightMoving
    (N target_site left_boundary : Z) : list event :=
  if decide (target_site <> left_boundary) then
    let renv_len := SizeT.sub N (SizeT.add target_site 2) in
    [ MpsLoadTen (SizeT.add target_site 2);
      EnvLoadTen REnv renv_len;
      RemoveFile REnv renv_len ]
  else
    let renv_len := SizeT.sub (SizeT.sub N 1) (SizeT.add target_site 1) in
    let lenv_len := target_site in
    [ MpsLoadTen (SizeT.add target_site 2);
      EnvLoadTen REnv renv_len;
      RemoveFile REnv renv_len;
      EnvLoadTen LEnv lenv_len ].

(** [LoadRelatedTensOnTwoSiteAlgWhenLeftMoving]. *)
Definition LoadRelatedTensOnTwoSiteAlgWhenLeftMoving
    (N target_site right_boundary : Z) : list event :=
  if decide (target_site <> right_boundary) then
    let lenv_len := SizeT.sub (SizeT.add target_site 1) 2 in
    [ MpsLoadTen (SizeT.sub target_site 2);
      EnvLoadTen LEnv lenv_len;
      RemoveFile LEnv lenv_len ]
  else
    let renv_len := SizeT.sub (SizeT.sub N 1) target_site in
    let lenv_len := SizeT.sub target_site 1 in
    [ MpsLoadTen (SizeT.sub target_site 2);
      EnvLoadTen REnv renv_len;
      RemoveFile LEnv lenv_len ].

(** The environment files on disk after a run of events, from the set of
    files [disk] before it.  Loading reads a file; only [RemoveFile]
    deletes one. *)
Definition env_file : Type := env_side * Z.

Fixpoint disk_after (disk : env_file -> bool) (tr : list event) : env_file -> bool :=
  match tr with
  | [] => disk
  | RemoveFile s len :: tr' =>
      disk_after (fun f => if decide (f = (s, len)) then false else disk f) tr'
  | _ :: tr' => disk_after disk tr'
  end.

(** Every environment file that is loaded is removed by the very next
    action. *)
Definition loads_removed_at_once (tr : list event) : Prop :=
  forall pre s len post,
    tr = pre ++ EnvLoadTen s len :: post ->
    exists post', post = RemoveFile s len :: post'.

(** *** One bond update *)

(** [fabs(noise) >= 1e-10]. *)
#[local] Set Warnings "-inexact-float".
Definition noise_floor : float := 1e-10%float.
#[local] Set Warnings "inexact-float".

Definition noise_on (noise : float) : bool :=
  PrimFloat.leb noise_floor (PrimFloat.abs noise).

(** The first [switch (dir)]: [lsite_idx, rsite_idx, lenv_len, renv_len];
    [None] is the [default:] branch, which prints and calls [exit(1)]. *)
Definition site_indices (N : Z) (dir : ascii) (target_site : Z)
    : option (Z * Z * Z * Z) :=
  if decide (dir = "r"%char) then
    Some (target_site, SizeT.add target_site 1,
          target_site, SizeT.sub N (SizeT.add target_site 2))
  else if decide (dir = "l"%char) then
    Some (SizeT.sub target_site 1, target_site,
          SizeT.sub target_site 1, SizeT.sub (SizeT.sub N target_site) 1)
  else None.

(** [MasterTwoSiteFiniteVMPSRightMovingExpand]: state and noise are
    broadcast, the sector results are collected (see [Expand] below), and
    the expanded tensors end in [*gs_vec] and [mps(target_site + 2)]. *)
Definition MasterTwoSiteFiniteVMPSRightMovingExpand (target_site : Z) : list event :=
  [ Call fSendBroadCastGQTensor []; Call fBroadcastNoise [];
    Call fExpansionFanIn []; Call fCollectiveLinearCombine []; Call fExpandMC [];
    Call fExpandMC [SizeT.add target_site 2];
    MpsAssign (SizeT.add target_site 2) ].

(** [MasterTwoSiteFiniteVMPSLeftMovingExpand], with
    [next_next_site = target_site - 2]. *)
Definition MasterTwoSiteFiniteVMPSLeftMovingExpand (target_site : Z) : list event :=
  [ Call fSendBroadCastGQTensor []; Call fBroadcastNoise [];
    Call fExpansionFanIn []; Call fCollectiveLinearCombine []; Call fExpandMC [];
    Call fExpandMC [SizeT.sub target_site 2];
    MpsAssign (SizeT.sub target_site 2) ].

(** [MasterTwoSiteFiniteVMPSUpdate]; [None] is [exit(1)]. *)
Definition MasterTwoSiteFiniteVMPSUpdate
    (N : Z) (dir : ascii) (target_site : Z) (noise : float) : option (list event) :=
  match site_indices N dir target_site with
  | None => None
  | Some (lsite_idx, rsite_idx, lenv_len, renv_len) =>
      Some
        ([ BondUpdate dir target_site noise;
           Call fContract [lsite_idx; rsite_idx];
           Broadcast lanczos;
           Call fMasterLanczosSolver [lenv_len; lsite_idx; rsite_idx; renv_len] ]
         ++ (if noise_on noise then
               if decide (dir = "r"%char) then
                 Broadcast contract_for_right_moving_expansion
                   :: MasterTwoSiteFiniteVMPSRightMovingExpand target_site
               else
                 Broadcast contract_for_left_moving_expansion
                   :: MasterTwoSiteFiniteVMPSLeftMovingExpand target_site
             else [])
         ++ [ Broadcast svd;
              Call fMPISVDMaster [lsite_idx];
              Call fMeasureEE [] ]
         ++ [ MpsAssign lsite_idx; MpsAssign rsite_idx ]
         ++ (if decide (dir = "r"%char) then
               [ Broadcast growing_left_env;
                 Call fMasterGrowLeftEnvironment [lenv_len; target_site];
                 EnvAssign LEnv (SizeT.add lenv_len 1) ]
             else
               [ Broadcast growing_right_env;
                 Call fMasterGrowRightEnvironment [renv_len; target_site];
                 EnvAssign REnv (SizeT.add renv_len 1) ]))
  end.

(** *** One sweep *)

Definition right_moving_step (N left_boundary : Z) (noise : float) (i : Z)
    (tr : list event) : option (list event) :=
  u ← MasterTwoSiteFiniteVMPSUpdate N "r"%char i noise;
  Some (tr ++ LoadRelatedTensOnTwoSiteAlgWhenRightMoving N i left_boundary
           ++ u ++ [Call fDumpRelatedTensOnTwoSiteAlgWhenRightMoving [i]]).

Definition left_moving_step (N right_boundary : Z) (noise : float) (i : Z)
    (tr : list event) : option (list event) :=
  u ← MasterTwoSiteFiniteVMPSUpdate N "l"%char i noise;
  Some (tr ++ LoadRelatedTensOnTwoSiteAlgWhenLeftMoving N i right_boundary
           ++ u ++ [Call fDumpRelatedTensOnTwoSiteAlgWhenLeftMoving [i]]).

(** [TwoSiteFiniteVMPSSweep]: the events it appends to [tr]. *)
Definition TwoSiteFiniteVMPSSweep (fuel : nat) (N left_boundary right_boundary : Z)
    (noise : float) (tr : list event) : option (list event) :=
  tr1 ← SizeT.for_up fuel left_boundary (SizeT.sub right_boundary 2)
          (right_moving_step N left_boundary noise) tr;
  SizeT.for_down fuel right_boundary (SizeT.add left_boundary 2)
    (left_moving_step N right_boundary noise) tr1.

(** *** The whole run *)

(** The fields of [TwoSiteMPINoisedVMPSSweepParams] the master reads. *)
Record TwoSiteMPINoisedVMPSSweepParams : Type := MkParams {
  sweeps : Z;
  Dmin : Z;
  Dmax : Z;
  trunc_err : float;
  noises : list float
}.

(** [if (sweep_params.noises.empty()) { sweep_params.noises.push_back(0.0); }] *)
Definition default_noises (ns : list float) : list float :=
  match ns with
  | [] => [0%float]
  | _ => ns
  end.

(** The body of the sweep loop.  The local [double noise] is declared
    without a value: it is [None] until first assigned, and reading it then
    has no defined result ([None] for the run). *)
Definition sweep_step (fuel : nat) (N left_boundary right_boundary : Z)
    (ns : list float) (sweep : Z) (st : option float * list event)
    : option (option float * list event) :=
  let '(noise, tr) := st in
  let noise' :=
    if SizeT.sub sweep 1 <? Z.of_nat (length ns)
    then Some (nth (Z.to_nat (SizeT.sub sweep 1)) ns 0%float)
    else noise in
  match noise' with
  | None => None
  | Some x =>
      tr' ← TwoSiteFiniteVMPSSweep fuel N left_boundary right_boundary x
              (tr ++ [SweepBegin sweep x]);
      Some (Some x, tr')
  end.

(** The MPS tensors [CheckAndUpdateBoundaryMPSTensors] has written to when
    it returns in state [s].  A site [i] of the left pass
    ([i < left_middle_site]) that it combines is fused into its right
    neighbour, [mps[i+1] = std::move(mps_next_tmp); mps[i] =
    std::move(index_combiner)]; a site of the right pass into its left
    neighbour, [InplaceContract(mps(i-1), mps(i), ...); mps[i] =
    std::move(index_combiner)]. *)
Definition boundary_check_assigns (N : Z) (s : Init.mps_state) : list event :=
  flat_map
    (fun i =>
       if i <? Init.left_middle_site N
       then [MpsAssign (SizeT.add i 1); MpsAssign i]
       else [MpsAssign (SizeT.sub i 1); MpsAssign i])
    (Init.combined s).

(** [TwoSiteFiniteVMPSInit]: the boundaries are those of
    [CheckAndUpdateBoundaryMPSTensors], whose assignments come first;
    afterwards the environment files are generated when
    [NeedGenerateRightEnvs] asks for it ([need_gen], decided by the files on
    disk) and the boundary environments are rewritten. *)
Definition TwoSiteFiniteVMPSInit (fuel : nat) (N : Z) (params : TwoSiteMPINoisedVMPSSweepParams)
    (lshape rshape : Z -> Z * Z * Z) (need_gen : bool)
    : option (Z * Z * list event) :=
  '(left_boundary, right_boundary, s) ←
     Init.CheckAndUpdateBoundaryMPSTensors N (Dmax params) lshape rshape fuel
       Init.empty_mps;
  Some (left_boundary, right_boundary,
        boundary_check_assigns N s
        ++ [Call fNeedGenerateRightEnvs [N; left_boundary; right_boundary]]
        ++ (if need_gen then [Call fInitEnvs [SizeT.add left_boundary 2]] else [])
        ++ [Call fUpdateBoundaryEnvs [left_boundary; right_boundary; 2]]).

(** [MasterTwoSiteFiniteVMPS]. *)
Definition MasterTwoSiteFiniteVMPS (fuel : nat) (N : Z)
    (params : TwoSiteMPINoisedVMPSSweepParams)
    (lshape rshape : Z -> Z * Z * Z) (need_gen : bool) : option (list event) :=
  '(left_boundary, right_boundary, init_events) ←
     TwoSiteFiniteVMPSInit fuel N params lshape rshape need_gen;
  let ns := default_noises (noises params) in
  let tr0 :=
    [Broadcast program_start] ++ init_events
    ++ [MpsLoadTen left_boundary; MpsLoadTen (SizeT.add left_boundary 1)] in
  '(_, tr) ← SizeT.for_up fuel 1 (sweeps params)
               (sweep_step fuel N left_boundary right_boundary ns) (None, tr0);
  Some (tr ++ [ MpsDumpTen left_boundary; MpsDumpTen (SizeT.add left_boundary 1);
                Broadcast program_final ]).

(** *** The order sequence of a bond update *)

(** "The magnitude of the noise exceeds the floor", read strictly. *)
Definition exceeds_floor (noise : float) : bool :=
  PrimFloat.ltb noise_floor (PrimFloat.abs noise).

Definition expansion_order (dir : ascii) : MPS_AlGO_ORDER :=
  if decide (dir = "r"%char) then contract_for_right_moving_expansion
  else contract_for_left_moving_expansion.

Definition growing_order (dir : ascii) : MPS_AlGO_ORDER :=
  if decide (dir = "r"%char) then growing_left_env else growing_right_env.

(** The order sequence of one bond update, with the expansion order
    switched by [expands]. *)
Definition update_orders (expands : float -> bool) (dir : ascii) (noise : float)
    : list MPS_AlGO_ORDER :=
  [lanczos] ++ (if expands noise then [expansion_order dir] else [])
  ++ [svd; growing_order dir].

(** *** Facts about the load functions *)

Lemma three_events_removed_at_once (e : event) (s : env_side) (len : Z) :
  (forall s' len', e <> EnvLoadTen s' len') ->
  loads_removed_at_once [e; EnvLoadTen s len; RemoveFile s len].
Proof.
  intros He pre s' len' post H.
  destruct pre as [|e1 [|e2 [|e3 [|e4 pre]]]]; simpl in H; inversion H; subst.
  - exfalso. now apply (He s' len').
  - now exists [].
Qed.

(** C2 (as amended): away from the boundary site, the environment file a
    load function reads is removed by the very next action.  At the boundary
    site the right-moving load reads and removes the right environment file
    and then reads the left environment file of length [left_boundary]
    without removing it (it stays on disk if it was there); the left-moving
    load reads the right environment file of length [N-1-right_boundary]
    without removing it and removes the left environment file of length
    [right_boundary-1] without reading it. *)
Theorem load_related_tens_env_files (N target_site boundary : Z) :
  (target_site <> boundary ->
     loads_removed_at_once
       (LoadRelatedTensOnTwoSiteAlgWhenRightMoving N target_site boundary)
     /\ loads_removed_at_once
          (LoadRelatedTensOnTwoSiteAlgWhenLeftMoving N target_site boundary))
  /\ LoadRelatedTensOnTwoSiteAlgWhenRightMoving N boundary boundary
     = [ MpsLoadTen (SizeT.add boundary 2);
         EnvLoadTen REnv (SizeT.sub (SizeT.sub N 1) (SizeT.add boundary 1));
         RemoveFile REnv (SizeT.sub (SizeT.sub N 1) (SizeT.add boundary 1));
         EnvLoadTen LEnv boundary ]
  /\ LoadRelatedTensOnTwoSiteAlgWhenLeftMoving N boundary boundary
     = [ MpsLoadTen (SizeT.sub boundary 2);
         EnvLoadTen REnv (SizeT.sub (SizeT.sub N 1) boundary);
         RemoveFile LEnv (SizeT.sub boundary 1) ]
  /\ (forall disk,
        disk (LEnv, boundary) = true ->
        disk_after disk (LoadRelatedTensOnTwoSiteAlgWhenRightMoving N boundary boundary)
          (LEnv, boundary) = true)
  /\ (forall disk,
        disk (REnv, SizeT.sub (SizeT.sub N 1) boundary) = true ->
        disk_after disk (LoadRelatedTensOnTwoSiteAlgWhenLeftMoving N boundary boundary)
          (REnv, SizeT.sub (SizeT.sub N 1) boundary) = true).
Proof.
  unfold LoadRelatedTensOnTwoSiteAlgWhenRightMoving,
    LoadRelatedTensOnTwoSiteAlgWhenLeftMoving.
  repeat split.
  - rewrite decide_True by assumption.
    apply three_events_removed_at_once. discriminate.
  - rewrite decide_True by assumption.
    apply three_events_removed_at_once. discriminate.
  - rewrite decide_False by (intros H; now apply H). reflexivity.
  - rewrite decide_False by (intros H; now apply H). reflexivity.
  - intros disk Hd. rewrite decide_False by (intros H; now apply H).
    cbn [disk_after]. rewrite decide_False by discriminate. exact Hd.
  - intros disk Hd. rewrite decide_False by (intros H; now apply H).
    cbn [disk_after]. rewrite decide_False by discriminate. exact Hd.
Qed.

(** C2 (as stated) fails in both boundary branches: with [N = 6] and
    boundaries 1 and 4, the right-moving load at site 1 reads the left
    environment file last and removes nothing after it, and the left-moving
    load at site 4 reads a right environment file and then removes a left
    one. *)
Lemma boundary_loads_not_removed :
  ~ loads_removed_at_once (LoadRelatedTensOnTwoSiteAlgWhenRightMoving 6 1 1)
  /\ ~ loads_removed_at_once (LoadRelatedTensOnTwoSiteAlgWhenLeftMoving 6 4 4).
Proof.
  split; intros H.
  - destruct (H [MpsLoadTen 3; EnvLoadTen REnv 3; RemoveFile REnv 3] LEnv 1 [] eq_refl)
      as [post' Hpost].
    discriminate Hpost.
  - destruct (H [MpsLoadTen 2] REnv 1 [RemoveFile LEnv 3] eq_refl) as [post' Hpost].
    discriminate Hpost.
Qed.

(** *** Facts about one bond update *)

Lemma orders_of_app a b : orders_of (a ++ b) = orders_of a ++ orders_of b.
Proof. unfold orders_of. apply flat_map_app. Qed.

Lemma bond_updates_of_app a b :
  bond_updates_of (a ++ b) = bond_updates_of a ++ bond_updates_of b.
Proof. unfold bond_updates_of. apply flat_map_app. Qed.

Lemma sweep_noises_of_app a b :
  sweep_noises_of (a ++ b) = sweep_noises_of a ++ sweep_noises_of b.
Proof. unfold sweep_noises_of. apply flat_map_app. Qed.

Lemma assigned_sites_of_app a b :
  assigned_sites_of (a ++ b) = assigned_sites_of a ++ assigned_sites_of b.
Proof. unfold assigned_sites_of. apply flat_map_app. Qed.

(** The events of an update whose direction is known to be valid. *)
Definition update_events (N : Z) (dir : ascii) (target_site : Z) (noise : float)
    : list event :=
  default [] (MasterTwoSiteFiniteVMPSUpdate N dir target_site noise).

Lemma update_returns (N : Z) (dir : ascii) (target_site : Z) (noise : float) :
  dir = "r"%char \/ dir = "l"%char ->
  MasterTwoSiteFiniteVMPSUpdate N dir target_site noise
  = Some (update_events N dir target_site noise).
Proof.
  intros [-> | ->]; reflexivity.
Qed.

(** Any other [dir] takes the [default:] branch of the first [switch]:
    the process exits before anything is broadcast. *)
Lemma update_bad_dir_exits (N : Z) (dir : ascii) (target_site : Z) (noise : float) :
  dir <> "r"%char -> dir <> "l"%char ->
  MasterTwoSiteFiniteVMPSUpdate N dir target_site noise = None.
Proof.
  intros Hr Hl. unfold MasterTwoSiteFiniteVMPSUpdate, site_indices.
  now rewrite !decide_False by assumption.
Qed.

Lemma update_events_orders (N : Z) (dir : ascii) (target_site : Z) (noise : float) :
  dir = "r"%char \/ dir = "l"%char ->
  orders_of (update_events N dir target_site noise) = update_orders noise_on dir noise.
Proof.
  intros [-> | ->]; unfold update_events, update_orders; simpl;
    destruct (noise_on noise); reflexivity.
Qed.

(** C3 (as amended): a bond update with [dir] in {'r','l'} returns, and the
    orders it broadcasts are, in this sequence: [lanczos]; then, if and only
    if [fabs(noise) >= 1e-10] (the floor itself included), the expansion
    order of the direction; then [svd]; then [growing_left_env] for 'r' or
    [growing_right_env] for 'l'; and no other order. *)
Theorem update_broadcasts_in_sequence
    (N : Z) (dir : ascii) (target_site : Z) (noise : float) :
  dir = "r"%char \/ dir = "l"%char ->
  exists tr,
    MasterTwoSiteFiniteVMPSUpdate N dir target_site noise = Some tr
    /\ orders_of tr
       = [lanczos]
           ++ (if PrimFloat.leb noise_floor (PrimFloat.abs noise)
               then [if decide (dir = "r"%char)
                     then contract_for_right_moving_expansion
                     else contract_for_left_moving_expansion]
               else [])
           ++ [svd; if decide (dir = "r"%char) then growing_left_env
                    else growing_right_env].
Proof.
  intros Hdir. exists (update_events N dir target_site noise). split.
  - now apply update_returns.
  - now rewrite update_events_orders.
Qed.

Lemma update_broadcasts_in_sequence_witness :
  exists tr,
    MasterTwoSiteFiniteVMPSUpdate 6 "l"%char 4 0.5%float = Some tr
    /\ orders_of tr
       = [lanczos]
           ++ (if PrimFloat.leb noise_floor (PrimFloat.abs 0.5%float)
               then [if decide ("l"%char = "r"%char)
                     then contract_for_right_moving_expansion
                     else contract_for_left_moving_expansion]
               else [])
           ++ [svd; if decide ("l"%char = "r"%char) then growing_left_env
                    else growing_right_env].
Proof.
  apply (update_broadcasts_in_sequence 6 "l"%char 4 0.5%float).
  right. reflexivity.
Defined.

(** C3 (as stated) fails at the floor: with [noise] equal to the floor,
    the magnitude does not exceed it, yet the right-moving update broadcasts
    [contract_for_right_moving_expansion]. *)
Lemma update_expands_at_the_floor :
  exceeds_floor noise_floor = false
  /\ option_map orders_of (MasterTwoSiteFiniteVMPSUpdate 6 "r"%char 1 noise_floor)
     = Some [lanczos; contract_for_right_moving_expansion; svd; growing_left_env]
  /\ option_map orders_of (MasterTwoSiteFiniteVMPSUpdate 6 "r"%char 1 noise_floor)
     <> Some (update_orders exceeds_floor "r"%char noise_floor).
Proof.
  split; [reflexivity|]. split; [reflexivity|].
  vm_compute. discriminate.
Qed.

(** *** Closed form of a sweep *)

Definition right_events (N left_boundary : Z) (noise : float) (i : Z) : list event :=
  LoadRelatedTensOnTwoSiteAlgWhenRightMoving N i left_boundary
  ++ update_events N "r"%char i noise
  ++ [Call fDumpRelatedTensOnTwoSiteAlgWhenRightMoving [i]].

Definition left_events (N right_boundary : Z) (noise : float) (i : Z) : list event :=
  LoadRelatedTensOnTwoSiteAlgWhenLeftMoving N i right_boundary
  ++ update_events N "l"%char i noise
  ++ [Call fDumpRelatedTensOnTwoSiteAlgWhenLeftMoving [i]].

(** Number of bond updates in each half of a sweep. *)
Definition half_sweep (left_boundary right_boundary : Z) : nat :=
  Z.to_nat (right_boundary - left_boundary - 1).

Definition sweep_events (N left_boundary right_boundary : Z) (noise : float)
    : list event :=
  flat_map (right_events N left_boundary noise)
    (SizeT.upto left_boundary (half_sweep left_boundary right_boundary))
  ++ flat_map (left_events N right_boundary noise)
       (SizeT.downto right_boundary (half_sweep left_boundary right_boundary)).

Lemma run_over_right_steps (N lb : Z) (noise : float) (l : list Z) :
  forall tr,
    SizeT.run_over (right_moving_step N lb noise) l tr
    = Some (tr ++ flat_map (right_events N lb noise) l).
Proof.
  induction l as [|i l IH]; intros tr; cbn [SizeT.run_over flat_map].
  - now rewrite app_nil_r.
  - unfold right_moving_step at 1.
    rewrite (update_returns N "r"%char i noise) by (now left).
    cbn [mbind option_bind]. rewrite IH. f_equal.
    unfold right_events. now rewrite <- !app_assoc.
Qed.

Lemma run_over_left_steps (N rb : Z) (noise : float) (l : list Z) :
  forall tr,
    SizeT.run_over (left_moving_step N rb noise) l tr
    = Some (tr ++ flat_map (left_events N rb noise) l).
Proof.
  induction l as [|i l IH]; intros tr; cbn [SizeT.run_over flat_map].
  - now rewrite app_nil_r.
  - unfold left_moving_step at 1.
    rewrite (update_returns N "l"%char i noise) by (now right).
    cbn [mbind option_bind]. rewrite IH. f_equal.
    unfold left_events. now rewrite <- !app_assoc.
Qed.

Lemma sweep_returns (fuel : nat) (N lb rb : Z) (noise : float) (tr : list event) :
  0 <= lb -> lb + 2 <= rb -> rb < SizeT.modulus ->
  (Z.to_nat rb < fuel)%nat ->
  TwoSiteFiniteVMPSSweep fuel N lb rb noise tr
  = Some (tr ++ sweep_events N lb rb noise).
Proof.
  intros Hlb Hrb Hmod Hfuel. unfold TwoSiteFiniteVMPSSweep.
  rewrite SizeT.sub_small by lia.
  rewrite SizeT.add_small by lia.
  rewrite (SizeT.for_up_run _ (half_sweep lb rb) lb (rb - 2) fuel tr)
    by (unfold half_sweep, SizeT.max; lia).
  rewrite run_over_right_steps. cbn [mbind option_bind].
  rewrite (SizeT.for_down_run _ (half_sweep lb rb) rb (lb + 2) fuel)
    by (unfold half_sweep; lia).
  rewrite run_over_left_steps. unfold sweep_events.
  now rewrite <- app_assoc.
Qed.

(** *** Closed form of the whole run *)

(** The noise in force during sweep [k] (counted from 1): the entry of
    index [k-1] while the list lasts, its last entry afterwards. *)
Definition held_noise (ns : list float) (k : Z) : float :=
  if k - 1 <? Z.of_nat (length ns)
  then nth (Z.to_nat (k - 1)) ns 0%float
  else List.last ns 0%float.

Definition one_sweep (N lb rb : Z) (ns : list float) (k : Z) : list event :=
  SweepBegin k (held_noise ns k) :: sweep_events N lb rb (held_noise ns k).

Lemma nth_last_float (ns : list float) :
  ns <> [] -> nth (length ns - 1) ns 0%float = List.last ns 0%float.
Proof.
  intros Hne. induction ns as [|a ns IH]; [contradiction|].
  destruct ns as [|b ns]; [reflexivity|].
  change (List.last (a :: b :: ns) 0%float) with (List.last (b :: ns) 0%float).
  rewrite <- IH by discriminate. simpl. now rewrite Nat.sub_0_r.
Qed.

Lemma run_over_sweeps (fuel : nat) (N lb rb : Z) (ns : list float) :
  0 <= lb -> lb + 2 <= rb -> rb < SizeT.modulus ->
  (Z.to_nat rb < fuel)%nat ->
  ns <> [] ->
  forall (n : nat) (k : Z) (nz : option float) (tr : list event),
    1 <= k -> k + Z.of_nat n <= SizeT.modulus ->
    (Z.of_nat (length ns) <= k - 1 -> nz = Some (List.last ns 0%float)) ->
    exists nz',
      SizeT.run_over (sweep_step fuel N lb rb ns) (SizeT.upto k n) (nz, tr)
      = Some (nz', tr ++ flat_map (one_sweep N lb rb ns) (SizeT.upto k n)).
Proof.
  intros Hlb Hrb Hmod Hfuel Hne.
  induction n as [|n IH]; intros k nz tr Hk Hkn Hnz.
  - exists nz. simpl. now rewrite app_nil_r.
  - cbn [SizeT.upto SizeT.run_over]. unfold sweep_step at 1.
    rewrite SizeT.sub_small by lia.
    assert (Hheld :
      (if k - 1 <? Z.of_nat (length ns)
       then Some (nth (Z.to_nat (k - 1)) ns 0%float) else nz)
      = Some (held_noise ns k)).
    { unfold held_noise. destruct (Z.ltb_spec (k - 1) (Z.of_nat (length ns))).
      - reflexivity.
      - now apply Hnz. }
    rewrite Hheld.
    rewrite sweep_returns by assumption. cbn [mbind option_bind].
    destruct (IH (k + 1) (Some (held_noise ns k))
                (((tr ++ [SweepBegin k (held_noise ns k)])
                  ++ sweep_events N lb rb (held_noise ns k))))
      as [nz' Hrun]; [lia|lia| |].
    + intros Hlen. f_equal. unfold held_noise.
      destruct (Z.ltb_spec (k - 1) (Z.of_nat (length ns))) as [Hlt|Hge];
        [|reflexivity].
      replace (Z.to_nat (k - 1)) with (length ns - 1)%nat by lia.
      now apply nth_last_float.
    + exists nz'. rewrite Hrun. f_equal. f_equal.
      cbn [flat_map]. unfold one_sweep at 2.
      rewrite <- !app_assoc. reflexivity.
Qed.

Definition init_events (N lb rb : Z) (s : Init.mps_state) (need_gen : bool)
    : list event :=
  boundary_check_assigns N s
  ++ [Call fNeedGenerateRightEnvs [N; lb; rb]]
  ++ (if need_gen then [Call fInitEnvs [SizeT.add lb 2]] else [])
  ++ [Call fUpdateBoundaryEnvs [lb; rb; 2]].

(** The events of a run before its first sweep, and the events of the
    whole run. *)
Definition before_sweeps (N lb rb : Z) (s : Init.mps_state) (need_gen : bool)
    : list event :=
  [Broadcast program_start] ++ init_events N lb rb s need_gen
  ++ [MpsLoadTen lb; MpsLoadTen (SizeT.add lb 1)].

Definition master_events (N lb rb : Z) (s : Init.mps_state) (need_gen : bool)
    (ns : list float) (sweep_count : Z) : list event :=
  before_sweeps N lb rb s need_gen
  ++ flat_map (one_sweep N lb rb (default_noises ns))
       (SizeT.upto 1 (Z.to_nat sweep_count))
  ++ [MpsDumpTen lb; MpsDumpTen (SizeT.add lb 1); Broadcast program_final].

Lemma default_noises_nonempty ns : default_noises ns <> [].
Proof. destruct ns; discriminate. Qed.

(** Every run on an MPS of at least three sites returns, with boundaries
    at least two sites apart, and its events are [master_events]. *)
Lemma master_returns (fuel : nat) (N : Z) (params : TwoSiteMPINoisedVMPSSweepParams)
    (lshape rshape : Z -> Z * Z * Z) (need_gen : bool) :
  3 <= N < SizeT.modulus ->
  0 <= sweeps params < SizeT.max ->
  (Z.to_nat N < fuel)%nat -> (Z.to_nat (sweeps params) < fuel)%nat ->
  exists lb rb s,
    0 <= lb /\ lb + 2 <= rb /\ rb <= N - 1
    /\ Init.CheckAndUpdateBoundaryMPSTensors N (Dmax params) lshape rshape
         fuel Init.empty_mps = Some (lb, rb, s)
    /\ MasterTwoSiteFiniteVMPS fuel N params lshape rshape need_gen
       = Some (master_events N lb rb s need_gen (noises params) (sweeps params)).
Proof.
  intros HN Hsw HfN Hfs.
  destruct (Init.CheckAndUpdate_returns_empty N (Dmax params) lshape rshape HN fuel
              Init.empty_mps eq_refl HfN)
    as (lb & rb & s & Hinit & _ & Hlb & Hrb).
  destruct (Init.middle_sites N HN) as (Hl & Hr & Hlr).
  exists lb, rb, s.
  split; [lia|]. split; [lia|]. split; [lia|]. split.
  - exact Hinit.
  - unfold MasterTwoSiteFiniteVMPS, TwoSiteFiniteVMPSInit.
    rewrite Hinit. cbn [mbind option_bind].
    rewrite (SizeT.for_up_run _ (Z.to_nat (sweeps params)) 1 (sweeps params) fuel)
      by lia.
    destruct (run_over_sweeps fuel N lb rb (default_noises (noises params))
                ltac:(lia) ltac:(lia) ltac:(lia) ltac:(lia)
                (default_noises_nonempty _)
                (Z.to_nat (sweeps params)) 1 None
                ([Broadcast program_start]
                 ++ (boundary_check_assigns N s
                     ++ [Call fNeedGenerateRightEnvs [N; lb; rb]]
                     ++ (if need_gen then [Call fInitEnvs [SizeT.add lb 2]] else [])
                     ++ [Call fUpdateBoundaryEnvs [lb; rb; 2]])
                 ++ [MpsLoadTen lb; MpsLoadTen (SizeT.add lb 1)]))
      as [nz' Hrun].
    + lia.
    + unfold SizeT.max in Hsw. lia.
    + intros Hlen. pose proof (default_noises_nonempty (noises params)) as Hne.
      destruct (default_noises (noises params)); [contradiction|]. simpl in Hlen. lia.
    + rewrite Hrun. cbn [mbind option_bind].
      unfold master_events, before_sweeps, init_events.
      now rewrite <- !app_assoc.
Qed.

(** *** Projections of the closed form *)

Ltac step_events :=
  unfold right_events, left_events,
    LoadRelatedTensOnTwoSiteAlgWhenRightMoving,
    LoadRelatedTensOnTwoSiteAlgWhenLeftMoving, update_events;
  repeat case_decide; simpl;
  match goal with
  | |- context [noise_on ?x] => destruct (noise_on x)
  | _ => idtac
  end; reflexivity.

Lemma right_events_orders N lb noise i :
  orders_of (right_events N lb noise i) = update_orders noise_on "r"%char noise.
Proof. unfold update_orders. step_events. Qed.

Lemma left_events_orders N rb noise i :
  orders_of (left_events N rb noise i) = update_orders noise_on "l"%char noise.
Proof. unfold update_orders. step_events. Qed.



Lemma right_events_sweep_noises N lb noise i :
  sweep_noises_of (right_events N lb noise i) = [].
Proof. step_events. Qed.

Lemma left_events_sweep_noises N rb noise i :
  sweep_noises_of (left_events N rb noise i) = [].
Proof. step_events. Qed.



Lemma flat_map_nil_each {A B : Type} (f : A -> list B) (l : list A) :
  (forall a, f a = []) -> flat_map f l = [].
Proof. intros H. induction l as [|a l IH]; simpl; [|rewrite H, IH]; reflexivity. Qed.

Lemma flat_map_nested {A B C : Type} (f : A -> list B) (g : B -> list C) (l : list A) :
  flat_map g (flat_map f l) = flat_map (fun a => flat_map g (f a)) l.
Proof.
  induction l as [|a l IH]; [reflexivity|].
  cbn [flat_map]. now rewrite flat_map_app, IH.
Qed.


(** The bond updates of one sweep: sites [lb .. rb-2] rightwards, then
    sites [rb .. lb+2] leftwards. *)
Definition sweep_schedule (lb rb : Z) : list (ascii * Z) :=
  map (pair "r"%char) (SizeT.upto lb (half_sweep lb rb))
  ++ map (pair "l"%char) (SizeT.downto rb (half_sweep lb rb)).


Lemma sweep_events_sweep_noises N lb rb noise :
  sweep_noises_of (sweep_events N lb rb noise) = [].
Proof.
  unfold sweep_events. rewrite sweep_noises_of_app.
  unfold sweep_noises_of at 1 2. rewrite !flat_map_nested.
  rewrite (flat_map_nil_each _ _ (right_events_sweep_noises N lb noise)).
  rewrite (flat_map_nil_each _ _ (left_events_sweep_noises N rb noise)).
  reflexivity.
Qed.

Lemma Forall_flat_map_in {A B : Type} (P : B -> Prop) (f : A -> list B) (l : list A) :
  (forall a, In a l -> Forall P (f a)) -> Forall P (flat_map f l).
Proof.
  induction l as [|a l IH]; intros H; cbn [flat_map]; [constructor|].
  apply List.Forall_app. split.
  - apply H. now left.
  - apply IH. intros b Hb. apply H. now right.
Qed.


(** The boundary check broadcasts nothing and updates no bond: all it
    leaves in the events of a run are its assignments. *)
Lemma boundary_check_assigns_silent N s :
  orders_of (boundary_check_assigns N s) = []
  /\ bond_updates_of (boundary_check_assigns N s) = []
  /\ sweep_noises_of (boundary_check_assigns N s) = [].
Proof.
  unfold boundary_check_assigns.
  induction (Init.combined s) as [|i l (IHo & IHb & IHs)]; [repeat split|].
  cbn [flat_map]. rewrite orders_of_app, bond_updates_of_app, sweep_noises_of_app.
  rewrite IHo, IHb, IHs.
  destruct (i <? Init.left_middle_site N); repeat split.
Qed.

Lemma init_events_silent N lb rb s need_gen :
  orders_of (init_events N lb rb s need_gen) = []
  /\ bond_updates_of (init_events N lb rb s need_gen) = []
  /\ sweep_noises_of (init_events N lb rb s need_gen) = []
  /\ assigned_sites_of (init_events N lb rb s need_gen)
     = assigned_sites_of (boundary_check_assigns N s).
Proof.
  destruct (boundary_check_assigns_silent N s) as (Ho & Hb & Hs).
  unfold init_events.
  rewrite orders_of_app, bond_updates_of_app, sweep_noises_of_app,
    assigned_sites_of_app, Ho, Hb, Hs.
  destruct need_gen; repeat split; cbn; now rewrite app_nil_r.
Qed.

(** A projection of the events of a run is the projection of its sweeps
    when the events before and after the sweeps project to the given
    lists. *)
Lemma master_events_project {B : Type} (pr : event -> list B)
    (N lb rb : Z) (s : Init.mps_state) (need_gen : bool) (ns : list float)
    (sweep_count : Z) :
  flat_map pr (master_events N lb rb s need_gen ns sweep_count)
  = (pr (Broadcast program_start) ++ flat_map pr (init_events N lb rb s need_gen)
     ++ pr (MpsLoadTen lb) ++ pr (MpsLoadTen (SizeT.add lb 1)))
    ++ flat_map (fun k => flat_map pr (one_sweep N lb rb (default_noises ns) k))
         (SizeT.upto 1 (Z.to_nat sweep_count))
    ++ pr (MpsDumpTen lb) ++ pr (MpsDumpTen (SizeT.add lb 1))
    ++ pr (Broadcast program_final).
Proof.
  unfold master_events, before_sweeps. rewrite !flat_map_app, flat_map_nested.
  cbn [flat_map]. now rewrite !app_nil_r.
Qed.


Lemma upto_length lo n : length (SizeT.upto lo n) = n.
Proof. revert lo. induction n as [|n IH]; intros lo; simpl; [|rewrite IH]; reflexivity. Qed.

Lemma held_noise_default_empty k : held_noise (default_noises []) k = 0%float.
Proof.
  unfold held_noise, default_noises.
  destruct (k - 1 <? Z.of_nat (length [0%float])); [|reflexivity].
  destruct (Z.to_nat (k - 1)) as [|[|m]]; reflexivity.
Qed.

Definition is_expansion_order (o : MPS_AlGO_ORDER) : Prop :=
  o = contract_for_right_moving_expansion \/ o = contract_for_left_moving_expansion.

Lemma sweep_events_quiet_orders N lb rb :
  Forall (fun o => ~ is_expansion_order o)
    (orders_of (sweep_events N lb rb 0%float)).
Proof.
  unfold sweep_events. rewrite orders_of_app. unfold orders_of at 1 2.
  rewrite !flat_map_nested.
  apply List.Forall_app. split; apply Forall_flat_map_in; intros i _.
  - change (Forall (fun o => ~ is_expansion_order o)
              (orders_of (right_events N lb 0%float i))).
    rewrite right_events_orders.
    repeat constructor; intros [H|H]; discriminate H.
  - change (Forall (fun o => ~ is_expansion_order o)
              (orders_of (left_events N rb 0%float i))).
    rewrite left_events_orders.
    repeat constructor; intros [H|H]; discriminate H.
Qed.

(** C1 (as amended): an empty noise list is replaced by the single entry
    [0.0], and then no expansion order is ever broadcast.  Sweep [k]
    (counted from 1) runs with the entry of index [k-1] of the list while
    [k] is within its length; a sweep beyond the length runs with the last
    configured entry, which the local variable still holds. *)
Theorem noise_in_force_per_sweep
    (fuel : nat) (N : Z) (params : TwoSiteMPINoisedVMPSSweepParams)
    (lshape rshape : Z -> Z * Z * Z) (need_gen : bool) :
  3 <= N < SizeT.modulus ->
  0 <= sweeps params < SizeT.max ->
  (Z.to_nat N < fuel)%nat -> (Z.to_nat (sweeps params) < fuel)%nat ->
  default_noises [] = [0%float]
  /\ exists tr,
       MasterTwoSiteFiniteVMPS fuel N params lshape rshape need_gen = Some tr
       /\ (forall k x,
             In (k, x) (sweep_noises_of tr) ->
             let ns := default_noises (noises params) in
             1 <= k <= sweeps params
             /\ (k <= Z.of_nat (length ns) -> x = nth (Z.to_nat (k - 1)) ns 0%float)
             /\ (Z.of_nat (length ns) < k -> x = List.last ns 0%float))
       /\ map fst (sweep_noises_of tr) = SizeT.upto 1 (Z.to_nat (sweeps params))
       /\ (noises params = [] ->
           Forall (fun o => ~ is_expansion_order o) (orders_of tr)).
Proof.
  intros HN Hsw HfN Hfs. split; [reflexivity|].
  destruct (master_returns fuel N params lshape rshape need_gen HN Hsw HfN Hfs)
    as (lb & rb & s & Hlb & Hrb & HrbN & _ & Hrun).
  eexists. split; [exact Hrun|].
  assert (Hsn : sweep_noises_of
                  (master_events N lb rb s need_gen (noises params) (sweeps params))
                = map (fun k => (k, held_noise (default_noises (noises params)) k))
                    (SizeT.upto 1 (Z.to_nat (sweeps params)))).
  { unfold sweep_noises_of at 1. rewrite master_events_project.
    destruct (init_events_silent N lb rb s need_gen) as (_ & _ & Hs & _).
    unfold sweep_noises_of in Hs. rewrite Hs. cbn [app].
    rewrite app_nil_r.
    induction (SizeT.upto 1 (Z.to_nat (sweeps params))) as [|k l IH];
      [reflexivity|].
    cbn [flat_map map]. rewrite IH. unfold one_sweep at 1.
    cbn [flat_map]. fold (sweep_noises_of (sweep_events N lb rb
      (held_noise (default_noises (noises params)) k))).
    now rewrite sweep_events_sweep_noises. }
  split; [|split].
  - intros k x Hin ns. rewrite Hsn in Hin. apply in_map_iff in Hin
      as (k' & [= <- <-] & Hk). apply SizeT.upto_In in Hk.
    split; [lia|]. unfold held_noise. fold ns.
    destruct (Z.ltb_spec (k' - 1) (Z.of_nat (length ns))); split; intros; try lia;
      reflexivity.
  - rewrite Hsn, map_map. simpl. apply map_id.
  - intros Hempty. rewrite Hempty.
    unfold orders_of at 1. rewrite master_events_project.
    destruct (init_events_silent N lb rb s need_gen) as (Ho & _).
    unfold orders_of in Ho. rewrite Ho. cbn [app].
    constructor; [intros [H|H]; discriminate H|].
    apply List.Forall_app. split.
    + apply Forall_flat_map_in. intros k _. unfold one_sweep.
      rewrite held_noise_default_empty. cbn [flat_map app].
      apply sweep_events_quiet_orders.
    + repeat constructor. intros [H|H]; discriminate H.
Qed.

Lemma noise_in_force_per_sweep_witness :
  default_noises [] = [0%float]
  /\ exists tr,
       MasterTwoSiteFiniteVMPS 8 6 (MkParams 3 1 16 0%float [0.5%float; 0.25%float])
         (fun _ => (1, 2, 2)) (fun _ => (2, 2, 1)) true = Some tr
       /\ (forall k x,
             In (k, x) (sweep_noises_of tr) ->
             let ns := default_noises
                         (noises (MkParams 3 1 16 0%float [0.5%float; 0.25%float])) in
             1 <= k <= sweeps (MkParams 3 1 16 0%float [0.5%float; 0.25%float])
             /\ (k <= Z.of_nat (length ns) -> x = nth (Z.to_nat (k - 1)) ns 0%float)
             /\ (Z.of_nat (length ns) < k -> x = List.last ns 0%float))
       /\ map fst (sweep_noises_of tr)
          = SizeT.upto 1 (Z.to_nat (sweeps (MkParams 3 1 16 0%float [0.5%float; 0.25%float])))
       /\ (noises (MkParams 3 1 16 0%float [0.5%float; 0.25%float]) = [] ->
           Forall (fun o => ~ is_expansion_order o) (orders_of tr)).
Proof.
  apply (noise_in_force_per_sweep 8 6
           (MkParams 3 1 16 0%float [0.5%float; 0.25%float])
           (fun _ => (1, 2, 2)) (fun _ => (2, 2, 1)) true).
  - rewrite SizeT.modulus_val. lia.
  - unfold SizeT.max. rewrite SizeT.modulus_val. simpl. lia.
  - simpl. lia.
  - simpl. lia.
Defined.

(** C1 (as stated) fails: with the noise list [[0.5]] and two sweeps, the
    second sweep, whose index exceeds the length of the list, runs with the
    last configured value 0.5 and broadcasts expansion orders. *)
Lemma second_sweep_reuses_last_noise :
  exists tr,
    MasterTwoSiteFiniteVMPS 8 6 (MkParams 2 1 16 0%float [0.5%float])
      (fun _ => (1, 2, 2)) (fun _ => (2, 2, 1)) true = Some tr
    /\ sweep_noises_of tr = [(1, 0.5%float); (2, 0.5%float)]
    /\ Z.of_nat (length [0.5%float]) < 2
    /\ List.last [0.5%float] 0%float = 0.5%float
    /\ noise_on 0.5%float = true
    /\ orders_of tr
       = [program_start]
         ++ concat (repeat
              [ lanczos; contract_for_right_moving_expansion; svd; growing_left_env;
                lanczos; contract_for_right_moving_expansion; svd; growing_left_env;
                lanczos; contract_for_left_moving_expansion; svd; growing_right_env;
                lanczos; contract_for_left_moving_expansion; svd; growing_right_env ]
              2)
         ++ [program_final].
Proof.
  eexists. split; [vm_compute; reflexivity|].
  repeat split; reflexivity.
Qed.




End Master.

(** ** The MPO generator front-end ([mpogen/mpogen_impl.h]) *)
Module MPOGen.

Section Generator.

(** Template parameter [TenElemType] with its [operator==] and
    [TenElemType(0)]; the tensor type [GQTensorT]. *)
Variable TenElemType : Type.
Variable elem_eqb : TenElemType -> TenElemType -> bool.
Variable elem_zero : TenElemType.
Variable GQTensorT : Type.

(** The members whose classes are declared in headers outside these
    sources ([LabelConvertor], [OpRepr], [FSM]) are taken as given: their
    state types and the methods [AddTerm] and [Gen] call. *)
Variable CoefLabel OpLabel OpRepr : Type.
Variable CoefConvertor OpConvertor FSM MPO : Type.
Variable coef_Convert : TenElemType -> CoefConvertor -> CoefLabel * CoefConvertor.
Variable op_Convert : GQTensorT -> OpConvertor -> OpLabel * OpConvertor.
Variable OpRepr_coef_op : CoefLabel -> OpLabel -> OpRepr.   (* OpRepr(coef_label, op_label) *)
Variable OpRepr_op : OpLabel -> OpRepr.                     (* OpRepr(op_label) *)
Variable fsm_AddPath : Z -> Z -> list OpRepr -> FSM -> FSM.

(** The data members of [MPOGenerator] that [AddTerm] and [Gen] touch. *)
Record MPOGenerator : Type := MkGen {
  N_ : Z;
  id_op_vector_ : list GQTensorT;
  fsm_ : FSM;
  coef_label_convertor_ : CoefConvertor;
  op_label_convertor_ : OpConvertor
}.

(** [Gen()] reads the generator and builds the MPO tensors. *)
Variable Gen_of : MPOGenerator -> MPO.

(** [std::is_sorted]. *)
Fixpoint is_sorted (l : list Z) : bool :=
  match l with
  | a :: (b :: _) as l' => (a <=? b) && is_sorted l'
  | _ => true
  end.

(** [std::find(cbegin, cend, i) - cbegin], when found. *)
Fixpoint find_loc (i : Z) (l : list Z) : option nat :=
  match l with
  | [] => None
  | x :: l' => if x =? i then Some O else option_map S (find_loc i l')
  end.

(** The three [assert]s at the head of [AddTerm].  [back()] of an empty
    vector has no defined value; it fails the check. *)
Definition AddTerm_asserts (g : MPOGenerator) (local_ops : list GQTensorT)
    (local_ops_idxs : list Z) : bool :=
  (length local_ops =? length local_ops_idxs)%nat
  && is_sorted local_ops_idxs
  && match List.last (map Some local_ops_idxs) None with
     | Some back => SizeT.wrap back <? N_ g
     | None => false
     end.

(** One pass of [for (int i = head; i <= tail; ++i)]: the representation
    pushed for site [i], and the operator convertor after it.  [None] when
    an index into [local_ops] or [id_op_vector_] is out of range. *)
Definition site_repr (coef_label : CoefLabel) (g : MPOGenerator)
    (local_ops : list GQTensorT) (local_ops_idxs : list Z)
    (i : Z) (st : OpConvertor * list OpRepr) : option (OpConvertor * list OpRepr) :=
  let '(conv, reprs) := st in
  match find_loc i local_ops_idxs with
  | Some local_op_loc =>                                   (* Nontrivial operator *)
      op ← nth_error local_ops local_op_loc;
      let '(op_label, conv') := op_Convert op conv in
      Some (conv',
            reprs ++ [match local_op_loc with
                      | O => OpRepr_coef_op coef_label op_label
                      | S _ => OpRepr_op op_label
                      end])
  | None =>
      op ← (if i <? 0 then None else nth_error (id_op_vector_ g) (Z.to_nat i));
      let '(op_label, conv') := op_Convert op conv in
      Some (conv', reprs ++ [OpRepr_op op_label])
  end.

(** [MPOGenerator::AddTerm(coef, local_ops, local_ops_idxs)], the most
    generic overload.  [None]: an [assert] fails, or an access is out of
    range. *)
Definition AddTerm (coef : TenElemType) (local_ops : list GQTensorT)
    (local_ops_idxs : list Z) (g : MPOGenerator) : option MPOGenerator :=
  if negb (AddTerm_asserts g local_ops local_ops_idxs) then None
  else if elem_eqb coef elem_zero then Some g       (* If coef is zero, do nothing. *)
  else
    let '(coef_label, cconv) := coef_Convert coef (coef_label_convertor_ g) in
    ntrvl_ops_idxs_head ← head local_ops_idxs;
    ntrvl_ops_idxs_tail ← List.last (map Some local_ops_idxs) None;
    '(oconv, ntrvl_ops_reprs) ←
       SizeT.run_over (site_repr coef_label g local_ops local_ops_idxs)
         (SizeT.upto ntrvl_ops_idxs_head
            (Z.to_nat (ntrvl_ops_idxs_tail - ntrvl_ops_idxs_head + 1)))
         (op_label_convertor_ g, []);
    Some (MkGen (N_ g) (id_op_vector_ g)
            (fsm_AddPath ntrvl_ops_idxs_head ntrvl_ops_idxs_tail ntrvl_ops_reprs (fsm_ g))
            cconv oconv).

(** A term as the caller supplies it, and a sequence of [AddTerm] calls. *)
Definition term : Type := TenElemType * list GQTensorT * list Z.

Fixpoint add_terms (ts : list term) (g : MPOGenerator) : option MPOGenerator :=
  match ts with
  | [] => Some g
  | (coef, local_ops, local_ops_idxs) :: ts' =>
      g' ← AddTerm coef local_ops local_ops_idxs g;
      add_terms ts' g'
  end.

(** [AddTerm] ... [AddTerm]; [Gen()]. *)
Definition Gen_after (ts : list term) (g : MPOGenerator) : option MPO :=
  Gen_of <$> add_terms ts g.

Lemma AddTerm_zero_unchanged coef local_ops local_ops_idxs g g' :
  elem_eqb coef elem_zero = true ->
  AddTerm coef local_ops local_ops_idxs g = Some g' -> g' = g.
Proof.
  intros Hz. unfold AddTerm.
  destruct (AddTerm_asserts g local_ops local_ops_idxs); simpl; [|discriminate].
  rewrite Hz. now intros [= ->].
Qed.

Lemma AddTerm_zero_returns coef local_ops local_ops_idxs g :
  elem_eqb coef elem_zero = true ->
  AddTerm_asserts g local_ops local_ops_idxs = true ->
  AddTerm coef local_ops local_ops_idxs g = Some g.
Proof.
  intros Hz Ha. unfold AddTerm. rewrite Ha. simpl. now rewrite Hz.
Qed.

Lemma add_terms_app ts1 ts2 g :
  add_terms (ts1 ++ ts2) g = add_terms ts1 g ≫= add_terms ts2.
Proof.
  revert g. induction ts1 as [|[[c ops] idxs] ts1 IH]; intros g; [reflexivity|].
  cbn [app add_terms]. destruct (AddTerm c ops idxs g) as [g'|]; [|reflexivity].
  cbn [mbind option_bind]. apply IH.
Qed.

(** C9: [AddTerm] with a zero coefficient returns at once (once its
    asserts have passed) with the generator unchanged: no path is added to
    the finite-state machine and neither label convertor is touched.  In any
    sequence of calls, the generator, and so the MPO of a later [Gen()], is
    the one obtained had the call never been made. *)
Theorem AddTerm_zero_coef_is_noop
    (coef : TenElemType) (local_ops : list GQTensorT) (local_ops_idxs : list Z)
    (g : MPOGenerator) :
  elem_eqb coef elem_zero = true ->
  (forall g', AddTerm coef local_ops local_ops_idxs g = Some g' -> g' = g)
  /\ (AddTerm_asserts g local_ops local_ops_idxs = true ->
      AddTerm coef local_ops local_ops_idxs g = Some g)
  /\ (forall before after g0 gen,
        add_terms (before ++ (coef, local_ops, local_ops_idxs) :: after) g0 = Some gen ->
        add_terms (before ++ after) g0 = Some gen
        /\ Gen_after (before ++ (coef, local_ops, local_ops_idxs) :: after) g0
           = Gen_after (before ++ after) g0).
Proof.
  intros Hz. split; [|split].
  - intros g'. now apply AddTerm_zero_unchanged.
  - now apply AddTerm_zero_returns.
  - intros before after g0 gen Hrun.
    assert (Heq : add_terms (before ++ after) g0 = Some gen).
    { rewrite add_terms_app in Hrun |- *.
      destruct (add_terms before g0) as [g1|]; [|discriminate Hrun].
      cbn [mbind option_bind add_terms] in Hrun |- *.
      destruct (AddTerm coef local_ops local_ops_idxs g1) as [g2|] eqn:E;
        [|discriminate Hrun].
      apply (AddTerm_zero_unchanged _ _ _ _ _ Hz) in E. subst g2.
      exact Hrun. }
    split; [exact Heq|]. unfold Gen_after. now rewrite Hrun, Heq.
Qed.

End Generator.

(** *** A concrete reading of the collaborators

    Enough to run the model: coefficients are doubles, a tensor is named by
    an integer, a label convertor is the list of the objects seen so far
    (the label of an object is its position), the finite-state machine is
    the list of the paths added, and [Gen] hands back what it would read. *)
Fixpoint find_or_append {A : Type} (eqb : A -> A -> bool) (x : A) (seen : list A)
    : nat * list A :=
  match seen with
  | [] => (O, [x])
  | y :: seen' =>
      if eqb y x then (O, seen)
      else let '(n, seen'') := find_or_append eqb x seen' in (S n, y :: seen'')
  end.

Inductive op_repr : Set :=
  | ReprCoefOp (coef_label op_label : nat)
  | ReprOp (op_label : nat).

Definition path : Set := Z * Z * list op_repr.

Definition generator : Type := MPOGenerator Z (list float) (list Z) (list path).

Definition AddPath_list (h t : Z) (reprs : list op_repr) (fsm : list path) : list path :=
  fsm ++ [(h, t, reprs)].

Definition AddTerm_double : float -> list Z -> list Z -> generator -> option generator :=
  AddTerm float PrimFloat.eqb 0%float Z nat nat op_repr (list float) (list Z) (list path)
    (find_or_append PrimFloat.eqb) (find_or_append Z.eqb)
    ReprCoefOp ReprOp AddPath_list.

Definition add_terms_double : list (float * list Z * list Z) -> generator -> option generator :=
  add_terms float PrimFloat.eqb 0%float Z nat nat op_repr (list float) (list Z) (list path)
    (find_or_append PrimFloat.eqb) (find_or_append Z.eqb)
    ReprCoefOp ReprOp AddPath_list.

Definition Gen_after_double : list (float * list Z * list Z) -> generator -> option generator :=
  Gen_after float PrimFloat.eqb 0%float Z nat nat op_repr (list float) (list Z) (list path)
    generator (find_or_append PrimFloat.eqb) (find_or_append Z.eqb)
    ReprCoefOp ReprOp AddPath_list (fun g => g).

Definition fresh_generator (N : Z) : generator :=
  MkGen Z (list float) (list Z) (list path) N
    (SizeT.upto 0 (Z.to_nat N)) [] [1%float] [0].

Example AddTerm_double_hopping :
  AddTerm_double (-1)%float [100; 200] [1; 3] (fresh_generator 4)
  = Some (MkGen Z (list float) (list Z) (list path) 4 [0; 1; 2; 3]
            [(1, 3, [ReprCoefOp 1 1; ReprOp 2; ReprOp 3])]
            [1%float; (-1)%float] [0; 100; 2; 200]).
Proof. vm_compute. reflexivity. Qed.

Lemma AddTerm_zero_coef_is_noop_witness :
  (forall g', AddTerm_double (-0)%float [100; 200] [1; 3] (fresh_generator 4) = Some g'
              -> g' = fresh_generator 4)
  /\ (AddTerm_asserts Z (list float) (list Z) (list path)
        (fresh_generator 4) [100; 200] [1; 3] = true ->
      AddTerm_double (-0)%float [100; 200] [1; 3] (fresh_generator 4)
      = Some (fresh_generator 4))
  /\ (forall before after g0 gen,
        add_terms_double (before ++ ((-0)%float, [100; 200], [1; 3]) :: after) g0
        = Some gen ->
        add_terms_double (before ++ after) g0 = Some gen
        /\ Gen_after_double (before ++ ((-0)%float, [100; 200], [1; 3]) :: after) g0
           = Gen_after_double (before ++ after) g0).
Proof.
  apply (AddTerm_zero_coef_is_noop float PrimFloat.eqb 0%float Z nat nat op_repr
           (list float) (list Z) (list path) generator
           (find_or_append PrimFloat.eqb) (find_or_append Z.eqb)
           ReprCoefOp ReprOp AddPath_list (fun g => g)
           (-0)%float [100; 200] [1; 3] (fresh_generator 4)).
  reflexivity.
Defined.

End MPOGen.

(** ** The fan-in of the subspace expansion
       ([MasterTwoSiteFiniteVMPSRightMovingExpand] and
        [MasterTwoSiteFiniteVMPSLeftMovingExpand]) *)
Module Expand.

(** What a master thread does on the communicator. *)
Inductive message : Set :=
  | MPIRecv (slot source tag : Z)   (* res_list[slot].GetBlkSparDataTen().MPIRecv(world, source, tag) *)
  | Send (dest tag value : Z).      (* world.send(dest, tag, value) *)

(** The state of a thread of the master inside the parallel region: it
    only ever waits in an [MPIRecv], until it has sent the finish signal. *)
Inductive thread_state : Set :=
  | InMPIRecv (slot source tag : Z)   (* blocked in res_list[slot]...MPIRecv(world, source, tag) *)
  | AfterFinish.                      (* past the finish signal *)

(** The parallel region while it runs: the first iteration of the
    [schedule(dynamic)] loop that no thread has taken yet, the state of
    each thread by [omp_get_thread_num()], and what the threads have
    completed so far, each entry with the number of its thread. *)
Record region : Type := MkRegion {
  next_iteration : Z;
  threads : Z -> thread_state;
  completed : list (Z * message)
}.

Definition set_thread (t : Z) (st : thread_state) (ths : Z -> thread_state)
    : Z -> thread_state :=
  fun t' => if decide (t' = t) then st else ths t'.

(** The program order of one thread within what the region completed. *)
Definition log_of (t : Z) (done : list (Z * message)) : list message :=
  flat_map (fun tm : Z * message => if decide (fst tm = t) then [snd tm] else []) done.

Definition thread_log (t : Z) (r : region) : list message := log_of t (completed r).


Lemma upto_app (lo : Z) (n m : nat) :
  SizeT.upto lo n ++ SizeT.upto (lo + Z.of_nat n) m = SizeT.upto lo (n + m).
Proof.
  revert lo. induction n as [|n IH]; intros lo.
  - cbn [SizeT.upto app Nat.add]. f_equal. lia.
  - cbn [SizeT.upto app Nat.add]. f_equal. rewrite <- IH. f_equal. f_equal. lia.
Qed.

Lemma upto_snoc (lo : Z) (n : nat) :
  SizeT.upto lo (S n) = SizeT.upto lo n ++ [lo + Z.of_nat n].
Proof. rewrite <- Nat.add_1_r, <- upto_app. reflexivity. Qed.

Section FanIn.

(** [std::sort]: only what the standard promises is assumed, that the
    result is a rearrangement of the input and that no element is preceded
    by one the comparison puts strictly after it. *)
Variable std_sort : (Z -> Z -> bool) -> list Z -> list Z.
Hypothesis std_sort_perm : forall cmp l, Permutation (std_sort cmp l) l.
Hypothesis std_sort_sorted :
  forall (key : Z -> Z) l,
    StronglySorted (fun a b => key b <= key a)
      (std_sort (fun task1 task2 => key task2 <? key task1) l).

(** [slave_size = world.size() - 1]; the degeneracies
    [split_qnscts[i].GetDegeneracy()] of the sectors of the split index, so
    that [task_size] is their number; and the number of threads of the team
    the OpenMP runtime forms for a [parallel] construct whose
    [num_threads] clause asks for [n].  The clause is a request: the team
    can be smaller, and the code never reads [omp_get_num_threads()]. *)
Variable slave_size : Z.
Variable degeneracies : list Z.
Variable omp_team : Z -> Z.

Definition task_size : Z := Z.of_nat (length degeneracies).

(** [task_difficuty[i]]. *)
Definition task_difficuty (i : Z) : Z := nth (Z.to_nat i) degeneracies 0.

(** [std::iota] from [slave_size], then [std::sort] by decreasing
    difficulty. *)
Definition arraging_tasks : list Z :=
  std_sort (fun task1 task2 => task_difficuty task2 <? task_difficuty task1)
    (SizeT.upto slave_size (Z.to_nat (SizeT.sub task_size slave_size))).

(** The iterations of [for (i = 0; i < task_size - slave_size; i++)] that
    thread [t] runs, in increasing order, when iteration [i] goes to thread
    [owner i]. *)
Definition iterations_of (owner : Z -> Z) (t : Z) : list Z :=
  filter (fun i => owner i = t)
    (SizeT.upto 0 (Z.to_nat (SizeT.sub task_size slave_size))).

(** One pass of the dynamically scheduled loop, by the thread that
    controls [controlling_slave]. *)
Definition dispatch (controlling_slave : Z) (i : Z) : list message :=
  let task := nth (Z.to_nat i) arraging_tasks 0 in
  [ Send controlling_slave (SizeT.mul 2 controlling_slave) task;
    MPIRecv (SizeT.add i slave_size) controlling_slave task ].

(** The parallel region of the branch [slave_size < task_size], for the
    thread [omp_get_thread_num() = t]. *)
Definition thread_few_slaves (owner : Z -> Z) (t : Z) : list message :=
  let controlling_slave := SizeT.add t 1 in
  let task := SizeT.sub controlling_slave 1 in
  [MPIRecv (SizeT.sub controlling_slave 1) controlling_slave task]
  ++ flat_map (dispatch controlling_slave) (iterations_of owner t)
  ++ [Send controlling_slave (SizeT.mul 2 controlling_slave) (SizeT.mul 2 task_size)].

(** The parallel region of the branch [slave_size >= task_size]. *)
Definition thread_many_slaves (t : Z) : list message :=
  let controlling_slave := SizeT.add t 1 in
  let task := SizeT.sub controlling_slave 1 in
  [ MPIRecv task controlling_slave task;
    Send controlling_slave (SizeT.mul 2 controlling_slave) (SizeT.mul 2 task_size) ].

(** The fan-in: what each thread of the team does, thread 0 first, when
    iteration [i] of the loop goes to thread [owner i].  The threads run
    concurrently; each list is the program order of one. *)
Definition fan_in (owner : Z -> Z) : list (list message) :=
  if slave_size <? task_size then
    map (thread_few_slaves owner)
      (SizeT.upto 0 (Z.to_nat (omp_team slave_size)))   (* num_threads(slave_size) *)
  else
    map thread_many_slaves
      (SizeT.upto 0 (Z.to_nat (omp_team task_size))).   (* num_threads(task_size) *)


(** *** The parallel region of the branch [slave_size < task_size] at run time

    Which thread runs which iteration of the [schedule(dynamic)] loop is
    settled while the region runs.  The runtime hands out the iterations
    one at a time, in increasing order, to the thread that asks next, and
    a thread asks when it comes back from the [MPIRecv] of its previous
    task, that is, when its slave has delivered.  The region is therefore
    run over the order in which the results arrive: each arrival lets its
    thread go on to its next [MPIRecv], or to the end of the region. *)

(** Every thread enters the region and waits for the result of the task
    its slave takes on its own. *)
Definition enter_region : region :=
  MkRegion 0
    (fun t =>
       let controlling_slave := SizeT.add t 1 in
       let task := SizeT.sub controlling_slave 1 in
       InMPIRecv (SizeT.sub controlling_slave 1) controlling_slave task)
    [].

(** The result thread [t] waits for arrives.  The thread takes the next
    iteration of the loop, sends its task and waits for the result; when
    no iteration is left it leaves the loop ([nowait]) and sends the
    finish signal.  [None]: there is no such thread in the team, or it is
    not waiting. *)
Definition arrive (t : Z) (r : region) : option region :=
  if decide (0 <= t < omp_team slave_size) then
    match threads r t with
    | InMPIRecv slot source tag =>
        let controlling_slave := SizeT.add t 1 in
        if next_iteration r <? SizeT.sub task_size slave_size then
          let i := next_iteration r in
          let task := nth (Z.to_nat i) arraging_tasks 0 in
          Some (MkRegion (SizeT.add i 1)
                  (set_thread t
                     (InMPIRecv (SizeT.add i slave_size) controlling_slave task)
                     (threads r))
                  (completed r
                   ++ [ (t, MPIRecv slot source tag);
                        (t, Send controlling_slave (SizeT.mul 2 controlling_slave) task) ]))
        else
          Some (MkRegion (next_iteration r)
                  (set_thread t AfterFinish (threads r))
                  (completed r
                   ++ [ (t, MPIRecv slot source tag);
                        (t, Send controlling_slave (SizeT.mul 2 controlling_slave)
                              (SizeT.mul 2 task_size)) ]))
    | AfterFinish => None
    end
  else None.

(** The region over the results as they arrive, each named by the thread
    that waits for it. *)
Fixpoint run_region (arrivals : list Z) (r : region) : option region :=
  match arrivals with
  | [] => Some r
  | t :: arrivals' => r' ← arrive t r; run_region arrivals' r'
  end.


(** The tasks handed out by the loop, each with the slave it was sent to,
    in the order they were sent. *)
Definition handed_out (r : region) : list (Z * Z) :=
  flat_map
    (fun tm : Z * message =>
       match snd tm with
       | Send dest _ value => if value <? task_size then [(dest, value)] else []
       | MPIRecv _ _ _ => []
       end)
    (completed r).

(** The task numbers a thread sends on, the finish signal apart. *)
Definition dispatched (owner : Z -> Z) (t : Z) : list Z :=
  map (fun i => nth (Z.to_nat i) arraging_tasks 0) (iterations_of owner t).

(** The values a thread sends to its slave, in order. *)
Definition sent_values (script : list message) : list Z :=
  flat_map (fun m => match m with Send _ _ v => [v] | MPIRecv _ _ _ => [] end) script.

(** The slave side, [SlaveTwoSiteFiniteVMPSRightMovingExpand] and
    [SlaveTwoSiteFiniteVMPSLeftMovingExpand] (the same control in both). *)
Inductive slave_action : Set :=
  | ContractSector (task : Z)      (* ctrct_executor on sector [task], scale by noise, fuse *)
  | MPISend (tag : Z)              (* bsdt.MPISend(world, kMasterRank, task) *)
  | Recv (tag value : Z).          (* world.recv(kMasterRank, 2*slave_identifier, task) *)

(** [while (task < task_size) {...}], with [inbox] the values the master
    sends to this slave, in order.  [None]: blocked in [recv]. *)
Fixpoint slave_while (slave_identifier : Z) (inbox : list Z) (task : Z)
    : option (list slave_action * list Z) :=
  if task <? task_size then
    match inbox with
    | [] => None
    | v :: inbox' =>
        '(acts, rest) ← slave_while slave_identifier inbox' v;
        Some ([ContractSector task; MPISend task;
               Recv (SizeT.mul 2 slave_identifier) v] ++ acts, rest)
    end
  else Some ([], inbox).

Definition SlaveTwoSiteFiniteVMPSExpand (slave_identifier : Z) (inbox : list Z)
    : option (list slave_action * list Z) :=
  if task_size <? slave_identifier then Some ([], inbox)
  else
    let task := SizeT.sub slave_identifier 1 in
    match inbox with
    | [] => None
    | v :: inbox' =>
        '(acts, rest) ← slave_while slave_identifier inbox' v;
        Some ([ContractSector task; MPISend task;
               Recv (SizeT.mul 2 slave_identifier) v] ++ acts, rest)
    end.


(** *** Facts about the fan-in *)

Lemma upto_NoDup lo n : NoDup (SizeT.upto lo n).
Proof.
  revert lo. induction n as [|n IH]; intros lo; simpl; constructor.
  - rewrite list_elem_of_In, SizeT.upto_In. lia.
  - apply IH.
Qed.





Lemma arraging_tasks_length :
  0 <= slave_size <= task_size -> task_size < SizeT.modulus ->
  length arraging_tasks = Z.to_nat (task_size - slave_size).
Proof.
  intros Hs Ht. unfold arraging_tasks.
  rewrite (Permutation_length (std_sort_perm _ _)).
  rewrite SizeT.sub_small by lia.
  generalize (Z.to_nat (task_size - slave_size)) as n. generalize slave_size as lo.
  intros lo n. revert lo. induction n as [|n IH]; intros lo; simpl; [|rewrite IH];
    reflexivity.
Qed.

Lemma arraging_tasks_range x :
  0 <= slave_size <= task_size -> task_size < SizeT.modulus ->
  In x arraging_tasks -> slave_size <= x < task_size.
Proof.
  intros Hs Ht Hin. unfold arraging_tasks in Hin.
  apply (Permutation_in _ (std_sort_perm _ _)) in Hin.
  rewrite SizeT.sub_small in Hin by lia.
  apply SizeT.upto_In in Hin. lia.
Qed.


Lemma dispatched_range owner t :
  0 <= slave_size <= task_size -> task_size < SizeT.modulus ->
  Forall (fun x => x < task_size) (dispatched owner t).
Proof.
  intros Hs Ht. unfold dispatched. apply List.Forall_forall. intros x Hx.
  apply in_map_iff in Hx as (i & <- & Hi). unfold iterations_of in Hi.
  apply list_elem_of_In, list_elem_of_filter in Hi as [_ Hi].
  apply list_elem_of_In, SizeT.upto_In in Hi.
  rewrite SizeT.sub_small in Hi by lia.
  apply (arraging_tasks_range _ Hs Ht). apply nth_In.
  rewrite arraging_tasks_length by assumption. lia.
Qed.

Lemma sent_values_dispatch k its :
  sent_values (flat_map (dispatch k) its)
  = map (fun i => nth (Z.to_nat i) arraging_tasks 0) its.
Proof.
  induction its as [|i its IH]; [reflexivity|].
  cbn [flat_map map]. unfold sent_values in *. rewrite flat_map_app, IH.
  reflexivity.
Qed.

Lemma sent_values_few_slaves owner t :
  sent_values (thread_few_slaves owner t) = dispatched owner t ++ [SizeT.mul 2 task_size].
Proof.
  unfold thread_few_slaves. unfold sent_values at 1.
  rewrite !flat_map_app. fold (sent_values (flat_map (dispatch (SizeT.add t 1))
                                           (iterations_of owner t))).
  rewrite sent_values_dispatch. reflexivity.
Qed.



(** *** The region at run time *)



Section Run.

Hypothesis few : 1 <= slave_size < task_size.
Hypothesis fits : 2 * task_size < SizeT.modulus.
Hypothesis team_formed : omp_team slave_size = slave_size.











End Run.


End FanIn.

(** *** An insertion sort, to run the model *)

Fixpoint insert_by (cmp : Z -> Z -> bool) (x : Z) (l : list Z) : list Z :=
  match l with
  | [] => [x]
  | y :: l' => if cmp x y then x :: l else y :: insert_by cmp x l'
  end.

Definition insertion_sort (cmp : Z -> Z -> bool) (l : list Z) : list Z :=
  fold_right (insert_by cmp) [] l.

Lemma insert_by_perm cmp x l : Permutation (insert_by cmp x l) (x :: l).
Proof.
  induction l as [|y l IH]; simpl; [reflexivity|].
  destruct (cmp x y); [reflexivity|].
  rewrite IH. apply perm_swap.
Qed.

Lemma insertion_sort_perm cmp l : Permutation (insertion_sort cmp l) l.
Proof.
  induction l as [|x l IH]; simpl; [reflexivity|].
  rewrite insert_by_perm. now constructor.
Qed.



(** A runtime that forms the team it is asked for. *)
Definition as_requested (n : Z) : Z := n.

(** Five sectors of degeneracies 3, 1, 4, 1, 5, two slaves, and a run in
    which the results arrive alternately for the two threads. *)
Definition five_sectors : list Z := [3; 1; 4; 1; 5].
Definition alternate (i : Z) : Z := i mod 2.

Example fan_in_two_slaves_five_tasks :
  fan_in insertion_sort 2 five_sectors as_requested alternate
  = [ [MPIRecv 0 1 0; Send 1 2 4; MPIRecv 2 1 4; Send 1 2 3; MPIRecv 4 1 3; Send 1 2 10];
      [MPIRecv 1 2 1; Send 2 4 2; MPIRecv 3 2 2; Send 2 4 10] ].
Proof. vm_compute. reflexivity. Qed.

(** The same two slaves when slave 2 delivers first and is quick: it gets
    the two largest of the remaining sectors, slave 1 the last one. *)
Example region_two_slaves_five_tasks :
  option_map
    (fun r => (thread_log 0 r, thread_log 1 r, handed_out five_sectors r))
    (run_region insertion_sort 2 five_sectors as_requested [1; 1; 0; 1; 0] enter_region)
  = Some ([MPIRecv 0 1 0; Send 1 2 3; MPIRecv 4 1 3; Send 1 2 10],
          [MPIRecv 1 2 1; Send 2 4 4; MPIRecv 2 2 4; Send 2 4 2; MPIRecv 3 2 2;
           Send 2 4 10],
          [(2, 4); (2, 2); (1, 3)]).
Proof. vm_compute. reflexivity. Qed.

(** A thread that has sent the finish signal waits for nothing more. *)
Example nothing_arrives_after_the_finish_signal :
  run_region insertion_sort 2 five_sectors as_requested [1; 1; 0; 1; 1] enter_region
  = None.
Proof. vm_compute. reflexivity. Qed.


Example slave_one_of_two_with_five_tasks :
  SlaveTwoSiteFiniteVMPSExpand five_sectors 1
    (sent_values (thread_few_slaves insertion_sort 2 five_sectors alternate 0))
  = Some ([ ContractSector 0; MPISend 0; Recv 2 4;
            ContractSector 4; MPISend 4; Recv 2 3;
            ContractSector 3; MPISend 3; Recv 2 10 ], []).
Proof. vm_compute. reflexivity. Qed.


End Expand.

(** ** The truncation policy of the distributed SVD *)
Module TruncSVD.

Local Open Scope Q_scope.

Definition sq (s : Q) : Q := s * s.

Definition total (l : list Q) : Q := fold_right Qplus 0 l.

(** Singular values in increasing order, smallest first. *)
Fixpoint insert_asc (x : Q) (l : list Q) : list Q :=
  match l with
  | [] => [x]
  | y :: l' => if Qle_bool x y then x :: l else y :: insert_asc x l'
  end.

Definition sort_asc (l : list Q) : list Q := fold_right insert_asc [] l.

(** Modelled from the spec: [MPISVDMaster] is called by the bond update but
    defined in the tensor library, outside these sources.  The contract of
    section 4.4 is followed: given the minimum and maximum bond dimension
    and an absolute truncation-error budget, the smallest singular values
    are discarded first; never more are kept than [Dmax]; never fewer than
    [Dmin], whatever the budget; the error reached is reported.  The error
    of a truncation is taken to be the sum of the squares of the discarded
    singular values.

    [discard] walks the singular values from the smallest: [ascending] are
    the ones still kept, [err] the error of those already discarded. *)
Fixpoint discard (Dmin Dmax : nat) (budget : Q) (ascending : list Q) (err : Q)
    : nat * Q :=
  match ascending with
  | [] => (O, err)
  | s :: rest =>
      let D := length ascending in
      if (Dmax <? D)%nat then
        discard Dmin Dmax budget rest (err + sq s)       (* never keep more than Dmax *)
      else if (Dmin <? D)%nat && Qle_bool (err + sq s) budget then
        discard Dmin Dmax budget rest (err + sq s)       (* still within the budget *)
      else (D, err)                                      (* never drop below Dmin *)
  end.

(** Modelled from the spec: the kept dimension [D] and the actual
    truncation error that [MPISVDMaster] reports for a matrix with the
    singular values [svals]. *)
Definition MPISVDMaster_truncation (Dmin Dmax : nat) (trunc_err : Q) (svals : list Q)
    : nat * Q :=
  discard Dmin Dmax trunc_err (sort_asc svals) 0.

(** The error of keeping only the [D] largest of the singular values. *)
Definition error_of_keeping (svals : list Q) (D : nat) : Q :=
  total (map sq (firstn (length svals - D) (sort_asc svals))).

(** *** Facts about the policy *)

Lemma insert_asc_length x l : length (insert_asc x l) = S (length l).
Proof.
  induction l as [|y l IH]; simpl; [reflexivity|].
  destruct (Qle_bool x y); simpl; [reflexivity|now rewrite IH].
Qed.

Lemma sort_asc_length l : length (sort_asc l) = length l.
Proof.
  induction l as [|x l IH]; simpl; [reflexivity|].
  now rewrite insert_asc_length, IH.
Qed.

Lemma insert_asc_perm x l : Permutation (insert_asc x l) (x :: l).
Proof.
  induction l as [|y l IH]; simpl; [reflexivity|].
  destruct (Qle_bool x y); [reflexivity|]. rewrite IH. apply perm_swap.
Qed.

Lemma sort_asc_perm l : Permutation (sort_asc l) l.
Proof.
  induction l as [|x l IH]; simpl; [reflexivity|].
  rewrite insert_asc_perm. now constructor.
Qed.

Lemma sq_nonneg s : 0 <= sq s.
Proof. unfold sq. nra. Qed.

Lemma total_sq_nonneg l : 0 <= total (map sq l).
Proof.
  induction l as [|s l IH]; simpl; [lra|].
  pose proof (sq_nonneg s). lra.
Qed.

Section Policy.

Variable Dmin Dmax : nat.
Variable budget : Q.

Lemma discard_le_Dmax asc err :
  (fst (discard Dmin Dmax budget asc err) <= Dmax)%nat
  /\ (fst (discard Dmin Dmax budget asc err) <= length asc)%nat.
Proof.
  revert err. induction asc as [|s rest IH]; intros err; cbn [discard].
  - simpl. lia.
  - destruct (Nat.ltb_spec Dmax (length (s :: rest))) as [H|H].
    + destruct (IH (err + sq s)). simpl. lia.
    + destruct ((Dmin <? length (s :: rest))%nat && Qle_bool (err + sq s) budget).
      * destruct (IH (err + sq s)). simpl. lia.
      * simpl in *. lia.
Qed.

Lemma discard_ge_Dmin asc err :
  (Dmin <= Dmax)%nat -> (Dmin <= length asc)%nat ->
  (Dmin <= fst (discard Dmin Dmax budget asc err))%nat.
Proof.
  intros Hmm. revert err. induction asc as [|s rest IH]; intros err Hlen; cbn [discard].
  - simpl in *. lia.
  - destruct (Nat.ltb_spec Dmax (length (s :: rest))) as [H|H].
    + apply IH. simpl in H. lia.
    + destruct (Nat.ltb_spec Dmin (length (s :: rest))) as [H'|H']; cbn [andb].
      * destruct (Qle_bool (err + sq s) budget); [|simpl in *; lia].
        apply IH. simpl in H'. lia.
      * simpl in *. lia.
Qed.

Lemma discard_short asc err :
  (Dmin <= Dmax)%nat -> (length asc <= Dmin)%nat ->
  discard Dmin Dmax budget asc err = (length asc, err).
Proof.
  intros Hmm Hlen. destruct asc as [|s rest]; [reflexivity|]. cbn [discard].
  destruct (Nat.ltb_spec Dmax (length (s :: rest))); [lia|].
  destruct (Nat.ltb_spec Dmin (length (s :: rest))); [lia|]. reflexivity.
Qed.

(** The reported error is the error already made plus the squares of the
    values discarded on the way. *)
Lemma discard_reports asc err :
  snd (discard Dmin Dmax budget asc err)
  == err + total (map sq (firstn (length asc - fst (discard Dmin Dmax budget asc err)) asc)).
Proof.
  revert err. induction asc as [|s rest IH]; intros err; cbn [discard].
  - simpl. lra.
  - pose proof (discard_le_Dmax rest (err + sq s)) as [_ Hle].
    assert (Hstep :
      snd (discard Dmin Dmax budget rest (err + sq s))
      == err + total (map sq (firstn
                (length (s :: rest) - fst (discard Dmin Dmax budget rest (err + sq s)))
                (s :: rest)))).
    { rewrite IH.
      replace (length (s :: rest) - fst (discard Dmin Dmax budget rest (err + sq s)))%nat
        with (S (length rest - fst (discard Dmin Dmax budget rest (err + sq s))))
        by (simpl; lia).
      simpl. lra. }
    destruct (Dmax <? length (s :: rest))%nat; [exact Hstep|].
    destruct ((Dmin <? length (s :: rest))%nat && Qle_bool (err + sq s) budget);
      [exact Hstep|].
    cbn [fst snd]. rewrite Nat.sub_diag. simpl. lra.
Qed.

(** If keeping some admissible number of values meets the budget, the
    policy meets it. *)
Lemma discard_meets_budget asc err D' :
  (D' <= Dmax)%nat ->
  err + total (map sq (firstn (length asc - D') asc)) <= budget ->
  snd (discard Dmin Dmax budget asc err) <= budget.
Proof.
  intros HD'. revert err. induction asc as [|s rest IH]; intros err Hb; cbn [discard].
  - simpl in *. lra.
  - assert (Hnn := total_sq_nonneg (firstn (length (s :: rest) - D') (s :: rest))).
    assert (Hrest : (D' < length (s :: rest))%nat ->
                    snd (discard Dmin Dmax budget rest (err + sq s)) <= budget).
    { intros Hlt. apply IH.
      replace (length (s :: rest) - D')%nat with (S (length rest - D')) in Hb
        by (simpl in *; lia).
      simpl in Hb. lra. }
    destruct (Nat.ltb_spec Dmax (length (s :: rest))) as [H|H].
    + apply Hrest. lia.
    + destruct (Dmin <? length (s :: rest))%nat; cbn [andb]; [|cbn [snd]; lra].
      destruct (Qle_bool (err + sq s) budget) eqn:E; [|cbn [snd]; lra].
      destruct (Nat.lt_ge_cases D' (length (s :: rest))) as [Hlt|Hge].
      * now apply Hrest.
      * apply IH. apply Qle_bool_iff in E.
        replace (length rest - D')%nat with O by (simpl in Hge; lia).
        simpl. lra.
Qed.

(** Once the budget is exceeded, only the cap discards any more. *)
Lemma discard_over_budget asc err :
  budget < err ->
  fst (discard Dmin Dmax budget asc err) = Nat.min (length asc) Dmax.
Proof.
  revert err. induction asc as [|s rest IH]; intros err Hb; cbn [discard].
  - reflexivity.
  - pose proof (sq_nonneg s) as Hs.
    destruct (Nat.ltb_spec Dmax (length (s :: rest))) as [H|H].
    + rewrite IH by lra. cbn [length] in *. lia.
    + assert (E : Qle_bool (err + sq s) budget = false).
      { destruct (Qle_bool (err + sq s) budget) eqn:E; [|reflexivity].
        apply Qle_bool_iff in E. lra. }
      rewrite E, andb_false_r. cbn [fst length] in *. lia.
Qed.

(** The reported error exceeds the budget only when the cap forces it. *)
Lemma discard_exceeds_only_by_cap asc err :
  err <= budget ->
  budget < snd (discard Dmin Dmax budget asc err) ->
  fst (discard Dmin Dmax budget asc err) = Dmax /\ (Dmax < length asc)%nat.
Proof.
  revert err. induction asc as [|s rest IH]; intros err Hle Hb; cbn [discard] in *.
  - simpl in Hb. lra.
  - destruct (Nat.ltb_spec Dmax (length (s :: rest))) as [H|H].
    + split; [|exact H].
      destruct (Qlt_le_dec budget (err + sq s)) as [Hover|Hunder].
      * rewrite discard_over_budget by exact Hover. simpl in H. lia.
      * now apply IH.
    + destruct (Dmin <? length (s :: rest))%nat; cbn [andb] in *; [|simpl in Hb; lra].
      destruct (Qle_bool (err + sq s) budget) eqn:E; [|simpl in Hb; lra].
      apply Qle_bool_iff in E. destruct (IH _ E Hb) as [_ Hlt]. simpl in H. lia.
Qed.

End Policy.

(** C5 (as amended): for every configuration with [Dmin <= Dmax] and a
    budget that is not negative, the kept dimension [D] is at most [Dmax];
    it is at least [Dmin] whenever the matrix has at least [Dmin] singular
    values, and otherwise all of them are kept with error 0; the reported
    error is the error of keeping the [D] largest values; it is at most the
    budget whenever keeping some [D' <= Dmax] values (in particular some
    [D'] above [Dmin]) meets the budget; and it exceeds the budget only when
    the cap [Dmax] forces it, with [D = Dmax]. *)
Theorem truncation_within_bounds (Dmin Dmax : nat) (budget : Q) (svals : list Q) :
  (Dmin <= Dmax)%nat -> 0 <= budget ->
  (fst (MPISVDMaster_truncation Dmin Dmax budget svals) <= Dmax)%nat
  /\ ((Dmin <= length svals)%nat ->
      (Dmin <= fst (MPISVDMaster_truncation Dmin Dmax budget svals))%nat)
  /\ ((length svals <= Dmin)%nat ->
      MPISVDMaster_truncation Dmin Dmax budget svals = (length svals, 0))
  /\ snd (MPISVDMaster_truncation Dmin Dmax budget svals)
     == error_of_keeping svals (fst (MPISVDMaster_truncation Dmin Dmax budget svals))
  /\ (forall D', (D' <= Dmax)%nat ->
        error_of_keeping svals D' <= budget ->
        snd (MPISVDMaster_truncation Dmin Dmax budget svals) <= budget)
  /\ (budget < snd (MPISVDMaster_truncation Dmin Dmax budget svals) ->
      fst (MPISVDMaster_truncation Dmin Dmax budget svals) = Dmax
      /\ (Dmax < length svals)%nat).
Proof.
  intros Hmm Hb. unfold MPISVDMaster_truncation, error_of_keeping.
  rewrite <- (sort_asc_length svals).
  split; [|split; [|split; [|split; [|split]]]].
  - apply discard_le_Dmax.
  - now apply discard_ge_Dmin.
  - now apply discard_short.
  - rewrite discard_reports at 1. lra.
  - intros D' HD' Herr. apply (discard_meets_budget Dmin Dmax budget _ 0 D' HD'). lra.
  - now apply discard_exceeds_only_by_cap.
Qed.

Definition five_values : list Q := [3; 1 # 2; 2; 1 # 4; 1].
Definition three_values : list Q := [3; 2; 1].
Definition single_value : list Q := [1].

Lemma truncation_within_bounds_witness :
  (fst (MPISVDMaster_truncation 2 3 (1 # 2) five_values) <= 3)%nat
  /\ ((2 <= length five_values)%nat ->
      (2 <= fst (MPISVDMaster_truncation 2 3 (1 # 2) five_values))%nat)
  /\ ((length five_values <= 2)%nat ->
      MPISVDMaster_truncation 2 3 (1 # 2) five_values
      = (length five_values, 0))
  /\ snd (MPISVDMaster_truncation 2 3 (1 # 2) five_values)
     == error_of_keeping five_values
          (fst (MPISVDMaster_truncation 2 3 (1 # 2) five_values))
  /\ (forall D', (D' <= 3)%nat ->
        error_of_keeping five_values D' <= 1 # 2 ->
        snd (MPISVDMaster_truncation 2 3 (1 # 2) five_values) <= 1 # 2)
  /\ (1 # 2 < snd (MPISVDMaster_truncation 2 3 (1 # 2) five_values) ->
      fst (MPISVDMaster_truncation 2 3 (1 # 2) five_values) = 3%nat
      /\ (3 < length five_values)%nat).
Proof.
  apply (truncation_within_bounds 2 3 (1 # 2) five_values).
  - lia.
  - lra.
Defined.

Example truncation_five_values :
  MPISVDMaster_truncation 2 3 (1 # 2) five_values
  = (3%nat, 0 + sq (1 # 4) + sq (1 # 2))
  /\ MPISVDMaster_truncation 2 3 2 five_values
     = (2%nat, 0 + sq (1 # 4) + sq (1 # 2) + sq 1).
Proof.
  split; vm_compute; reflexivity.
Qed.

(** C5 (as stated) fails twice.  A matrix with a single singular value and
    [Dmin = 2] keeps one value, fewer than [Dmin].  And with the singular
    values 3, 2, 1, [Dmin = 1], [Dmax = 2] and budget 0, keeping three
    values, more than [Dmin], would meet the budget, yet two are kept, more
    than the floor asks for, and the reported error 1 exceeds the budget:
    the cap forces it, not the floor. *)
Lemma truncation_below_Dmin_and_over_budget :
  ((2 <= 3)%nat
   /\ fst (MPISVDMaster_truncation 2 3 0 single_value) = 1%nat
   /\ ~ (2 <= fst (MPISVDMaster_truncation 2 3 0 single_value))%nat)
  /\ ((1 <= 2)%nat
      /\ error_of_keeping three_values 3 <= 0
      /\ (1 < fst (MPISVDMaster_truncation 1 2 0 three_values))%nat
      /\ ~ snd (MPISVDMaster_truncation 1 2 0 three_values) <= 0).
Proof.
  split.
  - split; [lia|]. split; [reflexivity|]. vm_compute. lia.
  - split; [lia|]. split; [vm_compute; discriminate|].
    split; [vm_compute; lia|]. vm_compute. intros H. now apply H.
Qed.

End TruncSVD.

(** ** Where the boundary check puts the boundaries *)
Module Boundary.

Import Init.

Section Where.

Variable N : Z.
Variable Dmax : Z.
Variable lshape rshape : Z -> Z * Z * Z.

(** The tests of the two passes on the shape of the tensor of site [i]:
    [shape[0]*shape[1] > Dmax] and the [else if] on the left,
    [shape[1]*shape[2] > Dmax] and the [else if] on the right. *)
Definition lexceeds (i : Z) : bool :=
  let '(s0, d, _) := lshape i in Dmax <? SizeT.mul s0 d.

Definition lfuses (i : Z) : bool :=
  let '(s0, d, s2) := lshape i in
  negb (Dmax <? SizeT.mul s0 d) && (s2 <? SizeT.mul s0 d).

Definition rexceeds (i : Z) : bool :=
  let '(_, d, s2) := rshape i in Dmax <? SizeT.mul d s2.

Definition rfuses (i : Z) : bool :=
  let '(s0, d, s2) := rshape i in
  negb (Dmax <? SizeT.mul d s2) && (s0 <? SizeT.mul d s2).

Lemma LoadTen_combined i s s' : LoadTen N i s = Some s' -> combined s' = combined s.
Proof. unfold LoadTen. destruct (decide (0 <= i < N)); now intros [= <-]. Qed.

Lemma DumpTen_combined i s s' : DumpTen i s = Some s' -> combined s' = combined s.
Proof. unfold DumpTen. destruct (decide (i ∈ mem s)); now intros [= <-]. Qed.

Lemma for_up_DumpTen_combined fuel :
  forall i hi s s',
    SizeT.for_up fuel i hi DumpTen s = Some s' -> combined s' = combined s.
Proof.
  induction fuel as [|fuel IH]; intros i hi s s'; simpl; [discriminate|].
  destruct (i <=? hi); [|now intros [= <-]].
  destruct (DumpTen i s) as [s1|] eqn:E; [|discriminate].
  intros H. rewrite (IH _ _ _ _ H). now apply DumpTen_combined in E.
Qed.

Lemma for_down_DumpTen_combined fuel :
  forall i lo s s',
    SizeT.for_down fuel i lo DumpTen s = Some s' -> combined s' = combined s.
Proof.
  induction fuel as [|fuel IH]; intros i lo s s'; simpl; [discriminate|].
  destruct (lo <=? i); [|now intros [= <-]].
  destruct (DumpTen i s) as [s1|] eqn:E; [|discriminate].
  intros H. rewrite (IH _ _ _ _ H). now apply DumpTen_combined in E.
Qed.

(** The left pass stops at the first site whose test exceeds [Dmax], or
    runs out at [left_middle_site - 1]; the sites it replaces by a combiner
    are those before, in order, that pass the [else if]. *)
Lemma left_pass_boundary lms :
  1 <= lms < SizeT.modulus ->
  forall (fuel : nat) (i : Z) (s : mps_state) (lb : Z) s' lb',
    0 <= i <= lms ->
    (i = lms -> lb = lms - 1) ->
    left_pass N Dmax lshape fuel i lms s lb = Some (s', lb') ->
    i - 1 <= lb' < lms
    /\ (forall j, i <= j < lb' -> lexceeds j = false)
    /\ (lexceeds lb' = true \/ lb' = lms - 1)
    /\ combined s'
       = combined s ++ List.filter lfuses (SizeT.upto i (Z.to_nat (lb' + 1 - i))).
Proof.
  intros Hlms. induction fuel as [|fuel IH]; intros i s lb s' lb' Hi Hlb; [discriminate|].
  cbn [left_pass]. destruct (Z.ltb_spec i lms) as [Hlt|Hge].
  - assert (Hadd : SizeT.add i 1 = i + 1) by (apply SizeT.add_small; lia).
    rewrite Hadd.
    destruct (LoadTen N (i + 1) s) as [s1|] eqn:E1; [|discriminate].
    cbn [mbind option_bind]. unfold LeftCanonicalizeTen.
    destruct (decide (i ∈ mem s1 /\ SizeT.add i 1 ∈ mem s1)); [|discriminate].
    cbn [mbind option_bind].
    apply LoadTen_combined in E1.
    assert (Hex : lexceeds i = (let '(s0, d, _) := lshape i in Dmax <? SizeT.mul s0 d))
      by reflexivity.
    assert (Hfu : lfuses i = (let '(s0, d, s2) := lshape i in
                              negb (Dmax <? SizeT.mul s0 d) && (s2 <? SizeT.mul s0 d)))
      by reflexivity.
    destruct (lshape i) as [[s0 d] s2'].
    destruct (Dmax <? SizeT.mul s0 d) eqn:Ex.
    + intros [= <- <-]. split; [lia|]. split; [intros j Hj; lia|].
      split; [now left|].
      replace (Z.to_nat (i + 1 - i)) with 1%nat by lia.
      cbn [SizeT.upto List.filter]. rewrite Hfu. cbn [negb andb].
      now rewrite app_nil_r.
    + rewrite SizeT.sub_small by lia. intros Hrun.
      apply IH in Hrun as (Hb & Hall & Hlast & Hcomb).
      * split; [lia|]. split.
        -- intros j Hj. destruct (Z.eq_dec j i) as [->|Hne]; [exact Hex|].
           apply Hall. lia.
        -- split; [exact Hlast|].
           rewrite Hcomb.
           replace (Z.to_nat (lb' + 1 - i)) with (S (Z.to_nat (lb' + 1 - (i + 1)))) by lia.
           cbn [SizeT.upto List.filter]. rewrite Hfu. cbn [negb andb].
           destruct (s2' <? SizeT.mul s0 d); cbn [combine combined].
           ++ now rewrite E1, <- app_assoc.
           ++ now rewrite E1.
      * lia.
      * intros Heq. destruct (Z.eqb_spec i (lms - 1)); lia.
  - intros [= <- <-]. assert (i = lms) by lia. subst i.
    rewrite (Hlb eq_refl). split; [lia|]. split; [intros j Hj; lia|].
    split; [now right|].
    replace (Z.to_nat (lms - 1 + 1 - lms)) with O by lia.
    cbn [SizeT.upto List.filter]. now rewrite app_nil_r.
Qed.

Lemma right_pass_boundary rms :
  0 <= rms -> rms + 1 < SizeT.modulus ->
  forall (fuel : nat) (i : Z) (s : mps_state) (rb : Z) s' rb',
    rms <= i < SizeT.modulus ->
    (i = rms -> rb = rms + 1) ->
    right_pass N Dmax rshape fuel i rms s rb = Some (s', rb') ->
    rms < rb' <= i + 1
    /\ (forall j, rb' < j <= i -> rexceeds j = false)
    /\ (rexceeds rb' = true \/ rb' = rms + 1)
    /\ combined s'
       = combined s ++ List.filter rfuses (SizeT.downto i (Z.to_nat (i + 1 - rb'))).
Proof.
  intros Hrms Hmod. induction fuel as [|fuel IH]; intros i s rb s' rb' Hi Hrb;
    [discriminate|].
  cbn [right_pass]. destruct (Z.ltb_spec rms i) as [Hlt|Hge].
  - assert (Hsub : SizeT.sub i 1 = i - 1) by (apply SizeT.sub_small; lia).
    rewrite Hsub.
    destruct (LoadTen N (i - 1) s) as [s1|] eqn:E1; [|discriminate].
    cbn [mbind option_bind]. unfold RightCanonicalizeTen.
    destruct (decide (i ∈ mem s1 /\ SizeT.sub i 1 ∈ mem s1)); [|discriminate].
    cbn [mbind option_bind].
    apply LoadTen_combined in E1.
    assert (Hex : rexceeds i = (let '(_, d, s2) := rshape i in Dmax <? SizeT.mul d s2))
      by reflexivity.
    assert (Hfu : rfuses i = (let '(s0, d, s2) := rshape i in
                              negb (Dmax <? SizeT.mul d s2) && (s0 <? SizeT.mul d s2)))
      by reflexivity.
    destruct (rshape i) as [[s0 d] s2'].
    destruct (Dmax <? SizeT.mul d s2') eqn:Ex.
    + intros [= <- <-]. split; [lia|]. split; [intros j Hj; lia|].
      split; [now left|].
      replace (Z.to_nat (i + 1 - i)) with 1%nat by lia.
      cbn [SizeT.downto List.filter]. rewrite Hfu. cbn [negb andb].
      now rewrite app_nil_r.
    + rewrite SizeT.add_small by lia. intros Hrun.
      apply IH in Hrun as (Hb & Hall & Hlast & Hcomb).
      * split; [lia|]. split.
        -- intros j Hj. destruct (Z.eq_dec j i) as [->|Hne]; [exact Hex|].
           apply Hall. lia.
        -- split; [exact Hlast|].
           rewrite Hcomb.
           replace (Z.to_nat (i + 1 - rb')) with (S (Z.to_nat (i - 1 + 1 - rb'))) by lia.
           cbn [SizeT.downto List.filter]. rewrite Hfu. cbn [negb andb].
           destruct (s0 <? SizeT.mul d s2'); cbn [combine combined].
           ++ now rewrite E1, <- app_assoc.
           ++ now rewrite E1.
      * lia.
      * intros Heq. destruct (Z.eqb_spec i (rms + 1)); lia.
  - intros [= <- <-]. assert (i = rms) by lia. subst i.
    rewrite (Hrb eq_refl). split; [lia|]. split; [intros j Hj; lia|].
    split; [now right|].
    replace (Z.to_nat (rms + 1 - (rms + 1))) with O by lia.
    cbn [SizeT.downto List.filter]. now rewrite app_nil_r.
Qed.

(** The steps of a run of the boundary check that returns. *)
Lemma CheckAndUpdate_steps fuel s lb rb s' :
  CheckAndUpdateBoundaryMPSTensors N Dmax lshape rshape fuel s = Some (lb, rb, s') ->
  exists s1 s2 s3 s4 s5,
    LoadTen N 0 s = Some s1
    /\ left_pass N Dmax lshape fuel 0 (left_middle_site N) s1 0 = Some (s2, lb)
    /\ SizeT.for_up fuel 0 (SizeT.add lb 1) DumpTen s2 = Some s3
    /\ LoadTen N (SizeT.sub N 1) s3 = Some s4
    /\ right_pass N Dmax rshape fuel (SizeT.sub N 1) (right_middle_site N) s4 0
       = Some (s5, rb)
    /\ SizeT.for_down fuel (SizeT.sub N 1) (SizeT.sub rb 1) DumpTen s5 = Some s'.
Proof.
  unfold CheckAndUpdateBoundaryMPSTensors. intros H.
  destruct (LoadTen N 0 s) as [s1|] eqn:E1; [|discriminate].
  cbn [mbind option_bind] in H.
  destruct (left_pass N Dmax lshape fuel 0 (left_middle_site N) s1 0) as [[s2 lb0]|]
    eqn:E2; [|discriminate]. cbn [mbind option_bind] in H.
  destruct (SizeT.for_up fuel 0 (SizeT.add lb0 1) DumpTen s2) as [s3|] eqn:E3;
    [|discriminate]. cbn [mbind option_bind] in H.
  destruct (LoadTen N (SizeT.sub N 1) s3) as [s4|] eqn:E4; [|discriminate].
  cbn [mbind option_bind] in H.
  destruct (right_pass N Dmax rshape fuel (SizeT.sub N 1) (right_middle_site N) s4 0)
    as [[s5 rb0]|] eqn:E5; [|discriminate]. cbn [mbind option_bind] in H.
  destruct (SizeT.for_down fuel (SizeT.sub N 1) (SizeT.sub rb0 1) DumpTen s5)
    as [s6|] eqn:E6; [|discriminate]. cbn [mbind option_bind] in H.
  injection H as <- <- <-.
  exists s1, s2, s3, s4, s5. repeat split; try reflexivity; assumption.
Qed.

(** X1: on an MPS of at least three sites the boundary check returns, and
    its boundaries are where the tests say: [left_boundary] is the first
    site from the left whose fused dimension [shape[0]*shape[1]] exceeds
    [Dmax], or [left_middle_site - 1] when there is none before it;
    [right_boundary] is the first site from the right whose
    [shape[1]*shape[2]] exceeds [Dmax], or [right_middle_site + 1]; and the
    tensors replaced by an index combiner are exactly the sites outside the
    boundaries (and the default boundary itself) that pass the [else if]
    test, first the left ones in ascending and then the right ones in
    descending order. *)
Theorem boundaries_where_tests_exceed (fuel : nat) :
  3 <= N < SizeT.modulus ->
  (Z.to_nat N < fuel)%nat ->
  exists lb rb s',
    CheckAndUpdateBoundaryMPSTensors N Dmax lshape rshape fuel empty_mps
    = Some (lb, rb, s')
    /\ (forall j, 0 <= j < lb -> lexceeds j = false)
    /\ (lexceeds lb = true \/ lb = left_middle_site N - 1)
    /\ (forall j, rb < j <= N - 1 -> rexceeds j = false)
    /\ (rexceeds rb = true \/ rb = right_middle_site N + 1)
    /\ combined s'
       = List.filter lfuses (SizeT.upto 0 (Z.to_nat (lb + 1)))
         ++ List.filter rfuses (SizeT.downto (N - 1) (Z.to_nat (N - rb))).
Proof.
  intros HN Hfuel.
  destruct (CheckAndUpdate_returns_empty N Dmax lshape rshape HN fuel empty_mps
              eq_refl Hfuel) as (lb & rb & s' & Hrun & _ & Hlb & Hrb).
  destruct (middle_sites N HN) as (Hl & Hr & Hlr).
  exists lb, rb, s'. split; [exact Hrun|].
  apply CheckAndUpdate_steps in Hrun
    as (s1 & s2 & s3 & s4 & s5 & E1 & E2 & E3 & E4 & E5 & E6).
  apply (left_pass_boundary (left_middle_site N)) in E2
    as (_ & Hall & Hlast & Hcomb); [|lia|lia|lia].
  rewrite (SizeT.sub_small N 1) in E4, E5, E6 by lia.
  apply (right_pass_boundary (right_middle_site N)) in E5
    as (_ & Hrall & Hrlast & Hrcomb); [|lia|lia|lia|lia].
  split; [exact Hall|]. split; [exact Hlast|]. split; [exact Hrall|].
  split; [exact Hrlast|].
  apply for_down_DumpTen_combined in E6. rewrite E6, Hrcomb.
  apply LoadTen_combined in E4. rewrite E4.
  apply for_up_DumpTen_combined in E3. rewrite E3, Hcomb.
  apply LoadTen_combined in E1. rewrite E1. cbn [combined empty_mps app].
  f_equal; f_equal; f_equal; lia.
Qed.

(** X2: the window the sweeps work on never degenerates: it contains the
    middle sites strictly inside, so it has at least four sites when [N] is
    even and at least three when [N] is odd (as the comments in the source
    say), and it lies within the chain. *)
Theorem sweep_window_size (fuel : nat) :
  3 <= N < SizeT.modulus ->
  (Z.to_nat N < fuel)%nat ->
  exists lb rb s',
    CheckAndUpdateBoundaryMPSTensors N Dmax lshape rshape fuel empty_mps
    = Some (lb, rb, s')
    /\ 0 <= lb /\ rb <= N - 1
    /\ lb < left_middle_site N /\ left_middle_site N <= right_middle_site N
    /\ right_middle_site N < rb
    /\ (if N mod 2 =? 0 then 4 else 3) <= rb - lb + 1.
Proof.
  intros HN Hfuel.
  destruct (CheckAndUpdate_returns_empty N Dmax lshape rshape HN fuel empty_mps
              eq_refl Hfuel) as (lb & rb & s' & Hrun & _ & Hlb & Hrb).
  destruct (middle_sites N HN) as (Hl & Hr & Hlr).
  exists lb, rb, s'. split; [exact Hrun|].
  split; [lia|]. split; [lia|]. split; [lia|]. split; [lia|]. split; [lia|].
  unfold left_middle_site, right_middle_site in *.
  assert (H2 := Z.div_mod N 2 ltac:(lia)).
  destruct (Z.eqb_spec (N mod 2) 0) as [E|E].
  - rewrite SizeT.sub_small in Hlb by lia. lia.
  - lia.
Qed.

End Where.

Lemma boundaries_where_tests_exceed_witness :
  exists lb rb s',
    CheckAndUpdateBoundaryMPSTensors 8 16 (fun i => (i + 1, 4, 2)) (fun i => (4, 3, 8 - i))
      9 empty_mps = Some (lb, rb, s')
    /\ (forall j, 0 <= j < lb ->
          lexceeds 16 (fun i => (i + 1, 4, 2)) j = false)
    /\ (lexceeds 16 (fun i => (i + 1, 4, 2)) lb = true \/ lb = left_middle_site 8 - 1)
    /\ (forall j, rb < j <= 8 - 1 ->
          rexceeds 16 (fun i => (4, 3, 8 - i)) j = false)
    /\ (rexceeds 16 (fun i => (4, 3, 8 - i)) rb = true \/ rb = right_middle_site 8 + 1)
    /\ combined s'
       = List.filter (lfuses 16 (fun i => (i + 1, 4, 2)))
           (SizeT.upto 0 (Z.to_nat (lb + 1)))
         ++ List.filter (rfuses 16 (fun i => (4, 3, 8 - i)))
              (SizeT.downto (8 - 1) (Z.to_nat (8 - rb))).
Proof.
  apply (boundaries_where_tests_exceed 8 16 (fun i => (i + 1, 4, 2))
           (fun i => (4, 3, 8 - i)) 9).
  - rewrite SizeT.modulus_val. lia.
  - simpl. lia.
Defined.

Example boundaries_of_eight_sites :
  (fun r => match r with
            | Some (lb, rb, s') => Some (lb, rb, combined s')
            | None => None
            end)
    (CheckAndUpdateBoundaryMPSTensors 8 16 (fun i => (i + 1, 4, 2))
       (fun i => (4, 3, 8 - i)) 9 empty_mps)
  = Some (2, 5, [0; 1; 2; 6; 5]).
Proof. vm_compute. reflexivity. Qed.

Lemma sweep_window_size_witness :
  exists lb rb s',
    CheckAndUpdateBoundaryMPSTensors 7 16 (fun i => (i + 1, 4, 2)) (fun i => (4, 3, 8 - i))
      8 empty_mps = Some (lb, rb, s')
    /\ 0 <= lb /\ rb <= 7 - 1
    /\ lb < left_middle_site 7 /\ left_middle_site 7 <= right_middle_site 7
    /\ right_middle_site 7 < rb
    /\ (if 7 mod 2 =? 0 then 4 else 3) <= rb - lb + 1.
Proof.
  apply (sweep_window_size 7 16 (fun i => (i + 1, 4, 2)) (fun i => (4, 3, 8 - i)) 8).
  - rewrite SizeT.modulus_val. lia.
  - simpl. lia.
Defined.

(** X3: three sites are needed.  On an MPS of fewer than three sites the
    boundary check does not complete, whatever [Dmax] and the tensor
    shapes: it loads or dumps a tensor that does not exist, or dumps one
    it never loaded. *)
Theorem boundary_check_needs_three_sites
    (N Dmax : Z) (lshape rshape : Z -> Z * Z * Z) (fuel : nat) :
  0 <= N < 3 ->
  CheckAndUpdateBoundaryMPSTensors N Dmax lshape rshape fuel empty_mps = None.
Proof.
  intros HN.
  assert (Hcases : N = 0 \/ N = 1 \/ N = 2) by lia.
  destruct Hcases as [-> | [-> | ->]].
  - reflexivity.
  - destruct fuel as [|[|fuel]]; vm_compute; reflexivity.
  - destruct fuel as [|[|fuel]]; vm_compute; reflexivity.
Qed.

Lemma boundary_check_needs_three_sites_witness :
  CheckAndUpdateBoundaryMPSTensors 2 16 (fun _ => (1, 2, 2)) (fun _ => (2, 2, 1)) 10
    empty_mps = None.
Proof.
  apply (boundary_check_needs_three_sites 2 16 (fun _ => (1, 2, 2)) (fun _ => (2, 2, 1)) 10).
  lia.
Defined.

End Boundary.

(** ** Environment files before the first sweep
       ([NeedGenerateRightEnvs] and [UpdateBoundaryEnvs] of
        [two_site_update_finite_vmps_init.h]) *)
Module BoundaryEnvs.

Import Master.

(** What these functions see of the file system: whether [temp_path]
    exists, and which environment files [access(file, 4)] finds. *)
Record filesystem : Type := MkFs {
  temp_path_exists : bool;
  env_file_on_disk : env_file -> bool
}.

(** [for(size_t env_num = lo; env_num <= hi; env_num++)] with the early
    [return true] on the first lost file; [Some false] when the loop runs
    out. *)
Fixpoint lost_file (fuel : nat) (env_num hi : Z) (disk : env_file -> bool)
    : option bool :=
  match fuel with
  | O => None
  | S fuel' =>
      if env_num <=? hi then
        if disk (REnv, env_num) then lost_file fuel' (SizeT.add env_num 1) hi disk
        else Some true
      else Some false
  end.

(** [NeedGenerateRightEnvs(N, left_boundary, right_boundary, temp_path)]:
    the result and the file system afterwards ([CreatPath] in the [else]
    branch). *)
Definition NeedGenerateRightEnvs (fuel : nat) (N left_boundary right_boundary : Z)
    (fs : filesystem) : option (bool * filesystem) :=
  if temp_path_exists fs then
    b ← lost_file fuel (SizeT.sub (SizeT.sub N 1) right_boundary)
          (SizeT.sub (SizeT.sub N 1) (SizeT.add left_boundary 1))
          (env_file_on_disk fs);
    Some (b, fs)
  else Some (true, MkFs true (env_file_on_disk fs)).

(** The MPS as [UpdateBoundaryEnvs] uses it: the tensors resident, the
    largest number ever resident at once, and the environment files
    written, each with the sites contracted into the tensor it holds. *)
Record io_state : Type := MkIo {
  mps : Init.mps_state;
  peak : nat;
  written : list (env_file * list Z)
}.

Section Update.

Variable N : Z.

(** [mps.LoadTen(i, GenMPSTenName(mps_path, i))]. *)
Definition load (i : Z) (st : io_state) : option io_state :=
  s' ← Init.LoadTen N i (mps st);
  Some (MkIo s' (Nat.max (peak st) (size (Init.mem s'))) (written st)).

(** [mps.dealloc(i)]. *)
Definition dealloc (i : Z) (st : io_state) : io_state :=
  MkIo (Init.MkMps (Init.mem (mps st) ∖ {[ i ]}) (Init.combined (mps st)))
    (peak st) (written st).

(** [WriteGQTensorTOFile(env, GenEnvTenName(side, len, temp_path))]. *)
Definition write (f : env_file) (env : list Z) (st : io_state) : io_state :=
  MkIo (mps st) (peak st) (written st ++ [(f, env)]).

(** Load the tensor of [site], contract it (with its MPO tensor and its
    conjugate) into the environment, release it.  The right environment
    grows to the left, the left one to the right.  [None]: the tensor is
    not there. *)
Definition absorb_right (site : Z) (st : io_state * list Z) : option (io_state * list Z) :=
  st1 ← load site (fst st);
  if decide (site ∈ Init.mem (mps st1)) then Some (dealloc site st1, site :: snd st)
  else None.

Definition absorb_left (site : Z) (st : io_state * list Z) : option (io_state * list Z) :=
  st1 ← load site (fst st);
  if decide (site ∈ Init.mem (mps st1)) then Some (dealloc site st1, snd st ++ [site])
  else None.

(** [for (size_t i = lo; i < hi; ++i) body(i)]. *)
Fixpoint for_below {S : Type} (fuel : nat) (i hi : Z) (body : Z -> S -> option S)
    (s : S) : option S :=
  match fuel with
  | O => None
  | Datatypes.S fuel' =>
      if i <? hi then
        match body i s with
        | Some s' => for_below fuel' (SizeT.add i 1) hi body s'
        | None => None
        end
      else Some s
  end.

(** [UpdateBoundaryEnvs(mps, mpo, mps_path, temp_path, left_boundary,
    right_boundary, update_site_num)].  The trivial environments hold no
    site; loading the last (first) tensor only reads its outer index. *)
Definition UpdateBoundaryEnvs (fuel : nat) (left_boundary right_boundary : Z)
    (st : io_state) : option io_state :=
  (* Write a trivial right environment tensor to disk *)
  st1 ← load (SizeT.sub N 1) st;
  let st2 := dealloc (SizeT.sub N 1) st1 in
  (* bulk right environment tensors *)
  '(st3, renv) ←
     SizeT.for_up fuel 1 (SizeT.sub (SizeT.sub N right_boundary) 1)
       (fun i => absorb_right (SizeT.sub N i)) (st2, []);
  let st4 := write (REnv, SizeT.sub (SizeT.sub N right_boundary) 1) renv st3 in
  (* right env of site right_boundary-1 *)
  '(st5, renv') ← absorb_right right_boundary (st4, renv);
  let st6 := write (REnv, SizeT.sub N right_boundary) renv' st5 in
  (* Write a trivial left environment tensor to disk *)
  st7 ← load 0 st6;
  let st8 := dealloc 0 st7 in
  '(st9, lenv) ← for_below fuel 0 left_boundary absorb_left (st8, []);
  Some (write (LEnv, left_boundary) lenv st9).

(** *** Facts *)

Lemma for_below_run {S : Type} (body : Z -> S -> option S) :
  forall (n : nat) (lo hi : Z) (fuel : nat) (s : S),
    0 <= lo -> hi < SizeT.modulus -> lo + Z.of_nat n = hi ->
    (n < fuel)%nat ->
    for_below fuel lo hi body s = SizeT.run_over body (SizeT.upto lo n) s.
Proof.
  induction n as [|n IH]; intros lo hi fuel s Hlo Hhi Hn Hfuel.
  - destruct fuel as [|fuel]; [lia|]. simpl.
    destruct (Z.ltb_spec lo hi); [lia|]. reflexivity.
  - destruct fuel as [|fuel]; [lia|]. simpl.
    destruct (Z.ltb_spec lo hi); [|lia].
    destruct (body lo s) as [s'|]; [|reflexivity].
    rewrite SizeT.add_small by lia. apply IH; lia.
Qed.

Lemma load_on_empty i st :
  0 <= i < N -> Init.mem (mps st) = ∅ ->
  exists st1,
    load i st = Some st1
    /\ Init.mem (mps st1) = {[ i ]}
    /\ peak st1 = Nat.max (peak st) 1
    /\ written st1 = written st.
Proof.
  intros Hi Hm. unfold load, Init.LoadTen.
  destruct (decide (0 <= i < N)); [|lia]. cbn [mbind option_bind].
  eexists. split; [reflexivity|]. cbn [mps peak written Init.mem].
  rewrite Hm, (right_id_L ∅ (∪)). split; [reflexivity|].
  split; [|reflexivity]. now rewrite size_singleton.
Qed.

Lemma dealloc_singleton i st :
  Init.mem (mps st) = {[ i ]} -> Init.mem (mps (dealloc i st)) = ∅.
Proof. intros Hm. unfold dealloc. cbn [mps Init.mem]. rewrite Hm. apply difference_diag_L. Qed.

Lemma absorb_right_on_empty site st env :
  0 <= site < N -> Init.mem (mps st) = ∅ ->
  exists st',
    absorb_right site (st, env) = Some (st', site :: env)
    /\ Init.mem (mps st') = ∅
    /\ peak st' = Nat.max (peak st) 1
    /\ written st' = written st.
Proof.
  intros Hs Hm. unfold absorb_right. cbn [fst snd].
  destruct (load_on_empty site st Hs Hm) as (st1 & -> & Hm1 & Hp & Hw).
  cbn [mbind option_bind].
  destruct (decide (site ∈ Init.mem (mps st1))) as [_|Hno];
    [|exfalso; apply Hno; rewrite Hm1; set_solver].
  eexists. split; [reflexivity|]. split; [now apply dealloc_singleton|].
  split; assumption.
Qed.

Lemma absorb_left_on_empty site st env :
  0 <= site < N -> Init.mem (mps st) = ∅ ->
  exists st',
    absorb_left site (st, env) = Some (st', env ++ [site])
    /\ Init.mem (mps st') = ∅
    /\ peak st' = Nat.max (peak st) 1
    /\ written st' = written st.
Proof.
  intros Hs Hm. unfold absorb_left. cbn [fst snd].
  destruct (load_on_empty site st Hs Hm) as (st1 & -> & Hm1 & Hp & Hw).
  cbn [mbind option_bind].
  destruct (decide (site ∈ Init.mem (mps st1))) as [_|Hno];
    [|exfalso; apply Hno; rewrite Hm1; set_solver].
  eexists. split; [reflexivity|]. split; [now apply dealloc_singleton|].
  split; assumption.
Qed.

(** The bulk loop on the right: [n] passes from [i = k] absorb the sites
    [N-k], [N-k-1], ..., one at a time. *)
Lemma bulk_right (n : nat) :
  forall (k : Z) (st : io_state) (env : list Z),
    1 <= k -> k + Z.of_nat n <= N + 1 -> N < SizeT.modulus ->
    Init.mem (mps st) = ∅ ->
    exists st',
      SizeT.run_over (fun i => absorb_right (SizeT.sub N i)) (SizeT.upto k n) (st, env)
      = Some (st', SizeT.upto (N - k - Z.of_nat n + 1) n ++ env)
      /\ Init.mem (mps st') = ∅
      /\ (peak st <= peak st' <= Nat.max (peak st) 1)%nat
      /\ written st' = written st.
Proof.
  induction n as [|n IH]; intros k st env Hk Hkn Hmod Hm.
  - exists st. cbn. repeat split; try assumption; lia.
  - cbn [SizeT.upto SizeT.run_over].
    rewrite SizeT.sub_small by lia.
    destruct (absorb_right_on_empty (N - k) st env) as (st1 & -> & Hm1 & Hp1 & Hw1);
      [lia|exact Hm|].
    destruct (IH (k + 1) st1 ((N - k) :: env)) as (st' & Hrun & Hm' & Hp' & Hw');
      [lia|lia|exact Hmod|exact Hm1|].
    exists st'. split.
    + rewrite Hrun.
      assert (Hl : SizeT.upto (N - (k + 1) - Z.of_nat n + 1) n ++ (N - k) :: env
                   = SizeT.upto (N - k - Z.of_nat (S n) + 1) (S n) ++ env).
      { rewrite Expand.upto_snoc, <- app_assoc.
        replace (N - (k + 1) - Z.of_nat n + 1) with (N - k - Z.of_nat (S n) + 1) by lia.
        cbn [app]. do 2 f_equal. lia. }
      now rewrite Hl.
    + split; [exact Hm'|]. split; [lia|congruence].
Qed.

Lemma bulk_left (n : nat) :
  forall (k : Z) (st : io_state) (env : list Z),
    0 <= k -> k + Z.of_nat n <= N ->
    Init.mem (mps st) = ∅ ->
    exists st',
      SizeT.run_over absorb_left (SizeT.upto k n) (st, env)
      = Some (st', env ++ SizeT.upto k n)
      /\ Init.mem (mps st') = ∅
      /\ (peak st <= peak st' <= Nat.max (peak st) 1)%nat
      /\ written st' = written st.
Proof.
  induction n as [|n IH]; intros k st env Hk Hkn Hm.
  - exists st. cbn. rewrite app_nil_r. repeat split; try assumption; lia.
  - cbn [SizeT.upto SizeT.run_over].
    destruct (absorb_left_on_empty k st env) as (st1 & -> & Hm1 & Hp1 & Hw1);
      [lia|exact Hm|].
    destruct (IH (k + 1) st1 (env ++ [k])) as (st' & Hrun & Hm' & Hp' & Hw');
      [lia|lia|exact Hm1|].
    exists st'. split.
    + rewrite Hrun. now rewrite <- app_assoc.
    + split; [exact Hm'|]. split; [lia|congruence].
Qed.

(** What [UpdateBoundaryEnvs] does, step by step: the files as the loops
    assemble them, the sites in the order they are absorbed. *)
Lemma UpdateBoundaryEnvs_run (fuel : nat) (left_boundary right_boundary : Z)
    (st : io_state) :
  0 <= left_boundary <= N -> 0 <= right_boundary <= N - 1 -> N < SizeT.modulus ->
  Init.mem (mps st) = ∅ ->
  (Z.to_nat N < fuel)%nat ->
  exists st',
    UpdateBoundaryEnvs fuel left_boundary right_boundary st = Some st'
    /\ Init.mem (mps st') = ∅
    /\ (peak st' <= Nat.max (peak st) 1)%nat
    /\ written st'
       = written st
         ++ [ ((REnv, N - right_boundary - 1),
               SizeT.upto (right_boundary + 1) (Z.to_nat (N - right_boundary - 1)));
              ((REnv, N - right_boundary),
               right_boundary
               :: SizeT.upto (right_boundary + 1) (Z.to_nat (N - right_boundary - 1)));
              ((LEnv, left_boundary), SizeT.upto 0 (Z.to_nat left_boundary)) ].
Proof.
  intros Hlb Hrb Hmod Hm Hfuel. unfold UpdateBoundaryEnvs.
  rewrite (SizeT.sub_small N 1) by lia.
  rewrite (SizeT.sub_small N right_boundary) by lia.
  rewrite (SizeT.sub_small (N - right_boundary) 1) by lia.
  destruct (load_on_empty (N - 1) st ltac:(lia) Hm) as (st1 & -> & Hm1 & Hp1 & Hw1).
  cbn [mbind option_bind].
  pose proof (dealloc_singleton _ _ Hm1) as Hm2.
  rewrite (SizeT.for_up_run _ (Z.to_nat (N - right_boundary - 1)) 1
             (N - right_boundary - 1) fuel) by (unfold SizeT.max; lia).
  destruct (bulk_right (Z.to_nat (N - right_boundary - 1)) 1 (dealloc (N - 1) st1) [])
    as (st3 & -> & Hm3 & Hp3 & Hw3); [lia|lia|exact Hmod|exact Hm2|].
  cbn [mbind option_bind].
  destruct (absorb_right_on_empty right_boundary
              (write (REnv, N - right_boundary - 1)
                 (SizeT.upto (N - 1 - Z.of_nat (Z.to_nat (N - right_boundary - 1)) + 1)
                    (Z.to_nat (N - right_boundary - 1)) ++ []) st3)
              (SizeT.upto (N - 1 - Z.of_nat (Z.to_nat (N - right_boundary - 1)) + 1)
                 (Z.to_nat (N - right_boundary - 1)) ++ []))
    as (st5 & -> & Hm5 & Hp5 & Hw5); [lia|exact Hm3|].
  cbn [mbind option_bind].
  destruct (load_on_empty 0
              (write (REnv, N - right_boundary)
                 (right_boundary
                  :: SizeT.upto (N - 1 - Z.of_nat (Z.to_nat (N - right_boundary - 1)) + 1)
                       (Z.to_nat (N - right_boundary - 1)) ++ []) st5))
    as (st7 & -> & Hm7 & Hp7 & Hw7); [lia|exact Hm5|].
  cbn [mbind option_bind].
  pose proof (dealloc_singleton _ _ Hm7) as Hm8.
  rewrite (for_below_run _ (Z.to_nat left_boundary) 0 left_boundary fuel) by lia.
  destruct (bulk_left (Z.to_nat left_boundary) 0 (dealloc 0 st7) [])
    as (st9 & -> & Hm9 & Hp9 & Hw9); [lia|lia|exact Hm8|].
  cbn [mbind option_bind].
  eexists. split; [reflexivity|]. cbn [write mps peak written].
  split; [exact Hm9|]. split.
  - cbn [dealloc write peak] in *. lia.
  - rewrite Hw9. cbn [dealloc write written] in *.
    rewrite Hw7. cbn [write written]. rewrite Hw5. cbn [write written].
    rewrite Hw3, Hw1, <- !app_assoc. cbn [app]. rewrite !app_nil_r.
    replace (N - 1 - Z.of_nat (Z.to_nat (N - right_boundary - 1)) + 1)
      with (right_boundary + 1) by lia.
    reflexivity.
Qed.

(** X4: called with no tensor in memory and boundaries inside the chain,
    [UpdateBoundaryEnvs] returns with no tensor in memory, never holds more
    than one site tensor at a time, and writes exactly three files: the
    right environments of lengths [N-right_boundary-1] and
    [N-right_boundary] and the left environment of length [left_boundary].
    Each file of length [L] holds the contraction of exactly the [L]
    outermost sites of its side. *)
Theorem UpdateBoundaryEnvs_writes (fuel : nat) (left_boundary right_boundary : Z)
    (st : io_state) :
  0 <= left_boundary <= N -> 0 <= right_boundary <= N - 1 -> N < SizeT.modulus ->
  Init.mem (mps st) = ∅ ->
  (Z.to_nat N < fuel)%nat ->
  exists st',
    UpdateBoundaryEnvs fuel left_boundary right_boundary st = Some st'
    /\ Init.mem (mps st') = ∅
    /\ (peak st' <= Nat.max (peak st) 1)%nat
    /\ written st'
       = written st
         ++ [ ((REnv, N - right_boundary - 1),
               SizeT.upto (N - (N - right_boundary - 1)) (Z.to_nat (N - right_boundary - 1)));
              ((REnv, N - right_boundary),
               SizeT.upto (N - (N - right_boundary)) (Z.to_nat (N - right_boundary)));
              ((LEnv, left_boundary), SizeT.upto 0 (Z.to_nat left_boundary)) ].
Proof.
  intros Hlb Hrb Hmod Hm Hfuel.
  destruct (UpdateBoundaryEnvs_run fuel left_boundary right_boundary st
              Hlb Hrb Hmod Hm Hfuel) as (st' & Hrun & Hm' & Hp & Hw).
  exists st'. split; [exact Hrun|]. split; [exact Hm'|]. split; [exact Hp|].
  rewrite Hw. do 2 f_equal; [|f_equal].
  - do 2 f_equal. lia.
  - f_equal.
    replace (Z.to_nat (N - right_boundary))
      with (S (Z.to_nat (N - right_boundary - 1))) by lia.
    cbn [SizeT.upto]. f_equal; [lia|]. f_equal. lia.
Qed.

End Update.

Definition fresh_io : io_state := MkIo Init.empty_mps 0 [].

Lemma UpdateBoundaryEnvs_writes_witness :
  exists st',
    UpdateBoundaryEnvs 8 9 2 5 fresh_io = Some st'
    /\ Init.mem (mps st') = ∅
    /\ (peak st' <= Nat.max (peak fresh_io) 1)%nat
    /\ written st'
       = written fresh_io
         ++ [ ((REnv, 8 - 5 - 1), SizeT.upto (8 - (8 - 5 - 1)) (Z.to_nat (8 - 5 - 1)));
              ((REnv, 8 - 5), SizeT.upto (8 - (8 - 5)) (Z.to_nat (8 - 5)));
              ((LEnv, 2), SizeT.upto 0 (Z.to_nat 2)) ].
Proof.
  apply (UpdateBoundaryEnvs_writes 8 9 2 5 fresh_io).
  - lia.
  - lia.
  - rewrite SizeT.modulus_val. lia.
  - reflexivity.
  - simpl. lia.
Defined.

Example UpdateBoundaryEnvs_eight_sites :
  written <$> UpdateBoundaryEnvs 8 9 2 5 fresh_io
  = Some [ ((REnv, 2), [6; 7]); ((REnv, 3), [5; 6; 7]); ((LEnv, 2), [0; 1]) ].
Proof. vm_compute. reflexivity. Qed.

(** The loop of [NeedGenerateRightEnvs] reports a lost file exactly when
    one of the files of its range is missing. *)
Lemma lost_file_spec (disk : env_file -> bool) (n : nat) :
  forall (lo hi : Z) (fuel : nat),
    0 <= lo -> hi < SizeT.max -> lo + Z.of_nat n = hi + 1 -> (n < fuel)%nat ->
    exists b,
      lost_file fuel lo hi disk = Some b
      /\ (b = false <-> forall env_num, lo <= env_num <= hi -> disk (REnv, env_num) = true).
Proof.
  induction n as [|n IH]; intros lo hi fuel Hlo Hhi Hn Hfuel.
  - destruct fuel as [|fuel]; [lia|]. cbn [lost_file].
    destruct (Z.leb_spec lo hi); [lia|]. exists false. split; [reflexivity|].
    split; [intros _ e He; lia|reflexivity].
  - destruct fuel as [|fuel]; [lia|]. cbn [lost_file].
    destruct (Z.leb_spec lo hi); [|lia].
    destruct (disk (REnv, lo)) eqn:Ed.
    + rewrite SizeT.add_small by (unfold SizeT.max in Hhi; lia).
      destruct (IH (lo + 1) hi fuel) as (b & -> & Hb); [lia|lia|lia|lia|].
      exists b. split; [reflexivity|]. rewrite Hb. split.
      * intros Hall e He. destruct (Z.eq_dec e lo) as [->|Hne]; [exact Ed|].
        apply Hall. lia.
      * intros Hall e He. apply Hall. lia.
    + exists true. split; [reflexivity|]. split; [discriminate|].
      intros Hall. rewrite Hall in Ed by lia. discriminate Ed.
Qed.

(** Whatever the fuel, an answer "nothing lost" means the whole range was
    checked. *)
Lemma lost_file_false (disk : env_file -> bool) (fuel : nat) :
  forall lo hi : Z,
    lost_file fuel lo hi disk = Some false -> hi < SizeT.max -> 0 <= lo ->
    forall env_num, lo <= env_num <= hi -> disk (REnv, env_num) = true.
Proof.
  induction fuel as [|fuel IH]; intros lo hi El Hhi Hlo e He; [discriminate El|].
  cbn [lost_file] in El.
  destruct (Z.leb_spec lo hi); [|lia].
  destruct (disk (REnv, lo)) eqn:Ed; [|discriminate El].
  destruct (Z.eq_dec e lo) as [->|Hne]; [exact Ed|].
  rewrite SizeT.add_small in El by (unfold SizeT.max in Hhi; lia).
  apply (IH (lo + 1) hi El Hhi); lia.
Qed.

(** X5: [NeedGenerateRightEnvs] returns, [temp_path] exists afterwards
    (it is created when missing), no environment file is touched, and the
    answer is "no need" exactly when [temp_path] was there and every right
    environment file of the lengths [N-1-right_boundary] to
    [N-2-left_boundary] is readable. *)
Theorem NeedGenerateRightEnvs_answer (fuel : nat) (N left_boundary right_boundary : Z)
    (fs : filesystem) :
  0 <= left_boundary -> left_boundary + 1 <= right_boundary ->
  right_boundary <= N - 1 -> N < SizeT.modulus ->
  (Z.to_nat N < fuel)%nat ->
  exists b fs',
    NeedGenerateRightEnvs fuel N left_boundary right_boundary fs = Some (b, fs')
    /\ temp_path_exists fs' = true
    /\ env_file_on_disk fs' = env_file_on_disk fs
    /\ (b = false <->
        temp_path_exists fs = true
        /\ forall env_num,
             N - 1 - right_boundary <= env_num <= N - 2 - left_boundary ->
             env_file_on_disk fs (REnv, env_num) = true).
Proof.
  intros Hlb Hlr Hrb Hmod Hfuel. unfold NeedGenerateRightEnvs.
  destruct (temp_path_exists fs) eqn:Ep.
  - rewrite (SizeT.sub_small N 1), (SizeT.add_small left_boundary 1) by lia.
    rewrite !SizeT.sub_small by lia.
    destruct (lost_file_spec (env_file_on_disk fs)
                (Z.to_nat (right_boundary - left_boundary))
                (N - 1 - right_boundary) (N - 1 - (left_boundary + 1)) fuel)
      as (b & -> & Hb); [lia|unfold SizeT.max; lia|lia|lia|].
    cbn [mbind option_bind]. exists b, fs. split; [reflexivity|].
    split; [exact Ep|]. split; [reflexivity|]. rewrite Hb. split.
    + intros Hall. split; [reflexivity|]. intros e He. apply Hall. lia.
    + intros [_ Hall] e He. apply Hall. lia.
  - eexists _, _. split; [reflexivity|]. split; [reflexivity|].
    split; [reflexivity|]. split; [discriminate|]. intros [H _]. discriminate H.
Qed.

Definition all_on_disk : filesystem := MkFs true (fun _ => true).

Lemma NeedGenerateRightEnvs_answer_witness :
  exists b fs',
    NeedGenerateRightEnvs 9 8 2 5 all_on_disk = Some (b, fs')
    /\ temp_path_exists fs' = true
    /\ env_file_on_disk fs' = env_file_on_disk all_on_disk
    /\ (b = false <->
        temp_path_exists all_on_disk = true
        /\ forall env_num,
             8 - 1 - 5 <= env_num <= 8 - 2 - 2 ->
             env_file_on_disk all_on_disk (REnv, env_num) = true).
Proof.
  apply (NeedGenerateRightEnvs_answer 9 8 2 5 all_on_disk).
  - lia.
  - lia.
  - lia.
  - rewrite SizeT.modulus_val. lia.
  - simpl. lia.
Defined.

(** The environment files a list of events reads. *)
Definition env_loads (tr : list event) : list env_file :=
  flat_map (fun e => match e with EnvLoadTen s len => [(s, len)] | _ => [] end) tr.

(** X6: when [NeedGenerateRightEnvs] answers "no need", every right
    environment file that a load of a sweep reads is on disk: those of the
    right-moving loads at all target sites [left_boundary ..
    right_boundary-2], and the one of the left-moving load at
    [right_boundary]. *)
Theorem no_need_means_sweep_files_present
    (fuel : nat) (N left_boundary right_boundary : Z) (fs fs' : filesystem) :
  0 <= left_boundary -> left_boundary + 2 <= right_boundary ->
  right_boundary <= N - 1 -> N < SizeT.modulus ->
  NeedGenerateRightEnvs fuel N left_boundary right_boundary fs = Some (false, fs') ->
  (forall i len,
      left_boundary <= i <= right_boundary - 2 ->
      In (REnv, len)
        (env_loads (LoadRelatedTensOnTwoSiteAlgWhenRightMoving N i left_boundary)) ->
      env_file_on_disk fs (REnv, len) = true)
  /\ (forall len,
        In (REnv, len)
          (env_loads (LoadRelatedTensOnTwoSiteAlgWhenLeftMoving N right_boundary
                        right_boundary)) ->
        env_file_on_disk fs (REnv, len) = true).
Proof.
  intros Hlb Hlr Hrb Hmod Hrun.
  assert (Hall : forall env_num,
             N - 1 - right_boundary <= env_num <= N - 2 - left_boundary ->
             env_file_on_disk fs (REnv, env_num) = true).
  { unfold NeedGenerateRightEnvs in Hrun.
    destruct (temp_path_exists fs); [|discriminate Hrun].
    rewrite (SizeT.sub_small N 1), (SizeT.add_small left_boundary 1) in Hrun by lia.
    rewrite !SizeT.sub_small in Hrun by lia.
    destruct (lost_file fuel (N - 1 - right_boundary) (N - 1 - (left_boundary + 1))
                (env_file_on_disk fs)) as [b|] eqn:El; [|discriminate Hrun].
    cbn [mbind option_bind] in Hrun. injection Hrun as -> _.
    intros e He.
    apply (lost_file_false (env_file_on_disk fs) fuel
             (N - 1 - right_boundary) (N - 1 - (left_boundary + 1)));
      [exact El|unfold SizeT.max; lia|lia|lia]. }
  split.
  - intros i len Hi Hin.
    unfold LoadRelatedTensOnTwoSiteAlgWhenRightMoving in Hin.
    rewrite (SizeT.sub_small N 1), !SizeT.add_small in Hin by lia.
    rewrite !SizeT.sub_small in Hin by lia.
    destruct (decide (i <> left_boundary)); cbn in Hin;
      destruct Hin as [[= <-]|Hin]; try (apply Hall; lia);
      try (destruct Hin as [[=]|[]]); try destruct Hin.
  - intros len Hin.
    unfold LoadRelatedTensOnTwoSiteAlgWhenLeftMoving in Hin.
    rewrite decide_False in Hin by (intros H; now apply H).
    rewrite (SizeT.sub_small N 1) in Hin by lia.
    rewrite !SizeT.sub_small in Hin by lia.
    cbn in Hin. destruct Hin as [[= <-]|[]]. apply Hall. lia.
Qed.

Lemma no_need_means_sweep_files_present_witness :
  (forall i len,
      2 <= i <= 5 - 2 ->
      In (REnv, len) (env_loads (LoadRelatedTensOnTwoSiteAlgWhenRightMoving 8 i 2)) ->
      env_file_on_disk all_on_disk (REnv, len) = true)
  /\ (forall len,
        In (REnv, len) (env_loads (LoadRelatedTensOnTwoSiteAlgWhenLeftMoving 8 5 5)) ->
        env_file_on_disk all_on_disk (REnv, len) = true).
Proof.
  apply (no_need_means_sweep_files_present 9 8 2 5 all_on_disk all_on_disk).
  - lia.
  - lia.
  - lia.
  - rewrite SizeT.modulus_val. lia.
  - vm_compute. reflexivity.
Defined.

(** X7: the environment files read by the loads of the three bond updates
    next to the boundaries (right-moving at [left_boundary] and at
    [right_boundary-2], left-moving at [right_boundary]) are all written by
    [UpdateBoundaryEnvs], except the right environment of length
    [N-2-left_boundary], which is the last file [NeedGenerateRightEnvs]
    looks for. *)
Theorem boundary_loads_read_what_init_wrote
    (N : Z) (fuel : nat) (left_boundary right_boundary : Z) (st : io_state) :
  0 <= left_boundary -> left_boundary + 2 <= right_boundary ->
  right_boundary <= N - 1 -> N < SizeT.modulus ->
  Init.mem (mps st) = ∅ ->
  (Z.to_nat N < fuel)%nat ->
  exists st',
    UpdateBoundaryEnvs N fuel left_boundary right_boundary st = Some st'
    /\ forall f,
         In f (env_loads (LoadRelatedTensOnTwoSiteAlgWhenRightMoving N left_boundary
                            left_boundary)
               ++ env_loads (LoadRelatedTensOnTwoSiteAlgWhenRightMoving N
                               (right_boundary - 2) left_boundary)
               ++ env_loads (LoadRelatedTensOnTwoSiteAlgWhenLeftMoving N right_boundary
                               right_boundary)) ->
         In f (map fst (written st')) \/ f = (REnv, N - 2 - left_boundary).
Proof.
  intros Hlb Hlr Hrb Hmod Hm Hfuel.
  destruct (UpdateBoundaryEnvs_run N fuel left_boundary right_boundary st)
    as (st' & Hrun & _ & _ & Hw); [lia|lia|exact Hmod|exact Hm|exact Hfuel|].
  exists st'. split; [exact Hrun|]. intros f Hf. rewrite Hw, map_app. cbn [map fst].
  unfold LoadRelatedTensOnTwoSiteAlgWhenRightMoving,
    LoadRelatedTensOnTwoSiteAlgWhenLeftMoving in Hf.
  rewrite (SizeT.sub_small N 1), !SizeT.add_small in Hf by lia.
  rewrite !SizeT.sub_small in Hf by lia.
  rewrite (decide_False (P := left_boundary <> left_boundary)) in Hf by tauto.
  rewrite (decide_False (P := right_boundary <> right_boundary)) in Hf by tauto.
  assert (Hfound : forall len side,
             (side = REnv /\ (len = N - right_boundary - 1 \/ len = N - right_boundary
                              \/ len = N - 2 - left_boundary))
             \/ (side = LEnv /\ len = left_boundary) ->
             In (side, len)
               (map fst (written st)
                ++ [(REnv, N - right_boundary - 1); (REnv, N - right_boundary);
                    (LEnv, left_boundary)])
             \/ (side, len) = (REnv, N - 2 - left_boundary)).
  { intros len side [[-> [-> | [-> | ->]]] | [-> ->]].
    - left. apply in_or_app. right. now left.
    - left. apply in_or_app. right. right. now left.
    - now right.
    - left. apply in_or_app. right. right. right. now left. }
  destruct (decide (right_boundary - 2 <> left_boundary)) as [Hne|He]; cbn in Hf;
    repeat (destruct Hf as [<-|Hf];
            [apply Hfound;
             first [left; split; [reflexivity|lia] | right; split; [reflexivity|lia]]|]);
    destruct Hf.
Qed.

Lemma boundary_loads_read_what_init_wrote_witness :
  exists st',
    UpdateBoundaryEnvs 8 9 2 5 fresh_io = Some st'
    /\ forall f,
         In f (env_loads (LoadRelatedTensOnTwoSiteAlgWhenRightMoving 8 2 2)
               ++ env_loads (LoadRelatedTensOnTwoSiteAlgWhenRightMoving 8 (5 - 2) 2)
               ++ env_loads (LoadRelatedTensOnTwoSiteAlgWhenLeftMoving 8 5 5)) ->
         In f (map fst (written st')) \/ f = (REnv, 8 - 2 - 2).
Proof.
  apply (boundary_loads_read_what_init_wrote 8 9 2 5 fresh_io).
  - lia.
  - lia.
  - lia.
  - rewrite SizeT.modulus_val. lia.
  - reflexivity.
  - simpl. lia.
Defined.

End BoundaryEnvs.

(** * Environment tensors across the bond updates of a sweep

    [MasterTwoSiteFiniteVMPSUpdate] reads [lenvs(lenv_len)] and
    [renvs(renv_len)]; they are put in place by the loads of
    [LoadRelatedTensOnTwoSiteAlgWhen...Moving] and by the growth at the end
    of the update before.  The index arithmetic of the three functions has
    to agree for that. *)

Module Sweep.

Import Master.

(** The environment tensors an action reads. *)
Definition needs (e : event) : list env_file :=
  match e with
  | Call fMasterLanczosSolver [lenv_len; _; _; renv_len] =>
      [(LEnv, lenv_len); (REnv, renv_len)]
  | Call fMasterGrowLeftEnvironment [lenv_len; _] => [(LEnv, lenv_len)]
  | Call fMasterGrowRightEnvironment [renv_len; _] => [(REnv, renv_len)]
  | _ => []
  end.

(** The environment tensor an action puts in place. *)
Definition gives (e : event) : list env_file :=
  match e with
  | EnvLoadTen s len => [(s, len)]
  | EnvAssign s len => [(s, len)]
  | _ => []
  end.

(** A bond update step ends with its [DumpRelatedTens...] call. *)
Definition ends_step (e : event) : bool :=
  match e with
  | Call fDumpRelatedTensOnTwoSiteAlgWhenRightMoving _ => true
  | Call fDumpRelatedTensOnTwoSiteAlgWhenLeftMoving _ => true
  | _ => false
  end.

(** Runs through the actions with the tensors put in place during the step
    before ([before]) and during the current step ([now]); [None] as soon
    as an action reads a tensor that is in neither. *)
Fixpoint envs_ready (tr : list event) (before now : list env_file)
    : option (list env_file * list env_file) :=
  match tr with
  | [] => Some (before, now)
  | e :: tr' =>
      if forallb (fun f => bool_decide (f ∈ before ++ now)) (needs e) then
        if ends_step e then envs_ready tr' now []
        else envs_ready tr' before (gives e ++ now)
      else None
  end.

Lemma envs_ready_app (a b : list event) :
  forall before now,
    envs_ready (a ++ b) before now
    = envs_ready a before now ≫= (fun '(before', now') => envs_ready b before' now').
Proof.
  induction a as [|e a IH]; intros before now; cbn [app envs_ready].
  - reflexivity.
  - destruct (forallb _ (needs e)); [|reflexivity].
    destruct (ends_step e); apply IH.
Qed.

Ltac held_solve :=
  repeat (rewrite elem_of_app || rewrite elem_of_cons);
  intuition (auto; congruence).

Ltac held_run :=
  repeat (rewrite bool_decide_true by held_solve); cbn [andb].

(** One right-moving step: it finds its left environment when that was
    grown by the step before or when it is the boundary step, and leaves
    the next left environment behind. *)
Lemma right_step_ready (N lb : Z) (noise : float) (i : Z) (before : list env_file) :
  0 <= i -> i + 2 <= N -> N < SizeT.modulus ->
  (LEnv, i) ∈ before \/ i = lb ->
  exists now',
    envs_ready (right_events N lb noise i) before [] = Some (now', [])
    /\ (LEnv, i + 1) ∈ now'.
Proof.
  intros Hi HiN Hmod Hl.
  unfold right_events, LoadRelatedTensOnTwoSiteAlgWhenRightMoving, update_events,
    MasterTwoSiteFiniteVMPSUpdate, site_indices.
  rewrite (SizeT.sub_small N 1), !SizeT.add_small by lia.
  rewrite !SizeT.sub_small by lia.
  rewrite !(decide_True (P := "r"%char = "r"%char)) by reflexivity.
  replace (N - 1 - (i + 1)) with (N - (i + 2)) by lia.
  destruct (decide (i <> lb)) as [Hb|Hb].
  - destruct Hl as [Hl|Hl]; [|contradiction].
    destruct (noise_on noise); cbn; held_run;
      rewrite ?SizeT.add_small by lia; rewrite ?Z.sub_add;
      (eexists; split; [reflexivity|held_solve]).
  - destruct (noise_on noise); cbn; held_run;
      rewrite ?SizeT.add_small by lia; rewrite ?Z.sub_add;
      (eexists; split; [reflexivity|held_solve]).
Qed.

(** One left-moving step: at the boundary it finds the left environment
    the last right-moving step has grown, elsewhere the right environment
    the step before has grown; it leaves the next right environment
    behind. *)
Lemma left_step_ready (N rb : Z) (noise : float) (i : Z) (before : list env_file) :
  1 <= i -> i + 1 <= N -> N < SizeT.modulus ->
  (i = rb /\ (LEnv, i - 1) ∈ before) \/ (i <> rb /\ (REnv, N - i - 1) ∈ before) ->
  exists now',
    envs_ready (left_events N rb noise i) before [] = Some (now', [])
    /\ (REnv, N - i) ∈ now'.
Proof.
  intros Hi HiN Hmod Hl.
  unfold left_events, LoadRelatedTensOnTwoSiteAlgWhenLeftMoving, update_events,
    MasterTwoSiteFiniteVMPSUpdate, site_indices.
  rewrite (SizeT.sub_small N 1), (SizeT.sub_small N i), (SizeT.sub_small i 1),
    (SizeT.add_small i 1) by lia.
  rewrite (SizeT.sub_small (i + 1) 2), (SizeT.sub_small (N - i) 1),
    (SizeT.sub_small (N - 1) i) by lia.
  replace (i + 1 - 2) with (i - 1) by lia.
  replace (N - i - 1 + 1) with (N - i) by lia.
  replace (N - 1 - i) with (N - i - 1) by lia.
  rewrite !(decide_False (P := "l"%char = "r"%char)) by discriminate.
  rewrite !(decide_True (P := "l"%char = "l"%char)) by reflexivity.
  destruct (decide (i <> rb)) as [Hb|Hb].
  - destruct Hl as [[Hl _]|[_ Hl]]; [contradiction|].
    destruct (noise_on noise); cbn;
      rewrite ?(decide_False (P := "l"%char = "r"%char)) by discriminate; cbn;
      held_run;
      rewrite ?SizeT.add_small by lia; rewrite ?Z.sub_add;
      (eexists; split; [reflexivity|held_solve]).
  - destruct Hl as [[_ Hl]|[Hl _]]; [|contradiction].
    destruct (noise_on noise); cbn;
      rewrite ?(decide_False (P := "l"%char = "r"%char)) by discriminate; cbn;
      held_run;
      rewrite ?SizeT.add_small by lia; rewrite ?Z.sub_add;
      (eexists; split; [reflexivity|held_solve]).
Qed.

Lemma right_half_ready (N lb : Z) (noise : float) (n : nat) :
  forall (i : Z) (before : list env_file),
    0 <= i -> i + Z.of_nat n + 1 <= N -> N < SizeT.modulus ->
    (LEnv, i) ∈ before \/ i = lb ->
    exists now',
      envs_ready (flat_map (right_events N lb noise) (SizeT.upto i n)) before []
      = Some (now', [])
      /\ match n with
         | O => now' = before
         | S _ => (LEnv, i + Z.of_nat n) ∈ now'
         end.
Proof.
  induction n as [|n IH]; intros i before Hi HiN Hmod Hl.
  - exists before. split; reflexivity.
  - cbn [SizeT.upto flat_map]. rewrite envs_ready_app.
    destruct (right_step_ready N lb noise i before) as (now1 & -> & H1);
      [lia|lia|lia|exact Hl|].
    cbn [mbind option_bind].
    destruct (IH (i + 1) now1) as (now2 & -> & H2); [lia|lia|lia|now left|].
    exists now2. split; [reflexivity|].
    destruct n as [|n].
    + subst now2. replace (i + Z.of_nat 1) with (i + 1) by lia. exact H1.
    + replace (i + Z.of_nat (S (S n))) with (i + 1 + Z.of_nat (S n)) by lia.
      exact H2.
Qed.

Lemma left_half_ready (N rb : Z) (noise : float) (n : nat) :
  forall (i : Z) (before : list env_file),
    Z.of_nat n <= i -> i + 1 <= N -> N < SizeT.modulus ->
    (i = rb /\ (LEnv, i - 1) ∈ before) \/ (i <> rb /\ i < rb /\ (REnv, N - i - 1) ∈ before) ->
    exists now',
      envs_ready (flat_map (left_events N rb noise) (SizeT.downto i n)) before []
      = Some (now', []).
Proof.
  induction n as [|n IH]; intros i before Hi HiN Hmod Hl.
  - exists before. reflexivity.
  - cbn [SizeT.downto flat_map]. rewrite envs_ready_app.
    destruct (left_step_ready N rb noise i before) as (now1 & -> & H1);
      [lia|lia|lia|tauto|].
    cbn [mbind option_bind].
    apply (IH (i - 1) now1); [lia|lia|lia|].
    right. split; [lia|]. split; [lia|].
    replace (N - (i - 1) - 1) with (N - i) by lia. exact H1.
Qed.

(** X8: a sweep returns, and every environment tensor that the Lanczos
    solver or the environment growth of one of its bond updates reads was
    loaded or grown during the same step or the step before it, within the
    sweep itself. *)
Theorem sweep_environments_in_place
    (fuel : nat) (N left_boundary right_boundary : Z) (noise : float)
    (tr : list event) :
  0 <= left_boundary -> left_boundary + 2 <= right_boundary ->
  right_boundary <= N - 1 -> N < SizeT.modulus ->
  (Z.to_nat right_boundary < fuel)%nat ->
  exists tr' held,
    TwoSiteFiniteVMPSSweep fuel N left_boundary right_boundary noise tr = Some (tr ++ tr')
    /\ envs_ready tr' [] [] = Some (held, []).
Proof.
  intros Hlb Hlr Hrb Hmod Hfuel.
  exists (sweep_events N left_boundary right_boundary noise).
  destruct (right_half_ready N left_boundary noise
              (half_sweep left_boundary right_boundary) left_boundary [])
    as (now1 & E1 & H1); [lia|unfold half_sweep; lia|lia|now right|].
  destruct (left_half_ready N right_boundary noise
              (half_sweep left_boundary right_boundary) right_boundary now1)
    as (now2 & E2); [unfold half_sweep; lia|lia|lia| |].
  { left. split; [reflexivity|].
    replace (right_boundary - 1)
      with (left_boundary + Z.of_nat (half_sweep left_boundary right_boundary))
      by (unfold half_sweep; lia).
    destruct (half_sweep left_boundary right_boundary) eqn:Eh;
      [unfold half_sweep in Eh; lia|exact H1]. }
  exists now2. split.
  - apply sweep_returns; lia.
  - unfold sweep_events. rewrite envs_ready_app, E1. cbn [mbind option_bind].
    exact E2.
Qed.

Lemma sweep_environments_in_place_witness :
  exists tr' held,
    TwoSiteFiniteVMPSSweep 7 8 2 5 0.5%float [] = Some ([] ++ tr')
    /\ envs_ready tr' [] [] = Some (held, []).
Proof.
  apply (sweep_environments_in_place 7 8 2 5 0.5%float []).
  - lia.
  - lia.
  - lia.
  - rewrite SizeT.modulus_val. lia.
  - simpl. lia.
Defined.

(** The check is not vacuous: a left-moving step in the middle of the MPS
    that starts with nothing in place fails it. *)
Example left_step_needs_the_step_before :
  envs_ready (left_events 8 5 0%float 4) [] [] = None.
Proof. vm_compute. reflexivity. Qed.

(** *** Subscripts *)

(** [TenVec<TenT> lenvs(N - 1); TenVec<TenT> renvs(N - 1);] at the head
    of [TwoSiteFiniteVMPSSweep]. *)
Definition envs_size (N : Z) : Z := SizeT.sub N 1.

(** The subscripts into [lenvs] and [renvs] an action uses. *)
Definition env_subscripts (e : event) : list Z :=
  match e with
  | EnvLoadTen _ len => [len]
  | EnvAssign _ len => [len]
  | Call fMasterLanczosSolver [lenv_len; _; _; renv_len] => [lenv_len; renv_len]
  | Call fMasterGrowLeftEnvironment [lenv_len; _] => [lenv_len]
  | Call fMasterGrowRightEnvironment [renv_len; _] => [renv_len]
  | _ => []
  end.

(** The subscripts into [mps] an action uses. *)
Definition mps_subscripts (e : event) : list Z :=
  match e with
  | MpsLoadTen i => [i]
  | MpsDumpTen i => [i]
  | MpsAssign i => [i]
  | Call fContract [lsite_idx; rsite_idx] => [lsite_idx; rsite_idx]
  | Call fMPISVDMaster [lsite_idx] => [lsite_idx]
  | Call fExpandMC [next_next_site] => [next_next_site]
  | Call fMasterGrowLeftEnvironment [_; target_site] => [target_site]
  | Call fMasterGrowRightEnvironment [_; target_site] => [target_site]
  | _ => []
  end.

Ltac in_range := repeat (apply List.Forall_cons; [lia|]); apply List.Forall_nil.

Lemma right_step_subscripts (N lb rb : Z) (noise : float) (i : Z) :
  0 <= lb -> lb <= i <= rb - 2 -> rb <= N - 1 -> N < SizeT.modulus ->
  Forall (fun k => 0 <= k < envs_size N) (flat_map env_subscripts (right_events N lb noise i))
  /\ Forall (fun k => lb <= k <= rb) (flat_map mps_subscripts (right_events N lb noise i)).
Proof.
  intros Hlb Hi Hrb Hmod.
  unfold envs_size, right_events, LoadRelatedTensOnTwoSiteAlgWhenRightMoving,
    update_events, MasterTwoSiteFiniteVMPSUpdate, site_indices,
    MasterTwoSiteFiniteVMPSRightMovingExpand.
  rewrite (SizeT.sub_small N 1), !SizeT.add_small by lia.
  rewrite !SizeT.sub_small by lia.
  rewrite !(decide_True (P := "r"%char = "r"%char)) by reflexivity.
  destruct (decide (i <> lb)); destruct (noise_on noise); cbn;
    rewrite ?SizeT.add_small by lia; split; in_range.
Qed.

Lemma left_step_subscripts (N lb rb : Z) (noise : float) (i : Z) :
  0 <= lb -> lb + 2 <= i <= rb -> rb <= N - 1 -> N < SizeT.modulus ->
  Forall (fun k => 0 <= k < envs_size N) (flat_map env_subscripts (left_events N rb noise i))
  /\ Forall (fun k => lb <= k <= rb) (flat_map mps_subscripts (left_events N rb noise i)).
Proof.
  intros Hlb Hi Hrb Hmod.
  unfold envs_size, left_events, LoadRelatedTensOnTwoSiteAlgWhenLeftMoving,
    update_events, MasterTwoSiteFiniteVMPSUpdate, site_indices,
    MasterTwoSiteFiniteVMPSLeftMovingExpand.
  rewrite (SizeT.sub_small N 1), (SizeT.sub_small N i), (SizeT.sub_small i 1),
    (SizeT.sub_small i 2), (SizeT.add_small i 1) by lia.
  rewrite (SizeT.sub_small (i + 1) 2), (SizeT.sub_small (N - i) 1),
    (SizeT.sub_small (N - 1) i) by lia.
  rewrite !(decide_False (P := "l"%char = "r"%char)) by discriminate.
  rewrite !(decide_True (P := "l"%char = "l"%char)) by reflexivity.
  destruct (decide (i <> rb)); destruct (noise_on noise); cbn;
    rewrite ?(decide_False (P := "l"%char = "r"%char)) by discriminate; cbn;
    rewrite ?SizeT.add_small by lia; split; in_range.
Qed.

(** X9: in a sweep, every subscript into [lenvs] and [renvs] is below
    their size [N - 1], and every subscript into [mps] is a site from
    [left_boundary] to [right_boundary]. *)
Theorem sweep_subscripts_in_range
    (fuel : nat) (N left_boundary right_boundary : Z) (noise : float)
    (tr : list event) :
  0 <= left_boundary -> left_boundary + 2 <= right_boundary ->
  right_boundary <= N - 1 -> N < SizeT.modulus ->
  (Z.to_nat right_boundary < fuel)%nat ->
  exists tr',
    TwoSiteFiniteVMPSSweep fuel N left_boundary right_boundary noise tr = Some (tr ++ tr')
    /\ Forall (fun k => 0 <= k < envs_size N) (flat_map env_subscripts tr')
    /\ Forall (fun k => left_boundary <= k <= right_boundary)
         (flat_map mps_subscripts tr').
Proof.
  intros Hlb Hlr Hrb Hmod Hfuel.
  exists (sweep_events N left_boundary right_boundary noise).
  split; [apply sweep_returns; lia|].
  unfold sweep_events. rewrite !flat_map_app, !flat_map_nested.
  split; apply List.Forall_app; split; apply Forall_flat_map_in; intros i Hi;
    try (apply SizeT.upto_In in Hi); try (apply SizeT.downto_In in Hi);
    unfold half_sweep in Hi;
    first [ apply (right_step_subscripts N left_boundary right_boundary); lia
          | apply (left_step_subscripts N left_boundary right_boundary); lia ].
Qed.

Lemma sweep_subscripts_in_range_witness :
  exists tr',
    TwoSiteFiniteVMPSSweep 7 8 2 5 0.5%float [] = Some ([] ++ tr')
    /\ Forall (fun k => 0 <= k < envs_size 8) (flat_map env_subscripts tr')
    /\ Forall (fun k => 2 <= k <= 5) (flat_map mps_subscripts tr').
Proof.
  apply (sweep_subscripts_in_range 7 8 2 5 0.5%float []).
  - lia.
  - lia.
  - lia.
  - rewrite SizeT.modulus_val. lia.
  - simpl. lia.
Defined.

(** *** Environment files removed *)

Lemma downto_NoDup (hi : Z) (k : nat) : NoDup (SizeT.downto hi k).
Proof.
  revert hi. induction k as [|k IH]; intros hi; cbn [SizeT.downto]; constructor.
  - rewrite list_elem_of_In, SizeT.downto_In. lia.
  - apply IH.
Qed.

Definition removed_files (tr : list event) : list env_file :=
  flat_map (fun e => match e with RemoveFile s len => [(s, len)] | _ => [] end) tr.

Lemma flat_map_single {A B : Type} (f : A -> list B) (g : A -> B) (l : list A) :
  (forall a, In a l -> f a = [g a]) -> flat_map f l = map g l.
Proof.
  induction l as [|a l IH]; intros H; [reflexivity|].
  cbn [flat_map map]. rewrite (H a) by now left.
  rewrite IH; [reflexivity|]. intros b Hb. apply H. now right.
Qed.

Lemma right_step_removes (N lb : Z) (noise : float) (i : Z) :
  0 <= i -> i + 2 <= N -> N < SizeT.modulus ->
  removed_files (right_events N lb noise i) = [(REnv, N - (i + 2))].
Proof.
  intros Hi HiN Hmod.
  unfold right_events, LoadRelatedTensOnTwoSiteAlgWhenRightMoving, update_events,
    MasterTwoSiteFiniteVMPSUpdate, site_indices, MasterTwoSiteFiniteVMPSRightMovingExpand.
  rewrite (SizeT.sub_small N 1), !SizeT.add_small by lia.
  rewrite !SizeT.sub_small by lia.
  rewrite !(decide_True (P := "r"%char = "r"%char)) by reflexivity.
  replace (N - 1 - (i + 1)) with (N - (i + 2)) by lia.
  destruct (decide (i <> lb)); destruct (noise_on noise); reflexivity.
Qed.

Lemma left_step_removes (N rb : Z) (noise : float) (i : Z) :
  1 <= i -> i + 1 <= N -> N < SizeT.modulus ->
  removed_files (left_events N rb noise i) = [(LEnv, i - 1)].
Proof.
  intros Hi HiN Hmod.
  unfold left_events, LoadRelatedTensOnTwoSiteAlgWhenLeftMoving, update_events,
    MasterTwoSiteFiniteVMPSUpdate, site_indices, MasterTwoSiteFiniteVMPSLeftMovingExpand.
  rewrite (SizeT.sub_small i 1), (SizeT.add_small i 1) by lia.
  rewrite (SizeT.sub_small (i + 1) 2) by lia.
  replace (i + 1 - 2) with (i - 1) by lia.
  rewrite !(decide_False (P := "l"%char = "r"%char)) by discriminate.
  rewrite !(decide_True (P := "l"%char = "l"%char)) by reflexivity.
  destruct (decide (i <> rb)); destruct (noise_on noise); cbn;
    rewrite ?(decide_False (P := "l"%char = "r"%char)) by discriminate; reflexivity.
Qed.

(** X10: the environment files a sweep removes are, in this order, the
    right environments of lengths [N-2-left_boundary] down to
    [N-right_boundary] and then the left environments of lengths
    [right_boundary-1] down to [left_boundary+1], each once.  The two files
    at the boundaries, the left environment of length [left_boundary] and
    the right environment of length [N-1-right_boundary], are never
    removed. *)
Theorem sweep_removes_inner_files_only
    (fuel : nat) (N left_boundary right_boundary : Z) (noise : float)
    (tr : list event) :
  0 <= left_boundary -> left_boundary + 2 <= right_boundary ->
  right_boundary <= N - 1 -> N < SizeT.modulus ->
  (Z.to_nat right_boundary < fuel)%nat ->
  exists tr',
    TwoSiteFiniteVMPSSweep fuel N left_boundary right_boundary noise tr = Some (tr ++ tr')
    /\ removed_files tr'
       = map (pair REnv)
           (SizeT.downto (N - 2 - left_boundary)
              (Z.to_nat (right_boundary - left_boundary - 1)))
         ++ map (pair LEnv)
              (SizeT.downto (right_boundary - 1)
                 (Z.to_nat (right_boundary - left_boundary - 1)))
    /\ NoDup (removed_files tr')
    /\ ~ In (LEnv, left_boundary) (removed_files tr')
    /\ ~ In (REnv, N - 1 - right_boundary) (removed_files tr').
Proof.
  intros Hlb Hlr Hrb Hmod Hfuel.
  exists (sweep_events N left_boundary right_boundary noise).
  split; [apply sweep_returns; lia|].
  assert (Hrem : removed_files (sweep_events N left_boundary right_boundary noise)
                 = map (pair REnv)
                     (SizeT.downto (N - 2 - left_boundary)
                        (Z.to_nat (right_boundary - left_boundary - 1)))
                   ++ map (pair LEnv)
                        (SizeT.downto (right_boundary - 1)
                           (Z.to_nat (right_boundary - left_boundary - 1)))).
  { unfold sweep_events, removed_files, half_sweep.
    rewrite flat_map_app, !flat_map_nested. f_equal.
    - rewrite (flat_map_single _ (fun i => (REnv, N - (i + 2)))).
      + generalize (Z.to_nat (right_boundary - left_boundary - 1)) as k.
        generalize left_boundary as lo. intros lo k. revert lo.
        induction k as [|k IH]; intros lo; [reflexivity|].
        cbn [SizeT.upto SizeT.downto map]. f_equal; [f_equal; lia|].
        rewrite IH. do 2 f_equal. lia.
      + intros i Hi. apply SizeT.upto_In in Hi.
        apply (right_step_removes N left_boundary noise i); lia.
    - rewrite (flat_map_single _ (fun i => (LEnv, i - 1))).
      + generalize (Z.to_nat (right_boundary - left_boundary - 1)) as k.
        generalize right_boundary as hi. intros hi k. revert hi.
        induction k as [|k IH]; intros hi; [reflexivity|].
        cbn [SizeT.downto map]. f_equal. apply IH.
      + intros i Hi. apply SizeT.downto_In in Hi.
        apply (left_step_removes N right_boundary noise i); lia. }
  rewrite Hrem. split; [reflexivity|]. split; [|split].
  - apply NoDup_app. split; [|split].
    + apply (NoDup_fmap_2 (pair REnv)), downto_NoDup.
    + intros f Hf1 Hf2. apply list_elem_of_fmap in Hf1 as (a & -> & _).
      apply list_elem_of_fmap in Hf2 as (c & [=] & _).
    + apply (NoDup_fmap_2 (pair LEnv)), downto_NoDup.
  - intros Hin. apply in_app_or in Hin as [Hin|Hin];
      apply in_map_iff in Hin as (k & [=] & Hk). subst k.
    apply SizeT.downto_In in Hk. lia.
  - intros Hin. apply in_app_or in Hin as [Hin|Hin];
      apply in_map_iff in Hin as (k & [=] & Hk). subst k.
    apply SizeT.downto_In in Hk. lia.
Qed.

Lemma sweep_removes_inner_files_only_witness :
  exists tr',
    TwoSiteFiniteVMPSSweep 7 8 2 5 0.5%float [] = Some ([] ++ tr')
    /\ removed_files tr'
       = map (pair REnv) (SizeT.downto (8 - 2 - 2) (Z.to_nat (5 - 2 - 1)))
         ++ map (pair LEnv) (SizeT.downto (5 - 1) (Z.to_nat (5 - 2 - 1)))
    /\ NoDup (removed_files tr')
    /\ ~ In (LEnv, 2) (removed_files tr')
    /\ ~ In (REnv, 8 - 1 - 5) (removed_files tr').
Proof.
  apply (sweep_removes_inner_files_only 7 8 2 5 0.5%float []).
  - lia.
  - lia.
  - lia.
  - rewrite SizeT.modulus_val. lia.
  - simpl. lia.
Defined.

End Sweep.

(** * The orders the master functions broadcast in a run *)

Module Orders.

Import Master.

(** The orders a bond update may broadcast. *)
Definition bond_update_order (o : MPS_AlGO_ORDER) : Prop :=
  o = lanczos \/ o = svd
  \/ o = contract_for_right_moving_expansion \/ o = contract_for_left_moving_expansion
  \/ o = growing_left_env \/ o = growing_right_env.

(** The orders of sweep [k]: those of its bond updates, in schedule order,
    all with the noise in force during the sweep. *)
Definition sweep_orders (lb rb : Z) (ns : list float) (k : Z) : list MPS_AlGO_ORDER :=
  flat_map (fun di : ascii * Z => update_orders noise_on (fst di) (held_noise ns k))
    (sweep_schedule lb rb).

Lemma flat_map_map {A B C : Type} (f : B -> list C) (g : A -> B) (l : list A) :
  flat_map f (map g l) = flat_map (fun a => f (g a)) l.
Proof. induction l as [|a l IH]; [reflexivity|]. cbn [map flat_map]. now rewrite IH. Qed.

Lemma sweep_events_orders (N lb rb : Z) (noise : float) :
  orders_of (sweep_events N lb rb noise)
  = flat_map (fun di : ascii * Z => update_orders noise_on (fst di) noise)
      (sweep_schedule lb rb).
Proof.
  unfold sweep_events, sweep_schedule.
  rewrite orders_of_app, flat_map_app, !flat_map_map.
  unfold orders_of at 1 2. rewrite !flat_map_nested. f_equal.
  - apply flat_map_ext. intros i. apply right_events_orders.
  - apply flat_map_ext. intros i. apply left_events_orders.
Qed.

Ltac pick_order := first [reflexivity | left; reflexivity | right; pick_order].

Lemma update_orders_bond_update (dir : ascii) (noise : float) :
  Forall bond_update_order (update_orders noise_on dir noise).
Proof.
  unfold update_orders, expansion_order, growing_order, bond_update_order.
  destruct (noise_on noise); repeat case_decide; cbn [app];
    repeat (apply List.Forall_cons; [pick_order|]); apply List.Forall_nil.
Qed.

Lemma update_orders_one_lanczos (dir : ascii) (noise : float) :
  count_occ MPS_AlGO_ORDER_eq_dec (update_orders noise_on dir noise) lanczos = 1%nat
  /\ count_occ MPS_AlGO_ORDER_eq_dec (update_orders noise_on dir noise) svd = 1%nat.
Proof.
  unfold update_orders, expansion_order, growing_order.
  destruct (noise_on noise); repeat case_decide; split; reflexivity.
Qed.

Lemma count_occ_flat_map_const {A : Type} (f : A -> list MPS_AlGO_ORDER)
    (o : MPS_AlGO_ORDER) (c : nat) (l : list A) :
  (forall a, count_occ MPS_AlGO_ORDER_eq_dec (f a) o = c) ->
  count_occ MPS_AlGO_ORDER_eq_dec (flat_map f l) o = (length l * c)%nat.
Proof.
  intros H. induction l as [|a l IH]; [reflexivity|].
  cbn [flat_map length]. rewrite count_occ_app, H, IH. lia.
Qed.

Lemma sweep_schedule_length (lb rb : Z) :
  length (sweep_schedule lb rb) = (2 * half_sweep lb rb)%nat.
Proof.
  unfold sweep_schedule. rewrite length_app, !length_map, upto_length.
  assert (H : forall hi n, length (SizeT.downto hi n) = n).
  { intros hi n. revert hi. induction n as [|n IH]; intros hi; simpl;
      [|rewrite IH]; reflexivity. }
  rewrite H. lia.
Qed.

Lemma sweep_orders_bond_update (lb rb : Z) (ns : list float) (k : Z) :
  Forall bond_update_order (sweep_orders lb rb ns k).
Proof.
  apply Forall_flat_map_in. intros di _. apply update_orders_bond_update.
Qed.

Lemma sweep_orders_count (lb rb : Z) (ns : list float) (k : Z) :
  count_occ MPS_AlGO_ORDER_eq_dec (sweep_orders lb rb ns k) lanczos
  = (2 * half_sweep lb rb)%nat
  /\ count_occ MPS_AlGO_ORDER_eq_dec (sweep_orders lb rb ns k) svd
     = (2 * half_sweep lb rb)%nat.
Proof.
  unfold sweep_orders. split.
  - rewrite (count_occ_flat_map_const _ lanczos 1)
      by (intros a; apply update_orders_one_lanczos).
    rewrite sweep_schedule_length. lia.
  - rewrite (count_occ_flat_map_const _ svd 1)
      by (intros a; apply update_orders_one_lanczos).
    rewrite sweep_schedule_length. lia.
Qed.

(** X11: the orders that [MasterTwoSiteFiniteVMPS], [TwoSiteFiniteVMPSSweep]
    and [MasterTwoSiteFiniteVMPSUpdate] themselves pass to
    [MasterBroadcastOrder] in a run on an MPS of at least three sites:
    [program_start], then for each sweep the orders of its bond updates in
    schedule order, then [program_final].  So these functions broadcast
    [program_start] and [program_final] once each, every order they
    broadcast in between is one of the six bond-update orders, and
    [lanczos] and [svd] are each broadcast once per bond update.  What the
    collaborators called in between broadcast on their own ([InitEnvs],
    [MasterLanczosSolver], [MPISVDMaster], the environment growers; their
    bodies are not in these files) is not part of this stream. *)
Theorem master_order_stream
    (fuel : nat) (N : Z) (params : TwoSiteMPINoisedVMPSSweepParams)
    (lshape rshape : Z -> Z * Z * Z) (need_gen : bool) :
  3 <= N < SizeT.modulus ->
  0 <= sweeps params < SizeT.max ->
  (Z.to_nat N < fuel)%nat -> (Z.to_nat (sweeps params) < fuel)%nat ->
  exists lb rb tr mid,
    (exists s, Init.CheckAndUpdateBoundaryMPSTensors N (Dmax params) lshape rshape
                 fuel Init.empty_mps = Some (lb, rb, s))
    /\ MasterTwoSiteFiniteVMPS fuel N params lshape rshape need_gen = Some tr
    /\ orders_of tr = program_start :: mid ++ [program_final]
    /\ mid = flat_map (sweep_orders lb rb (default_noises (noises params)))
               (SizeT.upto 1 (Z.to_nat (sweeps params)))
    /\ Forall bond_update_order mid
    /\ count_occ MPS_AlGO_ORDER_eq_dec mid lanczos
       = (Z.to_nat (sweeps params) * (2 * Z.to_nat (rb - lb - 1)))%nat
    /\ count_occ MPS_AlGO_ORDER_eq_dec mid svd
       = (Z.to_nat (sweeps params) * (2 * Z.to_nat (rb - lb - 1)))%nat.
Proof.
  intros HN Hsw HfN Hfs.
  destruct (master_returns fuel N params lshape rshape need_gen HN Hsw HfN Hfs)
    as (lb & rb & s & Hlb & Hrb & HrbN & Hinit & Hrun).
  destruct (init_events_silent N lb rb s need_gen) as (Ho & _).
  exists lb, rb, (master_events N lb rb s need_gen (noises params) (sweeps params)).
  eexists. split; [now exists s|]. split; [exact Hrun|].
  split; [|split; [reflexivity|]].
  - unfold orders_of at 1. rewrite master_events_project.
    unfold orders_of in Ho. rewrite Ho. cbn [app]. f_equal. f_equal.
    apply flat_map_ext. intros k. unfold one_sweep. cbn [flat_map app].
    apply sweep_events_orders.
  - split; [|split].
    + apply Forall_flat_map_in. intros k _. apply sweep_orders_bond_update.
    + rewrite (count_occ_flat_map_const _ lanczos (2 * half_sweep lb rb))
        by (intros k; apply sweep_orders_count).
      now rewrite upto_length.
    + rewrite (count_occ_flat_map_const _ svd (2 * half_sweep lb rb))
        by (intros k; apply sweep_orders_count).
      now rewrite upto_length.
Qed.

Lemma master_order_stream_witness :
  exists lb rb tr mid,
    (exists s, Init.CheckAndUpdateBoundaryMPSTensors 6
                 (Dmax (MkParams 2 1 16 0%float [0.5%float]))
                 (fun _ => (1, 2, 2)) (fun _ => (2, 2, 1))
                 8 Init.empty_mps = Some (lb, rb, s))
    /\ MasterTwoSiteFiniteVMPS 8 6 (MkParams 2 1 16 0%float [0.5%float])
         (fun _ => (1, 2, 2)) (fun _ => (2, 2, 1)) false = Some tr
    /\ orders_of tr = program_start :: mid ++ [program_final]
    /\ mid = flat_map (sweep_orders lb rb
                         (default_noises (noises (MkParams 2 1 16 0%float [0.5%float]))))
               (SizeT.upto 1 (Z.to_nat (sweeps (MkParams 2 1 16 0%float [0.5%float]))))
    /\ Forall bond_update_order mid
    /\ count_occ MPS_AlGO_ORDER_eq_dec mid lanczos
       = (Z.to_nat (sweeps (MkParams 2 1 16 0%float [0.5%float]))
          * (2 * Z.to_nat (rb - lb - 1)))%nat
    /\ count_occ MPS_AlGO_ORDER_eq_dec mid svd
       = (Z.to_nat (sweeps (MkParams 2 1 16 0%float [0.5%float]))
          * (2 * Z.to_nat (rb - lb - 1)))%nat.
Proof.
  apply (master_order_stream 8 6 (MkParams 2 1 16 0%float [0.5%float])
           (fun _ => (1, 2, 2)) (fun _ => (2, 2, 1)) false).
  - rewrite SizeT.modulus_val. lia.
  - unfold SizeT.max. rewrite SizeT.modulus_val. simpl. lia.
  - simpl. lia.
  - simpl. lia.
Defined.

End Orders.

(** * The heap of the TDVP slave

    [SlaveTwoSiteFiniteTDVP] owns two tensors through raw pointers,
    [eff_ham[0]] and [eff_ham[two_site_eff_ham_size-1]]: the [lanczos] case
    allocates both, the two growing cases delete both and read one of them
    in between. *)

Module TDVPHeap.

Import TDVPSlave.

(** The heap along the receive loop: as [receive_loop], it stops at
    [program_final], at [world.abort] and when nothing is left to
    receive. *)
Fixpoint loop_heap (stream : list MPS_AlGO_ORDER) (order : MPS_AlGO_ORDER) (h : heap)
    {struct stream} : option heap :=
  if decide (order = program_final) then Some h
  else
    match stream with
    | [] => Some h
    | received :: stream' =>
        if aborts (switch received) then Some h
        else h' ← switch_heap received h; loop_heap stream' received h'
    end.

(** Nothing allocated is left behind. *)
Definition clean (h : heap) : Prop :=
  leaked h = 0%nat /\ eff_ham_0 h <> Live /\ eff_ham_3 h <> Live.

(** [lanczos] and growing orders alternate, beginning with [lanczos]
    when not [armed] and ending with a growing order. *)
Fixpoint disciplined (armed : bool) (orders : list MPS_AlGO_ORDER) : bool :=
  match orders with
  | [] => negb armed
  | lanczos :: orders' => negb armed && disciplined true orders'
  | growing_left_env :: orders' => armed && disciplined false orders'
  | growing_right_env :: orders' => armed && disciplined false orders'
  | _ :: orders' => disciplined armed orders'
  end.

Lemma loop_heap_prefix (pre : list MPS_AlGO_ORDER) :
  forall (rest : list MPS_AlGO_ORDER) (order : MPS_AlGO_ORDER) (h : heap),
    order <> program_final ->
    forallb passes pre = true ->
    loop_heap (pre ++ program_final :: rest) order h = heap_after pre h.
Proof.
  induction pre as [|o pre IH]; intros rest order h Hne Hpre.
  - cbn [app loop_heap heap_after].
    destruct (decide (order = program_final)); [contradiction|].
    destruct rest; reflexivity.
  - simpl in Hpre. apply andb_true_iff in Hpre as [Ho Hpre].
    cbn [app loop_heap heap_after].
    destruct (decide (order = program_final)); [contradiction|].
    rewrite (switch_passes_no_abort o (passes_not_abort o Ho)).
    destruct (switch_heap o h) as [h'|]; [|reflexivity].
    cbn [mbind option_bind].
    apply IH; [now apply passes_not_final|exact Hpre].
Qed.

(** The receive loop has no meaning exactly where the heap along it has
    none. *)
Lemma receive_loop_undefined (stream : list MPS_AlGO_ORDER) :
  forall (order : MPS_AlGO_ORDER) (h : heap),
    receive_loop stream order h = Undefined <-> loop_heap stream order h = None.
Proof.
  induction stream as [|o stream IH]; intros order h; cbn [receive_loop loop_heap];
    destruct (decide (order = program_final)); try (split; discriminate).
  destruct (aborts (switch o)); [split; discriminate|].
  destruct (switch_heap o h) as [h'|]; cbn [mbind option_bind]; [|split; reflexivity].
  rewrite <- IH. destruct (receive_loop stream o h'); cbn [prepend];
    split; try discriminate; reflexivity.
Qed.

Lemma switch_heap_leaked (o : MPS_AlGO_ORDER) (h h' : heap) :
  switch_heap o h = Some h' -> (leaked h <= leaked h')%nat.
Proof.
  destruct h as [p0 p3 k].
  destruct o; cbn; intros H; try (injection H as <-; cbn; lia);
    destruct p0, p3; cbn in H; try discriminate H; injection H as <-; cbn; lia.
Qed.

Lemma heap_after_leaked (orders : list MPS_AlGO_ORDER) :
  forall h h', heap_after orders h = Some h' -> (leaked h <= leaked h')%nat.
Proof.
  induction orders as [|o orders IH]; intros h h' H; cbn [heap_after] in H.
  - injection H as <-. lia.
  - destruct (switch_heap o h) as [h1|] eqn:E; [|discriminate H].
    cbn [mbind option_bind] in H.
    apply switch_heap_leaked in E. apply IH in H. lia.
Qed.

(** The heaps the loop can be in between two iterations while nothing went
    wrong: both tensors live after [lanczos] ([armed]), neither otherwise. *)
Definition settled (armed : bool) (h : heap) : Prop :=
  leaked h = 0%nat
  /\ if armed then eff_ham_0 h = Live /\ eff_ham_3 h = Live
     else eff_ham_0 h = eff_ham_3 h /\ eff_ham_0 h <> Live.

Lemma heap_after_disciplined (orders : list MPS_AlGO_ORDER) :
  forall (armed : bool) (h : heap),
    settled armed h ->
    (exists h', heap_after orders h = Some h' /\ clean h')
    <-> disciplined armed orders = true.
Proof.
  induction orders as [|o orders IH]; intros armed h Hs.
  - cbn [heap_after disciplined]. destruct h as [p0 p3 k].
    destruct Hs as [Hk Hp]. cbn in Hk, Hp. subst k. split.
    + intros (h' & [= <-] & _ & H0 & H3). cbn in H0, H3.
      destruct armed; [destruct Hp; contradiction|reflexivity].
    + destruct armed; [discriminate|]. intros _. destruct Hp as [<- Hp].
      eexists. split; [reflexivity|]. repeat split; assumption.
  - assert (Hskip : switch_heap o h = Some h ->
                    disciplined armed (o :: orders) = disciplined armed orders ->
                    (exists h', heap_after (o :: orders) h = Some h' /\ clean h')
                    <-> disciplined armed (o :: orders) = true).
    { intros E D. cbn [heap_after]. rewrite E, D. cbn [mbind option_bind].
      apply IH. exact Hs. }
    destruct h as [p0 p3 k]. destruct Hs as [Hk Hp]. cbn in Hk, Hp. subst k.
    destruct o; try (apply Hskip; [reflexivity|reflexivity]); clear Hskip;
      cbn [heap_after disciplined].
    + (* lanczos *)
      destruct armed.
      * destruct Hp as [-> ->]. cbn. split; [|discriminate].
        intros (h' & E & Hk & _). apply heap_after_leaked in E. cbn in E. lia.
      * destruct Hp as [<- Hp]. cbn [negb andb].
        replace (switch_heap lanczos (MkHeap p0 p0 0)) with (Some (MkHeap Live Live 0))
          by (destruct p0; [reflexivity|contradiction|reflexivity]).
        cbn [mbind option_bind]. apply IH. split; [reflexivity|]. split; reflexivity.
    + (* growing_left_env *)
      destruct armed.
      * destruct Hp as [-> ->]. cbn. apply IH.
        split; [reflexivity|]. split; [reflexivity|discriminate].
      * destruct Hp as [<- Hp]. cbn [andb]. split; [|discriminate].
        destruct p0; [|contradiction|]; cbn; intros (h' & E & _); discriminate E.
    + (* growing_right_env *)
      destruct armed.
      * destruct Hp as [-> ->]. cbn. apply IH.
        split; [reflexivity|]. split; [reflexivity|discriminate].
      * destruct Hp as [<- Hp]. cbn [andb]. split; [|discriminate].
        destruct p0; [|contradiction|]; cbn; intros (h' & E & _); discriminate E.
Qed.

(** X12: on a stream whose orders up to the first [program_final] neither
    abort nor stop the TDVP slave, the slave's use of its two owned
    tensors is defined (no tensor read through a null or deleted pointer,
    none deleted twice) and leaves nothing allocated or leaked when it
    returns, if and only if the [lanczos] orders and the growing orders it
    receives alternate, beginning with [lanczos] and ending with a growing
    order. *)
Theorem tdvp_slave_heap_discipline (front rest : list MPS_AlGO_ORDER) :
  forallb passes front = true ->
  (exists h, loop_heap (front ++ program_final :: rest) program_start fresh_heap = Some h
             /\ clean h)
  <-> disciplined false front = true.
Proof.
  intros Hpre.
  rewrite loop_heap_prefix by (try discriminate; exact Hpre).
  apply heap_after_disciplined.
  split; [reflexivity|]. split; [reflexivity|discriminate].
Qed.

Lemma tdvp_slave_heap_discipline_witness :
  (exists h, loop_heap ([program_start; lanczos; svd; growing_left_env;
                         lanczos; svd; growing_right_env]
                        ++ program_final :: []) program_start fresh_heap = Some h
             /\ clean h)
  <-> disciplined false [program_start; lanczos; svd; growing_left_env;
                         lanczos; svd; growing_right_env] = true.
Proof.
  apply (tdvp_slave_heap_discipline
           [program_start; lanczos; svd; growing_left_env;
            lanczos; svd; growing_right_env] []).
  reflexivity.
Defined.

(** A growing order that no [lanczos] precedes reads through the null
    pointer; a second one in a row deletes twice; a second [lanczos] in a
    row leaks both tensors. *)
Example growing_without_lanczos :
  loop_heap [program_start; growing_left_env; program_final] program_start fresh_heap
  = None
  /\ loop_heap [lanczos; growing_left_env; growing_right_env; program_final]
       program_start fresh_heap = None
  /\ loop_heap [lanczos; lanczos; growing_left_env; program_final]
       program_start fresh_heap = Some (MkHeap Freed Freed 2).
Proof. repeat split; reflexivity. Qed.

End TDVPHeap.

(** * What the fan-in of the expansion collects

    [res_list] has one entry per sector of the split index; the threads
    of the master fill it from the slaves' results. *)

Module FanInCoverage.

Import Expand.

(** The entries of [res_list] a thread receives into, and the tags (the
    sector numbers) it receives them under. *)
Definition recv_slots (script : list message) : list Z :=
  flat_map (fun m => match m with MPIRecv slot _ _ => [slot] | Send _ _ _ => [] end) script.

Definition recv_tags (script : list message) : list Z :=
  flat_map (fun m => match m with MPIRecv _ _ tag => [tag] | Send _ _ _ => [] end) script.

Lemma flat_map_cons_each {A B : Type} (a : A -> B) (f : A -> list B) (l : list A) :
  Permutation (flat_map (fun t => a t :: f t) l) (map a l ++ flat_map f l).
Proof.
  induction l as [|t l IH]; [reflexivity|].
  cbn [flat_map map app]. constructor.
  rewrite IH. rewrite !app_assoc. apply Permutation_app_tail.
  apply Permutation_app_comm.
Qed.

Lemma flat_map_insert_absent {A B : Type} `{EqDecision A}
    (t0 : A) (b : B) (f : A -> list B) (ts : list A) :
  t0 ∉ ts ->
  flat_map (fun t => if decide (t0 = t) then b :: f t else f t) ts = flat_map f ts.
Proof.
  induction ts as [|t ts IH]; intros Hnin; [reflexivity|].
  cbn [flat_map]. apply not_elem_of_cons in Hnin as [Hne Hnin].
  destruct (decide (t0 = t)); [contradiction|]. now rewrite IH.
Qed.

Lemma flat_map_insert_once {A B : Type} `{EqDecision A}
    (t0 : A) (b : B) (f : A -> list B) (ts : list A) :
  NoDup ts -> t0 ∈ ts ->
  Permutation (flat_map (fun t => if decide (t0 = t) then b :: f t else f t) ts)
    (b :: flat_map f ts).
Proof.
  induction 1 as [|t ts Hnin Hnd IH]; intros Hin.
  - now apply elem_of_nil in Hin.
  - cbn [flat_map]. destruct (decide (t0 = t)) as [->|Hne].
    + cbn [app]. now rewrite flat_map_insert_absent.
    + apply elem_of_cons in Hin as [->|Hin]; [contradiction|].
      rewrite (IH Hin). symmetry. apply Permutation_middle.
Qed.

(** The iterations of a loop, grouped by the thread that runs them, are
    the iterations of the loop. *)
Lemma grouped_by_owner (owner : Z -> Z) (ts l : list Z) :
  NoDup ts -> (forall i, i ∈ l -> owner i ∈ ts) ->
  Permutation (flat_map (fun t => filter (fun i => owner i = t) l) ts) l.
Proof.
  intros Hnd. induction l as [|i l IH]; intros Hin.
  - now rewrite Master.flat_map_nil_each by reflexivity.
  - rewrite (flat_map_ext _
               (fun t => if decide (owner i = t)
                         then i :: filter (fun j => owner j = t) l
                         else filter (fun j => owner j = t) l)).
    + rewrite flat_map_insert_once; [|exact Hnd|apply Hin; now left].
      constructor. apply IH. intros j Hj. apply Hin. now right.
    + intros t. rewrite filter_cons. reflexivity.
Qed.

Lemma map_shift_upto (d lo : Z) (n : nat) :
  map (fun i => i + d) (SizeT.upto lo n) = SizeT.upto (lo + d) n.
Proof.
  revert lo. induction n as [|n IH]; intros lo; [reflexivity|].
  cbn [SizeT.upto map]. f_equal. rewrite IH. f_equal. lia.
Qed.

Lemma map_nth_upto (l : list Z) :
  map (fun i => nth (Z.to_nat i) l 0) (SizeT.upto 0 (length l)) = l.
Proof.
  assert (H : forall (pre : list Z),
             map (fun i => nth (Z.to_nat i) (pre ++ l) 0)
               (SizeT.upto (Z.of_nat (length pre)) (length l)) = l).
  { induction l as [|x l IH]; intros pre; [reflexivity|].
    cbn [length SizeT.upto map]. f_equal.
    - rewrite Nat2Z.id, app_nth2, Nat.sub_diag by lia. reflexivity.
    - specialize (IH (pre ++ [x])). rewrite <- app_assoc in IH. cbn [app] in IH.
      rewrite length_app in IH. cbn [length] in IH.
      replace (Z.of_nat (length pre) + 1) with (Z.of_nat (length pre + 1)) by lia.
      exact IH. }
  exact (H []).
Qed.

Lemma map_of_flat_map {A B C : Type} (g : B -> C) (f : A -> list B) (l : list A) :
  flat_map (fun a => map g (f a)) l = map g (flat_map f l).
Proof.
  induction l as [|a l IH]; [reflexivity|].
  cbn [flat_map]. now rewrite map_app, IH.
Qed.

Lemma flat_map_ext_In {A B : Type} (f g : A -> list B) (l : list A) :
  (forall a, In a l -> f a = g a) -> flat_map f l = flat_map g l.
Proof.
  induction l as [|a l IH]; intros H; [reflexivity|].
  cbn [flat_map]. rewrite (H a) by now left.
  rewrite IH; [reflexivity|]. intros b Hb. apply H. now right.
Qed.

Lemma flat_map_singleton {A : Type} (l : list A) : flat_map (fun a => [a]) l = l.
Proof. induction l as [|a l IH]; [reflexivity|]. cbn [flat_map app]. now rewrite IH. Qed.

Section Coverage.

Variable std_sort : (Z -> Z -> bool) -> list Z -> list Z.
Hypothesis std_sort_perm : forall cmp l, Permutation (std_sort cmp l) l.
Variable slave_size : Z.
Variable degeneracies : list Z.
Variable omp_team : Z -> Z.
Variable owner : Z -> Z.

Local Abbreviation tasks := (task_size degeneracies).
Local Abbreviation arranged := (arraging_tasks std_sort slave_size degeneracies).
Local Abbreviation iterations := (iterations_of slave_size degeneracies owner).
Local Abbreviation few := (thread_few_slaves std_sort slave_size degeneracies owner).
Local Abbreviation many := (thread_many_slaves degeneracies).

Hypothesis slave_size_nonneg : 0 <= slave_size.
Hypothesis tasks_fit : 2 * tasks < SizeT.modulus.
Hypothesis owner_is_a_thread :
  forall i, 0 <= i < tasks - slave_size -> 0 <= owner i < slave_size.

(** The team of the parallel region has the size its [num_threads] clause
    asks for: [slave_size] threads in the first branch, [task_size] in the
    second. *)
Hypothesis team_as_requested :
  omp_team (Z.min slave_size tasks) = Z.min slave_size tasks.

Lemma iterations_in_range t i :
  slave_size < tasks -> In i (iterations t) -> 0 <= i < tasks - slave_size.
Proof.
  intros Hlt Hi. unfold iterations_of in Hi.
  apply list_elem_of_In, list_elem_of_filter in Hi as [_ Hi].
  apply list_elem_of_In, SizeT.upto_In in Hi.
  rewrite SizeT.sub_small in Hi by lia. lia.
Qed.

Lemma few_received t :
  slave_size < tasks -> 0 <= t < slave_size ->
  recv_slots (few t) = t :: map (fun i => i + slave_size) (iterations t)
  /\ recv_tags (few t) = t :: map (fun i => nth (Z.to_nat i) arranged 0) (iterations t).
Proof.
  intros Hlt Ht. unfold thread_few_slaves.
  rewrite (SizeT.add_small t 1), (SizeT.sub_small (t + 1) 1) by lia.
  replace (t + 1 - 1) with t by lia.
  unfold recv_slots, recv_tags. rewrite !flat_map_app. cbn [flat_map app].
  rewrite !app_nil_r. split; f_equal.
  - rewrite Master.flat_map_nested, <- (flat_map_singleton (map _ _)), Orders.flat_map_map.
    apply flat_map_ext_In. intros i Hi. apply iterations_in_range in Hi; [|exact Hlt].
    cbn. now rewrite SizeT.add_small by lia.
  - rewrite Master.flat_map_nested, <- (flat_map_singleton (map _ _)), Orders.flat_map_map.
    apply flat_map_ext. intros i. reflexivity.
Qed.

Lemma all_iterations :
  slave_size < tasks ->
  Permutation (flat_map iterations (SizeT.upto 0 (Z.to_nat slave_size)))
    (SizeT.upto 0 (Z.to_nat (tasks - slave_size))).
Proof.
  intros Hlt. unfold iterations_of. rewrite SizeT.sub_small by lia.
  apply grouped_by_owner.
  - apply upto_NoDup.
  - intros i Hi. apply list_elem_of_In, SizeT.upto_In in Hi.
    apply list_elem_of_In, SizeT.upto_In.
    specialize (owner_is_a_thread i ltac:(lia)). lia.
Qed.

Lemma many_received t :
  0 <= t < tasks -> recv_slots (many t) = [t] /\ recv_tags (many t) = [t].
Proof.
  intros Ht. unfold thread_many_slaves.
  rewrite (SizeT.add_small t 1), (SizeT.sub_small (t + 1) 1) by lia.
  replace (t + 1 - 1) with t by lia. split; reflexivity.
Qed.

Lemma arranged_all :
  slave_size < tasks ->
  Permutation
    (map (fun i => nth (Z.to_nat i) arranged 0)
       (SizeT.upto 0 (Z.to_nat (tasks - slave_size))))
    (SizeT.upto slave_size (Z.to_nat (tasks - slave_size))).
Proof.
  intros Hlt.
  assert (Hlen : length arranged = Z.to_nat (tasks - slave_size)).
  { unfold arraging_tasks. rewrite (Permutation_length (std_sort_perm _ _)).
    rewrite SizeT.sub_small by lia. apply Master.upto_length. }
  rewrite <- Hlen at 1. rewrite map_nth_upto.
  unfold arraging_tasks. rewrite SizeT.sub_small by lia. apply std_sort_perm.
Qed.

(** X13: when the runtime forms the team the [num_threads] clause asks
    for, then over all the threads of the fan-in every entry of [res_list]
    is received into exactly once, and the result of every sector is
    received exactly once.  An entry below [slave_size] holds the result of
    the sector of its own number; entry [i + slave_size] holds the result
    of sector [arraging_tasks[i]], the task handed out in iteration [i]. *)
Theorem res_list_filled_once :
  Permutation
    (flat_map recv_slots (fan_in std_sort slave_size degeneracies omp_team owner))
    (SizeT.upto 0 (Z.to_nat tasks))
  /\ Permutation
       (flat_map recv_tags (fan_in std_sort slave_size degeneracies omp_team owner))
       (SizeT.upto 0 (Z.to_nat tasks))
  /\ (forall script slot source tag,
        In script (fan_in std_sort slave_size degeneracies omp_team owner) ->
        In (MPIRecv slot source tag) script ->
        tag = if slot <? slave_size then slot
              else nth (Z.to_nat (slot - slave_size)) arranged 0).
Proof.
  assert (Hts : 0 <= tasks) by (unfold task_size; lia).
  pose proof team_as_requested as Hteam.
  unfold fan_in. destruct (Z.ltb_spec slave_size tasks) as [Hlt|Hge];
    [rewrite Z.min_l in Hteam by lia|rewrite Z.min_r in Hteam by lia];
    rewrite Hteam.
  - assert (Hsplit : SizeT.upto 0 (Z.to_nat tasks)
                     = SizeT.upto 0 (Z.to_nat slave_size)
                       ++ SizeT.upto slave_size (Z.to_nat (tasks - slave_size))).
    { replace (Z.to_nat tasks)
        with (Z.to_nat slave_size + Z.to_nat (tasks - slave_size))%nat by lia.
      rewrite <- upto_app. do 2 f_equal. lia. }
    split; [|split].
    + rewrite Orders.flat_map_map.
      rewrite (flat_map_ext_In _
                 (fun t => t :: map (fun i => i + slave_size) (iterations t)))
        by (intros t Ht; apply SizeT.upto_In in Ht; apply few_received; lia).
      rewrite flat_map_cons_each, map_id, map_of_flat_map, Hsplit.
      apply Permutation_app_head.
      rewrite (Permutation_map _ (all_iterations Hlt)), map_shift_upto.
      reflexivity.
    + rewrite Orders.flat_map_map.
      rewrite (flat_map_ext_In _
                 (fun t => t :: map (fun i => nth (Z.to_nat i) arranged 0)
                                 (iterations t)))
        by (intros t Ht; apply SizeT.upto_In in Ht; apply few_received; lia).
      rewrite flat_map_cons_each, map_id, map_of_flat_map, Hsplit.
      apply Permutation_app_head.
      rewrite (Permutation_map _ (all_iterations Hlt)).
      apply arranged_all. exact Hlt.
    + intros script slot source tag Hs Hm.
      apply in_map_iff in Hs as (t & <- & Ht). apply SizeT.upto_In in Ht.
      unfold thread_few_slaves in Hm.
      rewrite (SizeT.add_small t 1), (SizeT.sub_small (t + 1) 1) in Hm by lia.
      replace (t + 1 - 1) with t in Hm by lia.
      cbn [app] in Hm. destruct Hm as [[= <- <- <-]|Hm].
      * destruct (Z.ltb_spec t slave_size); [reflexivity|lia].
      * apply in_app_or in Hm as [Hm|[[=]|[]]].
        apply in_flat_map in Hm as (i & Hi & Hm).
        apply iterations_in_range in Hi; [|exact Hlt].
        destruct Hm as [[=]|[[= <- <- <-]|[]]].
        rewrite SizeT.add_small by lia.
        destruct (Z.ltb_spec (i + slave_size) slave_size); [lia|].
        do 2 f_equal. lia.
  - split; [|split].
    + rewrite Orders.flat_map_map.
      rewrite (flat_map_ext_In _ (fun t => [t]))
        by (intros t Ht; apply SizeT.upto_In in Ht; apply many_received; lia).
      now rewrite flat_map_singleton.
    + rewrite Orders.flat_map_map.
      rewrite (flat_map_ext_In _ (fun t => [t]))
        by (intros t Ht; apply SizeT.upto_In in Ht; apply many_received; lia).
      now rewrite flat_map_singleton.
    + intros script slot source tag Hs Hm.
      apply in_map_iff in Hs as (t & <- & Ht). apply SizeT.upto_In in Ht.
      unfold thread_many_slaves in Hm.
      rewrite (SizeT.add_small t 1), (SizeT.sub_small (t + 1) 1) in Hm by lia.
      replace (t + 1 - 1) with t in Hm by lia.
      destruct Hm as [[= <- <- <-]|[[=]|[]]].
      destruct (Z.ltb_spec t slave_size); [reflexivity|lia].
Qed.

(** *** Matching sends and receives *)

(** What a master thread receives, as (source, tag), and what it sends,
    as (destination, tag, value); what a slave sends to the master, by
    tag, and what it receives from the master, as (tag, value). *)
Definition thread_recvs (script : list message) : list (Z * Z) :=
  flat_map (fun m => match m with
                     | MPIRecv _ source tag => [(source, tag)]
                     | Send _ _ _ => []
                     end) script.

Definition thread_sends (script : list message) : list (Z * Z * Z) :=
  flat_map (fun m => match m with
                     | Send dest tag value => [(dest, tag, value)]
                     | MPIRecv _ _ _ => []
                     end) script.

Definition slave_sends (acts : list slave_action) : list Z :=
  flat_map (fun a => match a with MPISend tag => [tag] | _ => [] end) acts.

Definition slave_recvs (acts : list slave_action) : list (Z * Z) :=
  flat_map (fun a => match a with Recv tag value => [(tag, value)] | _ => [] end) acts.

Lemma slave_while_messages (slave_identifier fin : Z) (inbox : list Z) :
  tasks <= fin ->
  forall task0,
    task0 < tasks -> Forall (fun x => x < tasks) inbox ->
    exists acts,
      slave_while degeneracies slave_identifier (inbox ++ [fin]) task0 = Some (acts, [])
      /\ slave_sends acts = task0 :: inbox
      /\ slave_recvs acts = map (pair (SizeT.mul 2 slave_identifier)) (inbox ++ [fin]).
Proof.
  intros Hfin. induction inbox as [|x inbox IH]; intros task0 H0 Hall.
  - cbn [app slave_while].
    destruct (Z.ltb_spec task0 tasks); [|lia].
    destruct (Z.ltb_spec fin tasks); [lia|].
    cbn [mbind option_bind]. eexists. split; [reflexivity|]. split; reflexivity.
  - apply List.Forall_cons_iff in Hall as [Hx Hall].
    cbn [app slave_while].
    destruct (Z.ltb_spec task0 tasks); [|lia].
    destruct (IH x Hx Hall) as (acts & -> & Hs & Hr).
    cbn [mbind option_bind]. eexists. split; [reflexivity|].
    unfold slave_sends, slave_recvs in *. cbn [app flat_map map].
    rewrite Hs, Hr. split; reflexivity.
Qed.

Lemma slave_expand_messages (slave_identifier fin : Z) (inbox : list Z) :
  1 <= slave_identifier <= tasks -> tasks < SizeT.modulus ->
  tasks <= fin ->
  Forall (fun x => x < tasks) inbox ->
  exists acts,
    SlaveTwoSiteFiniteVMPSExpand degeneracies slave_identifier (inbox ++ [fin])
    = Some (acts, [])
    /\ slave_sends acts = (slave_identifier - 1) :: inbox
    /\ slave_recvs acts = map (pair (SizeT.mul 2 slave_identifier)) (inbox ++ [fin]).
Proof.
  intros Hid Hmod Hfin Hall. unfold SlaveTwoSiteFiniteVMPSExpand.
  destruct (Z.ltb_spec tasks slave_identifier); [lia|].
  rewrite SizeT.sub_small by lia.
  destruct inbox as [|x inbox].
  - cbn [app slave_while]. destruct (Z.ltb_spec fin tasks); [lia|].
    cbn [mbind option_bind]. eexists. split; [reflexivity|]. split; reflexivity.
  - apply List.Forall_cons_iff in Hall as [Hx Hall]. cbn [app].
    destruct (slave_while_messages slave_identifier fin inbox Hfin x Hx Hall)
      as (acts & -> & Hs & Hr).
    cbn [mbind option_bind]. eexists. split; [reflexivity|].
    unfold slave_sends, slave_recvs in *. cbn [app flat_map map].
    rewrite Hs, Hr. split; reflexivity.
Qed.

Lemma dispatch_messages (k : Z) (its : list Z) :
  thread_recvs (flat_map (dispatch std_sort slave_size degeneracies k) its)
  = map (pair k) (map (fun i => nth (Z.to_nat i) arranged 0) its)
  /\ thread_sends (flat_map (dispatch std_sort slave_size degeneracies k) its)
     = map (fun v => (k, SizeT.mul 2 k, v))
         (map (fun i => nth (Z.to_nat i) arranged 0) its).
Proof.
  induction its as [|i its [IH1 IH2]]; [split; reflexivity|].
  unfold thread_recvs, thread_sends in *. cbn [flat_map map].
  rewrite !flat_map_app, IH1, IH2. split; reflexivity.
Qed.

(** The script of the thread [omp_get_thread_num() = t]. *)
Definition script_of (t : Z) : list message :=
  if slave_size <? tasks then few t else many t.

(** X14: each master thread and the slave it controls agree on every
    message.  Run on what thread [t] sends, slave [t+1] returns with
    nothing unread; the results the thread receives are, in order and tag
    by tag, the ones the slave sends; and the values the thread sends are,
    in order and under the tag [2*(t+1)], the ones the slave receives. *)
Theorem expansion_messages_match (t : Z) :
  0 <= t < (if slave_size <? tasks then slave_size else tasks) ->
  exists acts,
    SlaveTwoSiteFiniteVMPSExpand degeneracies (t + 1) (sent_values (script_of t))
    = Some (acts, [])
    /\ thread_recvs (script_of t) = map (pair (t + 1)) (slave_sends acts)
    /\ thread_sends (script_of t)
       = map (fun tv : Z * Z => (t + 1, fst tv, snd tv)) (slave_recvs acts).
Proof.
  intros Ht. unfold script_of in *.
  assert (Hts : 0 <= tasks) by (unfold task_size; lia).
  assert (Hfin : SizeT.mul 2 tasks = 2 * tasks)
    by (unfold SizeT.mul; apply SizeT.wrap_small; lia).
  destruct (Z.ltb_spec slave_size tasks) as [Hlt|Hge].
  - rewrite sent_values_few_slaves.
    destruct (slave_expand_messages (t + 1) (SizeT.mul 2 tasks)
                (dispatched std_sort slave_size degeneracies owner t))
      as (acts & Hrun & Hs & Hr);
      [lia|lia|lia|apply dispatched_range; [exact std_sort_perm|lia|lia]|].
    exists acts. split; [exact Hrun|]. rewrite Hs, Hr.
    unfold thread_few_slaves.
    rewrite (SizeT.add_small t 1), (SizeT.sub_small (t + 1) 1) by lia.
    replace (t + 1 - 1) with t by lia.
    destruct (dispatch_messages (t + 1) (iterations t)) as [Hd1 Hd2].
    unfold thread_recvs, thread_sends, dispatched in *.
    rewrite !flat_map_app, Hd1, Hd2. cbn [flat_map app map].
    rewrite app_nil_r. split; [reflexivity|].
    rewrite !map_app, !map_map. reflexivity.
  - change (sent_values (many t)) with ([] ++ [SizeT.mul 2 tasks]).
    destruct (slave_expand_messages (t + 1) (SizeT.mul 2 tasks) [])
      as (acts & Hrun & Hs & Hr); [lia|lia|lia|constructor|].
    exists acts. split; [exact Hrun|]. rewrite Hs, Hr.
    unfold thread_many_slaves.
    rewrite (SizeT.add_small t 1), (SizeT.sub_small (t + 1) 1) by lia.
    split; reflexivity.
Qed.

End Coverage.

Lemma res_list_filled_once_witness :
  Permutation
    (flat_map recv_slots (fan_in insertion_sort 2 five_sectors as_requested alternate))
    (SizeT.upto 0 (Z.to_nat (task_size five_sectors)))
  /\ Permutation
       (flat_map recv_tags (fan_in insertion_sort 2 five_sectors as_requested alternate))
       (SizeT.upto 0 (Z.to_nat (task_size five_sectors)))
  /\ (forall script slot source tag,
        In script (fan_in insertion_sort 2 five_sectors as_requested alternate) ->
        In (MPIRecv slot source tag) script ->
        tag = if slot <? 2 then slot
              else nth (Z.to_nat (slot - 2))
                     (arraging_tasks insertion_sort 2 five_sectors) 0).
Proof.
  apply (res_list_filled_once insertion_sort insertion_sort_perm 2 five_sectors
           as_requested alternate).
  - lia.
  - rewrite SizeT.modulus_val. unfold task_size, five_sectors. simpl. lia.
  - intros i Hi. unfold alternate. apply Z.mod_pos_bound. lia.
  - reflexivity.
Defined.

Lemma expansion_messages_match_witness :
  exists acts,
    SlaveTwoSiteFiniteVMPSExpand five_sectors (1 + 1)
      (sent_values (script_of insertion_sort 2 five_sectors alternate 1))
    = Some (acts, [])
    /\ thread_recvs (script_of insertion_sort 2 five_sectors alternate 1)
       = map (pair (1 + 1)) (slave_sends acts)
    /\ thread_sends (script_of insertion_sort 2 five_sectors alternate 1)
       = map (fun tv : Z * Z => (1 + 1, fst tv, snd tv)) (slave_recvs acts).
Proof.
  apply (expansion_messages_match insertion_sort insertion_sort_perm 2 five_sectors
           alternate).
  - lia.
  - rewrite SizeT.modulus_val. unfold task_size, five_sectors. simpl. lia.
  - unfold task_size, five_sectors. simpl. lia.
Defined.

(** With sectors of degeneracies 3, 1, 4, 1, 5 and two slaves, entries 2,
    3 and 4 of [res_list] hold the results of sectors 4, 2 and 3. *)
Example res_list_out_of_sector_order :
  flat_map recv_slots (fan_in insertion_sort 2 five_sectors as_requested alternate)
  = [0; 2; 4; 1; 3]
  /\ flat_map recv_tags (fan_in insertion_sort 2 five_sectors as_requested alternate)
     = [0; 4; 3; 1; 2].
Proof. split; vm_compute; reflexivity. Qed.

(** The team matters.  With five slaves for seven sectors and a runtime
    that forms a team of four threads only, no thread controls slave 5:
    entry 4 of [res_list], the result of the task that slave takes on its
    own, is never received. *)
Example smaller_team_leaves_an_entry_empty :
  flat_map recv_slots
    (fan_in insertion_sort 5 [3; 1; 4; 1; 5; 9; 2] (fun _ => 4) (fun i => i mod 4))
  = [0; 5; 1; 6; 2; 3].
Proof. vm_compute. reflexivity. Qed.

End FanInCoverage.

(** * The path a term adds to the generator *)

Module MPOGenPaths.

Import MPOGen.

#[local] Arguments N_ {_ _ _ _} _.
#[local] Arguments id_op_vector_ {_ _ _ _} _.
#[local] Arguments fsm_ {_ _ _ _} _.
#[local] Arguments coef_label_convertor_ {_ _ _ _} _.
#[local] Arguments op_label_convertor_ {_ _ _ _} _.
#[local] Arguments MkGen {_ _ _ _} _ _ _ _ _.
#[local] Arguments AddTerm_asserts {_ _ _ _} _ _ _.

(** [int] is 32 bits wide. *)
Definition INT_MAX : Z := 2 ^ 31 - 1.

Lemma find_loc_head (i : Z) (l : list Z) : find_loc i (i :: l) = Some O.
Proof. cbn [find_loc]. now rewrite Z.eqb_refl. Qed.

Lemma find_loc_not_head (h i : Z) (l : list Z) :
  i <> h -> find_loc i (h :: l) <> Some O.
Proof.
  intros Hne. cbn [find_loc]. destruct (Z.eqb_spec h i) as [->|_]; [contradiction|].
  destruct (find_loc i l); discriminate.
Qed.

Lemma find_loc_lt (i : Z) (l : list Z) (n : nat) :
  find_loc i l = Some n -> (n < length l)%nat.
Proof.
  revert n. induction l as [|x l IH]; intros n H; cbn [find_loc] in H; [discriminate|].
  destruct (x =? i).
  - injection H as <-. cbn [length]. lia.
  - destruct (find_loc i l) as [m|]; [|discriminate]. injection H as <-.
    specialize (IH m eq_refl). cbn [length]. lia.
Qed.

Lemma last_some (l : list Z) (a : Z) :
  List.last (map Some (a :: l)) None = Some (List.last l a).
Proof.
  revert a. induction l as [|b l IH]; intros a; [reflexivity|].
  change (List.last (map Some (b :: l)) None = Some (List.last (b :: l) a)).
  rewrite IH. f_equal. symmetry. apply TDVPSlave.last_cons_default.
Qed.

Lemma is_sorted_head_le_last (a : Z) (l : list Z) :
  is_sorted (a :: l) = true -> a <= List.last l a.
Proof.
  revert a. induction l as [|b l IH]; intros a H; [cbn; lia|].
  cbn [is_sorted] in H. apply andb_true_iff in H as [Hab H].
  apply Z.leb_le in Hab. specialize (IH b H).
  rewrite TDVPSlave.last_cons_default. lia.
Qed.

Section Paths.

Variable TenElemType : Type.
Variable elem_eqb : TenElemType -> TenElemType -> bool.
Variable elem_zero : TenElemType.
Variable GQTensorT : Type.
Variable CoefLabel OpLabel OpRepr : Type.
Variable CoefConvertor OpConvertor FSM : Type.
Variable coef_Convert : TenElemType -> CoefConvertor -> CoefLabel * CoefConvertor.
Variable op_Convert : GQTensorT -> OpConvertor -> OpLabel * OpConvertor.
Variable OpRepr_coef_op : CoefLabel -> OpLabel -> OpRepr.
Variable OpRepr_op : OpLabel -> OpRepr.
Variable fsm_AddPath : Z -> Z -> list OpRepr -> FSM -> FSM.

Local Abbreviation generator_t := (MPOGenerator GQTensorT CoefConvertor OpConvertor FSM).
Local Abbreviation site :=
  (site_repr GQTensorT CoefLabel OpLabel OpRepr CoefConvertor OpConvertor FSM
     op_Convert OpRepr_coef_op OpRepr_op).
Local Abbreviation add_term :=
  (AddTerm TenElemType elem_eqb elem_zero GQTensorT CoefLabel OpLabel OpRepr
     CoefConvertor OpConvertor FSM coef_Convert op_Convert OpRepr_coef_op OpRepr_op
     fsm_AddPath).

(** The sites after the first: each pushes a representation without
    coefficient, found in [local_ops] or taken from [id_op_vector_]. *)
Lemma later_sites (coef_label : CoefLabel) (g : generator_t)
    (local_ops : list GQTensorT) (h : Z) (rest : list Z) (n : nat) :
  forall (i : Z) (conv : OpConvertor) (acc : list OpRepr),
    h < i -> 0 <= i ->
    i + Z.of_nat n <= Z.of_nat (length (id_op_vector_ g)) ->
    length local_ops = length (h :: rest) ->
    exists conv' labels,
      SizeT.run_over (site coef_label g local_ops (h :: rest)) (SizeT.upto i n) (conv, acc)
      = Some (conv', acc ++ map OpRepr_op labels)
      /\ length labels = n.
Proof.
  induction n as [|n IH]; intros i conv acc Hh Hi Hn Hlen.
  - exists conv, []. cbn [SizeT.upto SizeT.run_over map]. now rewrite app_nil_r.
  - cbn [SizeT.upto SizeT.run_over].
    assert (Hstep : exists conv1 label,
               site coef_label g local_ops (h :: rest) i (conv, acc)
               = Some (conv1, acc ++ [OpRepr_op label])).
    { unfold site_repr.
      destruct (find_loc i (h :: rest)) as [[|loc]|] eqn:Ef.
      - exfalso. revert Ef. apply find_loc_not_head. lia.
      - apply find_loc_lt in Ef. rewrite <- Hlen in Ef.
        destruct (nth_error local_ops (S loc)) as [op|] eqn:En;
          [|apply nth_error_None in En; lia].
        cbn [mbind option_bind]. destruct (op_Convert op conv) as [label conv1].
        now exists conv1, label.
      - destruct (Z.ltb_spec i 0); [lia|].
        destruct (nth_error (id_op_vector_ g) (Z.to_nat i)) as [op|] eqn:En;
          [|apply nth_error_None in En; lia].
        cbn [mbind option_bind]. destruct (op_Convert op conv) as [label conv1].
        now exists conv1, label. }
    destruct Hstep as (conv1 & label & ->).
    destruct (IH (i + 1) conv1 (acc ++ [OpRepr_op label])) as (conv' & labels & -> & Hl);
      [lia|lia|lia|exact Hlen|].
    exists conv', (label :: labels). split.
    + cbn [map]. now rewrite <- app_assoc.
    + cbn [length]. now rewrite Hl.
Qed.

(** X15: [AddTerm] with a non-zero coefficient, once its asserts have
    passed on a generator with one identity operator per site, returns
    with exactly one path added to the finite-state machine: it runs from
    the first to the last site index of the term, carries one
    representation per site in between (none is skipped), and the
    coefficient label is attached to the representation of the first site
    and to no other.  [N_] and the identity operators are unchanged. *)
Theorem AddTerm_adds_one_path
    (coef : TenElemType) (local_ops : list GQTensorT) (h : Z) (rest : list Z)
    (g : generator_t) :
  elem_eqb coef elem_zero = false ->
  AddTerm_asserts g local_ops (h :: rest) = true ->
  0 <= h -> List.last rest h <= INT_MAX ->
  length (id_op_vector_ g) = Z.to_nat (N_ g) ->
  exists coef_label cconv oconv op_label labels,
    coef_Convert coef (coef_label_convertor_ g) = (coef_label, cconv)
    /\ add_term coef local_ops (h :: rest) g
       = Some (MkGen (N_ g) (id_op_vector_ g)
                 (fsm_AddPath h (List.last rest h)
                    (OpRepr_coef_op coef_label op_label :: map OpRepr_op labels)
                    (fsm_ g))
                 cconv oconv)
    /\ Z.of_nat (length labels) = List.last rest h - h.
Proof.
  intros Hz Ha Hh Hmax Hid. unfold AddTerm. rewrite Ha, Hz. cbn [negb].
  unfold AddTerm_asserts in Ha.
  apply andb_true_iff in Ha as [Ha Hback]. apply andb_true_iff in Ha as [Hlen Hsorted].
  apply Nat.eqb_eq in Hlen. rewrite last_some in Hback |- *.
  pose proof (is_sorted_head_le_last h rest Hsorted) as Hle.
  rewrite SizeT.wrap_small in Hback
    by (unfold INT_MAX in Hmax; rewrite SizeT.modulus_val; lia).
  apply Z.ltb_lt in Hback.
  destruct (coef_Convert coef (coef_label_convertor_ g)) as [coef_label cconv].
  cbn [head mbind option_bind].
  replace (Z.to_nat (List.last rest h - h + 1))
    with (S (Z.to_nat (List.last rest h - h))) by lia.
  cbn [SizeT.upto SizeT.run_over].
  destruct local_ops as [|op0 ops]; [discriminate Hlen|].
  unfold site_repr at 1. rewrite find_loc_head. cbn [nth_error mbind option_bind].
  destruct (op_Convert op0 (op_label_convertor_ g)) as [op_label conv1].
  destruct (later_sites coef_label g (op0 :: ops) h rest
              (Z.to_nat (List.last rest h - h)) (h + 1) conv1
              ([] ++ [OpRepr_coef_op coef_label op_label]))
    as (oconv & labels & -> & Hl); [lia|lia|lia|exact Hlen|].
  cbn [mbind option_bind app].
  exists coef_label, cconv, oconv, op_label, labels.
  split; [reflexivity|]. split; [reflexivity|]. lia.
Qed.

(** *** Physical operators with insertion operators *)

(** [kNullIntVecVec] of [consts.h], the default of [inst_ops_idxs_set]. *)
Variable kNullIntVecVec : list (list Z).

(** The four [assert]s at the head of the overload. *)
Definition AddTerm_inst_asserts (phys_ops : list GQTensorT) (phys_ops_idxs : list Z)
    (inst_ops : list GQTensorT) (inst_ops_idxs_set : list (list Z)) : bool :=
  (2 <=? length phys_ops)%nat
  && (length phys_ops =? length phys_ops_idxs)%nat
  && ((length inst_ops =? length phys_ops - 1)%nat
      || (length inst_ops =? length phys_ops)%nat)
  && (if decide (inst_ops_idxs_set <> kNullIntVecVec)
      then (length inst_ops_idxs_set =? length inst_ops)%nat else true).

(** The body of [for (int i = 0; i < phys_ops.size()-1; ++i)].  After the
    asserts every subscript is in range; [None] otherwise. *)
Definition phys_segment (phys_ops : list GQTensorT) (phys_ops_idxs : list Z)
    (inst_ops : list GQTensorT) (inst_ops_idxs_set : list (list Z))
    (i : Z) (st : list GQTensorT * list Z) : option (list GQTensorT * list Z) :=
  let '(local_ops, local_ops_idxs) := st in
  op ← nth_error phys_ops (Z.to_nat i);
  idx ← nth_error phys_ops_idxs (Z.to_nat i);
  inst ← nth_error inst_ops (Z.to_nat i);
  if decide (inst_ops_idxs_set = kNullIntVecVec) then
    next ← nth_error phys_ops_idxs (Z.to_nat (i + 1));
    let js := SizeT.upto (idx + 1) (Z.to_nat (next - (idx + 1))) in
    Some (local_ops ++ [op] ++ map (fun _ => inst) js, local_ops_idxs ++ [idx] ++ js)
  else
    js ← nth_error inst_ops_idxs_set (Z.to_nat i);
    Some (local_ops ++ [op] ++ map (fun _ => inst) js, local_ops_idxs ++ [idx] ++ js).

(** [for (int j = phys_ops_idxs.back(); j < N_; ++j)]: [N_] is unsigned,
    so [j] is converted for the comparison. *)
Fixpoint tail_string (fuel : nat) (j N : Z) : option (list Z) :=
  match fuel with
  | O => None
  | S fuel' =>
      if SizeT.wrap j <? N then cons j <$> tail_string fuel' (j + 1) N
      else Some []
  end.

(** [MPOGenerator::AddTerm(coef, phys_ops, phys_ops_idxs, inst_ops,
    inst_ops_idxs_set)]. *)
Definition AddTerm_inst (fuel : nat) (coef : TenElemType)
    (phys_ops : list GQTensorT) (phys_ops_idxs : list Z)
    (inst_ops : list GQTensorT) (inst_ops_idxs_set : list (list Z))
    (g : generator_t) : option generator_t :=
  if negb (AddTerm_inst_asserts phys_ops phys_ops_idxs inst_ops inst_ops_idxs_set)
  then None
  else
    '(local_ops, local_ops_idxs) ←
       SizeT.run_over (phys_segment phys_ops phys_ops_idxs inst_ops inst_ops_idxs_set)
         (SizeT.upto 0 (length phys_ops - 1)) ([], []);
    back_op ← List.last (map Some phys_ops) None;
    back_idx ← List.last (map Some phys_ops_idxs) None;
    let local_ops := local_ops ++ [back_op] in
    let local_ops_idxs := local_ops_idxs ++ [back_idx] in
    '(local_ops, local_ops_idxs) ←
       (if (length inst_ops =? length phys_ops)%nat then
          tail_op ← List.last (map Some inst_ops) None;
          js ← (if decide (inst_ops_idxs_set = kNullIntVecVec)
                then tail_string fuel back_idx (N_ g)
                else List.last (map Some inst_ops_idxs_set) None);
          Some (local_ops ++ map (fun _ => tail_op) js, local_ops_idxs ++ js)
        else Some (local_ops, local_ops_idxs));
    add_term coef local_ops local_ops_idxs g.

(** Strictly ascending site indexes. *)
Fixpoint ascending (l : list Z) : bool :=
  match l with
  | a :: (b :: _) as l' => (a <? b) && ascending l'
  | _ => true
  end.

Lemma ascending_nth (l : list Z) :
  ascending l = true ->
  forall (k : nat) (a b : Z),
    nth_error l k = Some a -> nth_error l (S k) = Some b -> a < b.
Proof.
  induction l as [|x l IH]; intros Hasc k a b Ha Hb; [destruct k; discriminate Ha|].
  destruct l as [|y l]; [destruct k; discriminate Hb|].
  cbn [ascending] in Hasc. apply andb_true_iff in Hasc as [Hxy Hasc].
  apply Z.ltb_lt in Hxy. destruct k as [|k].
  - cbn in Ha, Hb. injection Ha as <-. injection Hb as <-. exact Hxy.
  - apply (IH Hasc k a b); assumption.
Qed.

Lemma back_nth {A : Type} (l : list A) :
  List.last (map Some l) None = nth_error l (length l - 1).
Proof.
  induction l as [|a l IH]; [reflexivity|].
  destruct l as [|b l]; [reflexivity|].
  change (List.last (map Some (b :: l)) None = nth_error (a :: b :: l) (length (a :: b :: l) - 1)).
  rewrite IH. cbn [length]. replace (S (S (length l)) - 1)%nat with (S (length l)) by lia.
  cbn [nth_error]. f_equal. lia.
Qed.

Lemma ascending_le (l : list Z) :
  ascending l = true ->
  forall (d k : nat) (a b : Z),
    nth_error l k = Some a -> nth_error l (k + d) = Some b -> a <= b.
Proof.
  intros Hasc. induction d as [|d IH]; intros k a b Ha Hb.
  - rewrite Nat.add_0_r, Ha in Hb. injection Hb as <-. lia.
  - replace (k + S d)%nat with (S (k + d)) in Hb by lia.
    destruct (nth_error l (k + d)) as [c|] eqn:Ec.
    + specialize (IH k a c Ha Ec).
      pose proof (ascending_nth l Hasc (k + d) c b Ec Hb). lia.
    + apply nth_error_None in Ec.
      assert (nth_error l (S (k + d)) = None) by (apply nth_error_None; lia).
      congruence.
Qed.

Lemma nth_error_const {A B : Type} (c : B) (l : list A) (i : nat) :
  (i < length l)%nat -> nth_error (map (fun _ => c) l) i = Some c.
Proof.
  revert i. induction l as [|a l IH]; intros i Hi; cbn [length] in Hi; [lia|].
  destruct i as [|i]; [reflexivity|]. cbn [map nth_error]. apply IH. lia.
Qed.

Lemma find_loc_upto (lo : Z) (n : nat) (rest : list Z) (j : Z) :
  lo <= j < lo + Z.of_nat n ->
  find_loc j (SizeT.upto lo n ++ rest) = Some (Z.to_nat (j - lo)).
Proof.
  revert lo. induction n as [|n IH]; intros lo Hj; [lia|].
  cbn [SizeT.upto app find_loc]. destruct (Z.eqb_spec lo j) as [->|Hne].
  - now rewrite Z.sub_diag.
  - rewrite IH by lia. cbn [option_map]. f_equal. lia.
Qed.

Lemma find_loc_skip (l rest : list Z) (j : Z) :
  ~ In j l ->
  find_loc j (l ++ rest) = option_map (fun n => (length l + n)%nat) (find_loc j rest).
Proof.
  induction l as [|x l IH]; intros Hnin.
  - cbn [app length]. destruct (find_loc j rest); reflexivity.
  - cbn [app find_loc length]. destruct (Z.eqb_spec x j) as [->|Hne].
    + exfalso. apply Hnin. now left.
    + rewrite IH by (intros H; apply Hnin; now right).
      destruct (find_loc j rest); reflexivity.
Qed.

Lemma is_sorted_upto (lo : Z) (n : nat) : is_sorted (SizeT.upto lo n) = true.
Proof.
  revert lo. induction n as [|n IH]; intros lo; [reflexivity|].
  cbn [SizeT.upto]. destruct n as [|n]; [reflexivity|].
  specialize (IH (lo + 1)). cbn [SizeT.upto] in IH |- *. cbn [is_sorted].
  rewrite andb_true_iff. split; [apply Z.leb_le; lia|exact IH].
Qed.

Lemma is_sorted_app (l1 l2 : list Z) :
  is_sorted l1 = true -> is_sorted l2 = true ->
  (forall a b, In a l1 -> In b l2 -> a <= b) ->
  is_sorted (l1 ++ l2) = true.
Proof.
  induction l1 as [|a l1 IH]; intros H1 H2 Hle; [exact H2|].
  destruct l1 as [|b l1].
  - cbn [app]. destruct l2 as [|c l2]; [reflexivity|].
    change ((a <=? c) && is_sorted (c :: l2) = true).
    rewrite H2, andb_true_r. apply Z.leb_le. apply Hle; now left.
  - cbn [is_sorted] in H1. apply andb_true_iff in H1 as [Hab H1].
    change (is_sorted (a :: (b :: l1) ++ l2) = true).
    change ((a <=? b) && is_sorted ((b :: l1) ++ l2) = true).
    rewrite Hab. cbn [andb]. apply IH; [exact H1|exact H2|].
    intros x y Hx Hy. apply Hle; [now right|exact Hy].
Qed.

Lemma tail_string_run (N : Z) (n : nat) :
  forall (fuel : nat) (j : Z),
    0 <= j -> j + Z.of_nat n = N -> N < SizeT.modulus -> (n < fuel)%nat ->
    tail_string fuel j N = Some (SizeT.upto j n).
Proof.
  induction n as [|n IH]; intros fuel j Hj Hn Hmod Hfuel.
  - destruct fuel as [|fuel]; [lia|]. cbn [tail_string].
    rewrite SizeT.wrap_small by lia.
    destruct (Z.ltb_spec j N); [lia|reflexivity].
  - destruct fuel as [|fuel]; [lia|]. cbn [tail_string].
    rewrite SizeT.wrap_small by lia.
    destruct (Z.ltb_spec j N); [|lia].
    rewrite (IH fuel (j + 1)) by lia. reflexivity.
Qed.

(** The operator the generic overload finds for site [j]: [std::find] in
    [local_ops_idxs], then the subscript into [local_ops]. *)
Definition op_at (local_ops : list GQTensorT) (local_ops_idxs : list Z) (j : Z)
    : option GQTensorT :=
  find_loc j local_ops_idxs ≫= nth_error local_ops.

Lemma nth_error_app_some {A : Type} (l l' : list A) (i : nat) (x : A) :
  nth_error l i = Some x -> nth_error (l ++ l') i = Some x.
Proof.
  intros H. rewrite nth_error_app1; [exact H|].
  apply nth_error_Some. congruence.
Qed.

Section Uniform.

Variable phys_ops : list GQTensorT.
Variable phys_ops_idxs : list Z.
Variable inst_ops : list GQTensorT.
Variable first : Z.

Hypothesis idxs_ascending : ascending phys_ops_idxs = true.
Hypothesis one_idx_per_op : length phys_ops = length phys_ops_idxs.
Hypothesis enough_inst_ops : (length phys_ops - 1 <= length inst_ops)%nat.
Hypothesis first_idx : nth_error phys_ops_idxs 0 = Some first.

(** The first [k] physical operators and the insertion operators after
    them are where their sites say, in a list that starts at site
    [first]. *)
Definition placed (k : nat) (ops : list GQTensorT) : Prop :=
  forall (m : nat) (p p' : Z) (op inst : GQTensorT),
    (m < k)%nat ->
    nth_error phys_ops_idxs m = Some p -> nth_error phys_ops_idxs (S m) = Some p' ->
    nth_error phys_ops m = Some op -> nth_error inst_ops m = Some inst ->
    nth_error ops (Z.to_nat (p - first)) = Some op
    /\ forall j, p < j < p' -> nth_error ops (Z.to_nat (j - first)) = Some inst.

Lemma segments_uniform (m : nat) :
  forall (k : nat) (ops : list GQTensorT) (p : Z),
    (k + m = length phys_ops - 1)%nat ->
    nth_error phys_ops_idxs k = Some p ->
    length ops = Z.to_nat (p - first) ->
    placed k ops ->
    exists ops' q,
      SizeT.run_over (phys_segment phys_ops phys_ops_idxs inst_ops kNullIntVecVec)
        (SizeT.upto (Z.of_nat k) m) (ops, SizeT.upto first (Z.to_nat (p - first)))
      = Some (ops', SizeT.upto first (Z.to_nat (q - first)))
      /\ nth_error phys_ops_idxs (length phys_ops - 1) = Some q
      /\ length ops' = Z.to_nat (q - first)
      /\ placed (length phys_ops - 1) ops'.
Proof.
  induction m as [|m IH]; intros k ops p Hkm Hp Hlen Hplaced.
  - exists ops, p. replace (length phys_ops - 1)%nat with k by lia.
    split; [reflexivity|]. split; [exact Hp|]. split; assumption.
  - cbn [SizeT.upto SizeT.run_over]. unfold phys_segment at 1.
    rewrite Nat2Z.id, Hp.
    destruct (nth_error phys_ops k) as [op|] eqn:Eop;
      [|apply nth_error_None in Eop; lia].
    destruct (nth_error inst_ops k) as [inst|] eqn:Einst;
      [|apply nth_error_None in Einst; lia].
    cbn [mbind option_bind]. rewrite decide_True by reflexivity.
    replace (Z.to_nat (Z.of_nat k + 1)) with (S k) by lia.
    destruct (nth_error phys_ops_idxs (S k)) as [p'|] eqn:Ep';
      [|apply nth_error_None in Ep'; lia].
    cbn [mbind option_bind].
    pose proof (ascending_nth _ idxs_ascending k p p' Hp Ep') as Hpp'.
    pose proof (ascending_le _ idxs_ascending k 0 first p first_idx Hp) as Hfp.
    assert (Hidxs : SizeT.upto first (Z.to_nat (p - first))
                    ++ [p] ++ SizeT.upto (p + 1) (Z.to_nat (p' - (p + 1)))
                    = SizeT.upto first (Z.to_nat (p' - first))).
    { change ([p] ++ SizeT.upto (p + 1) (Z.to_nat (p' - (p + 1))))
        with (SizeT.upto p (S (Z.to_nat (p' - (p + 1))))).
      replace p with (first + Z.of_nat (Z.to_nat (p - first))) at 2 by lia.
      rewrite Expand.upto_app. f_equal. lia. }
    rewrite Hidxs. replace (Z.of_nat k + 1) with (Z.of_nat (S k)) by lia.
    apply IH; [lia|exact Ep'| |].
    + rewrite !length_app, length_map, Master.upto_length. cbn [length]. lia.
    + intros m0 p0 p0' op0 inst0 Hm0 Hp0 Hp0' Hop0 Hinst0.
      destruct (Nat.eq_dec m0 k) as [->|Hne].
      * rewrite Hp in Hp0. rewrite Ep' in Hp0'. rewrite Eop in Hop0.
        rewrite Einst in Hinst0.
        injection Hp0 as <-. injection Hp0' as <-. injection Hop0 as <-.
        injection Hinst0 as <-. split.
        -- rewrite nth_error_app2 by lia. rewrite <- Hlen, Nat.sub_diag. reflexivity.
        -- intros j Hj. rewrite nth_error_app2 by lia.
           replace (Z.to_nat (j - first) - length ops)%nat
             with (S (Z.to_nat (j - (p + 1)))) by lia.
           cbn [app nth_error]. apply nth_error_const.
           rewrite Master.upto_length. lia.
      * destruct (Hplaced m0 p0 p0' op0 inst0 ltac:(lia) Hp0 Hp0' Hop0 Hinst0)
          as [H1 H2].
        split; [now apply nth_error_app_some|].
        intros j Hj. apply nth_error_app_some. now apply H2.
Qed.

End Uniform.

Lemma last_some_snoc {A : Type} (l : list A) (a : A) :
  List.last (map Some (l ++ [a])) None = Some a.
Proof. rewrite map_app. cbn [map]. apply last_last. Qed.

(** What the overload hands to the generic one under uniform insertion. *)
Lemma uniform_lists
    (fuel : nat) (coef : TenElemType) (phys_ops : list GQTensorT)
    (phys_ops_idxs : list Z) (inst_ops : list GQTensorT) (first last : Z)
    (g : generator_t) :
  AddTerm_inst_asserts phys_ops phys_ops_idxs inst_ops kNullIntVecVec = true ->
  ascending phys_ops_idxs = true ->
  nth_error phys_ops_idxs 0 = Some first ->
  List.last (map Some phys_ops_idxs) None = Some last ->
  0 <= first -> last < N_ g -> N_ g <= INT_MAX + 1 -> (Z.to_nat (N_ g) < fuel)%nat ->
  exists ops back_op tail_ops,
    AddTerm_inst fuel coef phys_ops phys_ops_idxs inst_ops kNullIntVecVec g
    = add_term coef (ops ++ [back_op] ++ tail_ops)
        (SizeT.upto first (Z.to_nat (last - first + 1))
         ++ SizeT.upto last (length tail_ops)) g
    /\ first <= last
    /\ length ops = Z.to_nat (last - first)
    /\ placed phys_ops phys_ops_idxs inst_ops first (length phys_ops - 1) ops
    /\ nth_error phys_ops (length phys_ops - 1) = Some back_op
    /\ nth_error phys_ops_idxs (length phys_ops - 1) = Some last
    /\ (if (length inst_ops =? length phys_ops)%nat
        then exists tail_op,
               List.last (map Some inst_ops) None = Some tail_op
               /\ tail_ops = map (fun _ => tail_op)
                               (SizeT.upto last (Z.to_nat (N_ g - last)))
        else tail_ops = []).
Proof.
  intros Ha Hasc Hfirst Hlast H0 HN Hint Hfuel.
  unfold AddTerm_inst. rewrite Ha. cbn [negb].
  unfold AddTerm_inst_asserts in Ha.
  apply andb_true_iff in Ha as [Ha _]. apply andb_true_iff in Ha as [Ha Hinst].
  apply andb_true_iff in Ha as [Hn Hlen].
  apply Nat.leb_le in Hn. apply Nat.eqb_eq in Hlen.
  assert (Henough : (length phys_ops - 1 <= length inst_ops)%nat).
  { apply orb_true_iff in Hinst as [H|H]; apply Nat.eqb_eq in H; lia. }
  destruct (segments_uniform phys_ops phys_ops_idxs inst_ops first
              Hasc Hlen Henough Hfirst (length phys_ops - 1) 0 [] first)
    as (ops & q & Hrun & Hq & Hops & Hplaced);
    [lia|exact Hfirst|now rewrite Z.sub_diag|intros m p p' op inst Hm; lia|].
  rewrite Z.sub_diag in Hrun. change (Z.of_nat 0) with 0 in Hrun.
  change (SizeT.upto first (Z.to_nat 0)) with (@nil Z) in Hrun.
  rewrite Hrun. cbn [mbind option_bind].
  rewrite back_nth in Hlast. rewrite <- Hlen, Hq in Hlast. injection Hlast as ->.
  pose proof (ascending_le _ Hasc (length phys_ops - 1) 0 first last Hfirst Hq) as Hfl.
  rewrite (back_nth phys_ops), (back_nth phys_ops_idxs), <- Hlen, Hq.
  destruct (nth_error phys_ops (length phys_ops - 1)) as [back_op|] eqn:Eback;
    [|apply nth_error_None in Eback; lia].
  cbn [mbind option_bind].
  assert (Hidxs : SizeT.upto first (Z.to_nat (last - first)) ++ [last]
                  = SizeT.upto first (Z.to_nat (last - first + 1))).
  { replace (Z.to_nat (last - first + 1)) with (S (Z.to_nat (last - first))) by lia.
    rewrite Expand.upto_snoc. do 2 f_equal. lia. }
  rewrite Hidxs.
  destruct (length inst_ops =? length phys_ops)%nat eqn:Etail.
  - apply Nat.eqb_eq in Etail. rewrite (back_nth inst_ops).
    destruct (nth_error inst_ops (length inst_ops - 1)) as [tail_op|] eqn:Et;
      [|apply nth_error_None in Et; lia].
    cbn [mbind option_bind]. rewrite decide_True by reflexivity.
    rewrite (tail_string_run (N_ g) (Z.to_nat (N_ g - last)))
      by (unfold INT_MAX in Hint; rewrite ?SizeT.modulus_val; lia).
    cbn [mbind option_bind].
    exists ops, back_op,
      (map (fun _ => tail_op) (SizeT.upto last (Z.to_nat (N_ g - last)))).
    rewrite length_map, Master.upto_length, <- app_assoc.
    split; [reflexivity|]. split; [exact Hfl|]. split; [exact Hops|].
    split; [exact Hplaced|]. split; [reflexivity|]. split; [reflexivity|].
    exists tail_op. split; reflexivity.
  - cbn [mbind option_bind]. exists ops, back_op, [].
    cbn [length SizeT.upto]. rewrite !app_nil_r.
    split; [reflexivity|]. split; [exact Hfl|]. split; [exact Hops|].
    split; [exact Hplaced|]. split; [reflexivity|]. split; reflexivity.
Qed.

(** X16: with uniform insertion ([inst_ops_idxs_set] left at
    [kNullIntVecVec]) and strictly ascending physical sites within the
    system, the overload calls the generic [AddTerm] on lists that pass its
    asserts and name every site from the first physical operator to the
    last one, and on to site [N_-1] when there is a tail insertion operator.
    The generic overload then finds each physical operator at its own site,
    the [m]-th insertion operator at every site strictly between the [m]-th
    and the next physical operator, and the tail operator at every site
    after the last physical operator.  The tail loop starts at the last
    physical site itself, so that index occurs twice; the physical operator
    is the one found for it. *)
Theorem uniform_insertion_fills_every_site
    (fuel : nat) (coef : TenElemType) (phys_ops : list GQTensorT)
    (phys_ops_idxs : list Z) (inst_ops : list GQTensorT) (first last : Z)
    (g : generator_t) :
  AddTerm_inst_asserts phys_ops phys_ops_idxs inst_ops kNullIntVecVec = true ->
  ascending phys_ops_idxs = true ->
  nth_error phys_ops_idxs 0 = Some first ->
  List.last (map Some phys_ops_idxs) None = Some last ->
  0 <= first -> last < N_ g -> N_ g <= INT_MAX + 1 -> (Z.to_nat (N_ g) < fuel)%nat ->
  exists local_ops local_ops_idxs,
    AddTerm_inst fuel coef phys_ops phys_ops_idxs inst_ops kNullIntVecVec g
    = add_term coef local_ops local_ops_idxs g
    /\ local_ops_idxs
       = SizeT.upto first (Z.to_nat (last - first + 1))
         ++ (if (length inst_ops =? length phys_ops)%nat
             then SizeT.upto last (Z.to_nat (N_ g - last)) else [])
    /\ AddTerm_asserts g local_ops local_ops_idxs = true
    /\ (forall m p op,
          nth_error phys_ops_idxs m = Some p -> nth_error phys_ops m = Some op ->
          op_at local_ops local_ops_idxs p = Some op)
    /\ (forall m p p' inst j,
          nth_error phys_ops_idxs m = Some p -> nth_error phys_ops_idxs (S m) = Some p' ->
          nth_error inst_ops m = Some inst -> p < j < p' ->
          op_at local_ops local_ops_idxs j = Some inst)
    /\ (forall tail_op j,
          length inst_ops = length phys_ops ->
          List.last (map Some inst_ops) None = Some tail_op ->
          last < j < N_ g ->
          op_at local_ops local_ops_idxs j = Some tail_op).
Proof.
  intros Ha Hasc Hfirst Hlast H0 HN Hint Hfuel.
  destruct (uniform_lists fuel coef phys_ops phys_ops_idxs inst_ops first last g
              Ha Hasc Hfirst Hlast H0 HN Hint Hfuel)
    as (ops & back_op & tail_ops & Hrun & Hfl & Hops & Hplaced & Hback & Hq & Htail).
  unfold AddTerm_inst_asserts in Ha.
  apply andb_true_iff in Ha as [Ha _]. apply andb_true_iff in Ha as [Ha Hinst].
  apply andb_true_iff in Ha as [Hn Hlen].
  apply Nat.leb_le in Hn. apply Nat.eqb_eq in Hlen.
  assert (Henough : (length phys_ops - 1 <= length inst_ops)%nat).
  { apply orb_true_iff in Hinst as [H|H]; apply Nat.eqb_eq in H; lia. }
  assert (Htl : length tail_ops
                = if (length inst_ops =? length phys_ops)%nat
                  then Z.to_nat (N_ g - last) else 0%nat).
  { destruct (length inst_ops =? length phys_ops)%nat.
    - destruct Htail as (t & _ & ->). now rewrite length_map, Master.upto_length.
    - now subst tail_ops. }
  exists (ops ++ [back_op] ++ tail_ops),
    (SizeT.upto first (Z.to_nat (last - first + 1)) ++ SizeT.upto last (length tail_ops)).
  split; [exact Hrun|]. split; [|split; [|split; [|split]]].
  - rewrite Htl. destruct (length inst_ops =? length phys_ops)%nat; reflexivity.
  - unfold AddTerm_asserts. rewrite !andb_true_iff. split; [split|].
    + apply Nat.eqb_eq. rewrite !length_app, !Master.upto_length. cbn [length]. lia.
    + apply is_sorted_app; [apply is_sorted_upto|apply is_sorted_upto|].
      intros a b Hin1 Hin2. apply SizeT.upto_In in Hin1, Hin2. lia.
    + destruct (length tail_ops) as [|n] eqn:En.
      * cbn [SizeT.upto]. rewrite app_nil_r.
        replace (Z.to_nat (last - first + 1)) with (S (Z.to_nat (last - first))) by lia.
        rewrite Expand.upto_snoc, last_some_snoc.
        rewrite SizeT.wrap_small
          by (unfold INT_MAX in Hint; rewrite SizeT.modulus_val; lia).
        apply Z.ltb_lt. lia.
      * rewrite Expand.upto_snoc, app_assoc, last_some_snoc.
        destruct (length inst_ops =? length phys_ops)%nat; [|discriminate Htl].
        rewrite SizeT.wrap_small
          by (unfold INT_MAX in Hint; rewrite SizeT.modulus_val; lia).
        apply Z.ltb_lt. lia.
  - intros m p op Hp Hop. unfold op_at.
    pose proof (ascending_le _ Hasc m 0 first p Hfirst Hp) as Hfp.
    assert (Hm : (m < length phys_ops)%nat)
      by (apply nth_error_Some; congruence).
    destruct (Nat.eq_dec m (length phys_ops - 1)%nat) as [->|Hne].
    + rewrite Hq in Hp. injection Hp as <-. rewrite Hback in Hop. injection Hop as <-.
      rewrite find_loc_upto by lia. cbn [mbind option_bind].
      rewrite nth_error_app2 by lia. now rewrite Hops, Nat.sub_diag.
    + pose proof (ascending_le _ Hasc (length phys_ops - 1 - m)%nat m p last Hp) as Hpl.
      replace (m + (length phys_ops - 1 - m))%nat with (length phys_ops - 1)%nat
        in Hpl by lia.
      specialize (Hpl Hq).
      rewrite find_loc_upto by lia. cbn [mbind option_bind].
      destruct (nth_error phys_ops_idxs (S m)) as [p'|] eqn:Ep';
        [|apply nth_error_None in Ep'; lia].
      destruct (nth_error inst_ops m) as [inst|] eqn:Ei;
        [|apply nth_error_None in Ei; lia].
      apply nth_error_app_some.
      now apply (Hplaced m p p' op inst ltac:(lia) Hp Ep' Hop Ei).
  - intros m p p' inst j Hp Hp' Hi Hj. unfold op_at.
    pose proof (ascending_le _ Hasc m 0 first p Hfirst Hp) as Hfp.
    assert (Hm : (S m < length phys_ops)%nat)
      by (rewrite Hlen; apply nth_error_Some; congruence).
    pose proof (ascending_le _ Hasc (length phys_ops - 1 - S m)%nat (S m) p' last Hp') as Hpl.
    replace (S m + (length phys_ops - 1 - S m))%nat with (length phys_ops - 1)%nat
      in Hpl by lia.
    specialize (Hpl Hq).
    rewrite find_loc_upto by lia. cbn [mbind option_bind].
    destruct (nth_error phys_ops m) as [op|] eqn:Eop;
      [|apply nth_error_None in Eop; lia].
    apply nth_error_app_some.
    now apply (Hplaced m p p' op inst ltac:(lia) Hp Hp' Eop Hi).
  - intros tail_op j Het Ht Hj. unfold op_at.
    apply Nat.eqb_eq in Het. rewrite Het in Htail, Htl.
    destruct Htail as (t & Ht' & Htail). rewrite Ht in Ht'. injection Ht' as <-.
    rewrite find_loc_skip by (rewrite SizeT.upto_In; lia).
    rewrite <- (app_nil_r (SizeT.upto last (length tail_ops))).
    rewrite find_loc_upto by lia. cbn [option_map mbind option_bind].
    rewrite Master.upto_length, app_assoc.
    rewrite nth_error_app2 by (rewrite length_app; cbn [length]; lia).
    rewrite length_app. cbn [length]. rewrite Htail.
    replace (Z.to_nat (last - first + 1) + Z.to_nat (j - last)
             - (length ops + 1))%nat with (Z.to_nat (j - last)) by lia.
    apply nth_error_const. rewrite Master.upto_length. lia.
Qed.

End Paths.

Lemma AddTerm_adds_one_path_witness :
  exists coef_label cconv oconv op_label labels,
    find_or_append PrimFloat.eqb (-1)%float (coef_label_convertor_ (fresh_generator 4))
    = (coef_label, cconv)
    /\ AddTerm_double (-1)%float [100; 200] (1 :: [3]) (fresh_generator 4)
       = Some (MkGen (N_ (fresh_generator 4)) (id_op_vector_ (fresh_generator 4))
                 (AddPath_list 1 (List.last [3] 1)
                    (ReprCoefOp coef_label op_label :: map ReprOp labels)
                    (fsm_ (fresh_generator 4)))
                 cconv oconv)
    /\ Z.of_nat (length labels) = List.last [3] 1 - 1.
Proof.
  apply (AddTerm_adds_one_path float PrimFloat.eqb 0%float Z nat nat op_repr
           (list float) (list Z) (list path)
           (find_or_append PrimFloat.eqb) (find_or_append Z.eqb)
           ReprCoefOp ReprOp AddPath_list
           (-1)%float [100; 200] 1 [3] (fresh_generator 4)).
  - reflexivity.
  - reflexivity.
  - lia.
  - unfold INT_MAX. simpl. lia.
  - reflexivity.
Defined.

(** The overload over the concrete collaborators of [MPOGen], with the
    empty vector for [kNullIntVecVec]. *)
Definition AddTerm_inst_double
    : nat -> float -> list Z -> list Z -> list Z -> list (list Z) -> generator
      -> option generator :=
  AddTerm_inst float PrimFloat.eqb 0%float Z nat nat op_repr (list float) (list Z)
    (list path) (find_or_append PrimFloat.eqb) (find_or_append Z.eqb)
    ReprCoefOp ReprOp AddPath_list [].

Lemma uniform_insertion_fills_every_site_witness :
  exists local_ops local_ops_idxs,
    AddTerm_inst_double 7 (-1)%float [100; 200] [1; 4] [7; 8] [] (fresh_generator 6)
    = AddTerm_double (-1)%float local_ops local_ops_idxs (fresh_generator 6)
    /\ local_ops_idxs
       = SizeT.upto 1 (Z.to_nat (4 - 1 + 1))
         ++ (if (length [7; 8] =? length [100; 200])%nat
             then SizeT.upto 4 (Z.to_nat (N_ (fresh_generator 6) - 4)) else [])
    /\ AddTerm_asserts (fresh_generator 6) local_ops local_ops_idxs = true
    /\ (forall m p op,
          nth_error [1; 4] m = Some p -> nth_error [100; 200] m = Some op ->
          op_at Z local_ops local_ops_idxs p = Some op)
    /\ (forall m p p' inst j,
          nth_error [1; 4] m = Some p -> nth_error [1; 4] (S m) = Some p' ->
          nth_error [7; 8] m = Some inst -> p < j < p' ->
          op_at Z local_ops local_ops_idxs j = Some inst)
    /\ (forall tail_op j,
          length [7; 8] = length [100; 200] ->
          List.last (map Some [7; 8]) None = Some tail_op ->
          4 < j < N_ (fresh_generator 6) ->
          op_at Z local_ops local_ops_idxs j = Some tail_op).
Proof.
  apply (uniform_insertion_fills_every_site float PrimFloat.eqb 0%float Z nat nat
           op_repr (list float) (list Z) (list path)
           (find_or_append PrimFloat.eqb) (find_or_append Z.eqb)
           ReprCoefOp ReprOp AddPath_list []
           7%nat (-1)%float [100; 200] [1; 4] [7; 8] 1 4 (fresh_generator 6)).
  - reflexivity.
  - reflexivity.
  - reflexivity.
  - reflexivity.
  - lia.
  - simpl. lia.
  - unfold INT_MAX. simpl. lia.
  - simpl. lia.
Defined.

(** A hopping term between sites 1 and 4 of six, with insertion operator
    7 in between and tail operator 8: the path runs from site 1 to site 5,
    and site 4 carries the physical operator 200. *)
Example AddTerm_inst_double_hopping :
  fsm_ <$> AddTerm_inst_double 7 (-1)%float [100; 200] [1; 4] [7; 8] [] (fresh_generator 6)
  = Some [(1, 5, [ReprCoefOp 1 1; ReprOp 2; ReprOp 2; ReprOp 3; ReprOp 4])].
Proof. vm_compute. reflexivity. Qed.

End MPOGenPaths.

(** * Grouping the columns of an MPO tensor by quantum number
       ([MPOGenerator::SortSparOpReprMatColsByQN_]) *)

Module MPOGenSort.

Section Sort.

(** Quantum numbers with their [==], [-] and [+]; the elements of the
    sparse matrix, [None] for [kNullOpRepr]. *)
Variable QN : Type.
Context `{QN_eq_dec : EqDecision QN}.
Variable qn_sub qn_add : QN -> QN -> QN.
Variable OpRepr : Type.

(** [zero_div_]; the quantum number of coordinate [x] of the left
    virtual bond, [InverseIndex(trans_vb).CoorInterOffsetAndQnsct(x).qnsct.qn];
    and [Div(label_op_mapping[op_repr.GetOpLabelList()[0]])]. *)
Variable zero_div_ : QN.
Variable lvb_qn : Z -> QN.
Variable div_op0 : OpRepr -> QN.

(** [op_repr_mat(x, y)], [op_repr_mat.rows] and [op_repr_mat.cols]. *)
Variable op_repr_mat : Z -> Z -> option OpRepr.
Variable rows cols : Z.

(** [CalcTgtRvbQN_]. *)
Definition CalcTgtRvbQN_ (x y : Z) (op_repr : OpRepr) : QN :=
  qn_add (qn_sub zero_div_ (div_op0 op_repr)) (lvb_qn x).

(** [QNSector(qn, dim)]. *)
Definition QNSector : Type := QN * nat.

(** [for (auto &qnsct : rvb_qnscts)] with its [break], and the
    [push_back] after it when no sector has the quantum number: the
    sectors afterwards and the offset to insert the column at. *)
Fixpoint place (rvb_qn : QN) (rvb_qnscts : list QNSector) (offset : nat)
    : list QNSector * nat :=
  match rvb_qnscts with
  | [] => ([(rvb_qn, 1%nat)], offset)
  | (qn, dim) :: rest =>
      if decide (qn = rvb_qn) then ((qn, S dim) :: rest, offset)
      else
        let '(rest', offset') := place rvb_qn rest (offset + dim) in
        ((qn, dim) :: rest', offset')
  end.

(** [v.insert(v.begin() + offset, y)]. *)
Definition insert_at (offset : nat) (y : Z) (v : list Z) : list Z :=
  firstn offset v ++ y :: skipn offset v.

(** The state of the loops: [has_ntrvl_op] with [col_rvb_qn], then
    [rvb_qnscts] and [transposed_idxs]. *)
Definition sort_state : Type := option QN * (list QNSector * list Z).

(** The body of [for (size_t x = 0; x < op_repr_mat.rows; ++x)]; [None]
    is the failing [assert(rvb_qn == col_rvb_qn)]. *)
Definition row_step (y x : Z) (st : sort_state) : option sort_state :=
  let '(col_rvb_qn, (rvb_qnscts, transposed_idxs)) := st in
  match op_repr_mat x y with
  | None => Some st
  | Some elem =>
      let rvb_qn := CalcTgtRvbQN_ x y elem in
      match col_rvb_qn with
      | None =>
          let '(rvb_qnscts', offset) := place rvb_qn rvb_qnscts 0 in
          Some (Some rvb_qn, (rvb_qnscts', insert_at offset y transposed_idxs))
      | Some col_qn => if decide (rvb_qn = col_qn) then Some st else None
      end
  end.

(** The body of [for (size_t y = 0; y < op_repr_mat.cols; ++y)]. *)
Definition col_step (y : Z) (st : list QNSector * list Z)
    : option (list QNSector * list Z) :=
  snd <$> SizeT.run_over (row_step y) (SizeT.upto 0 (Z.to_nat rows)) (None, st).

(** [SortSparOpReprMatColsByQN_]: the sectors of the new [trans_vb] and
    the returned [transposed_idxs]. *)
Definition SortSparOpReprMatColsByQN_ : option (list QNSector * list Z) :=
  SizeT.run_over col_step (SizeT.upto 0 (Z.to_nat cols)) ([], []).

(** The quantum number of the first non-null element of a column among
    the rows [xs]. *)
Fixpoint first_ntrvl (y : Z) (xs : list Z) : option QN :=
  match xs with
  | [] => None
  | x :: xs' =>
      match op_repr_mat x y with
      | Some elem => Some (CalcTgtRvbQN_ x y elem)
      | None => first_ntrvl y xs'
      end
  end.

Definition col_qn (y : Z) : option QN := first_ntrvl y (SizeT.upto 0 (Z.to_nat rows)).

(** The quantum numbers of the coordinates of a bond with the given
    sectors, in order. *)
Definition coordinates (scts : list QNSector) : list (option QN) :=
  flat_map (fun s : QNSector => repeat (Some (fst s)) (snd s)) scts.

(** *** Placing one column *)

Lemma place_coordinates (q : QN) (scts : list QNSector) :
  forall offset : nat,
    exists scts' o,
      place q scts offset = (scts', (offset + o)%nat)
      /\ (o <= length (coordinates scts))%nat
      /\ coordinates scts'
         = firstn o (coordinates scts) ++ Some q :: skipn o (coordinates scts).
Proof.
  induction scts as [|[qn dim] rest IH]; intros offset.
  - exists [(q, 1%nat)], 0%nat. cbn. rewrite Nat.add_0_r. repeat split. lia.
  - cbn [place]. destruct (decide (qn = q)) as [->|Hne].
    + exists ((q, S dim) :: rest), 0%nat. rewrite Nat.add_0_r.
      split; [reflexivity|]. split; [lia|]. reflexivity.
    + destruct (IH (offset + dim)%nat) as (rest' & o & -> & Ho & Hc).
      exists ((qn, dim) :: rest'), (dim + o)%nat.
      split; [f_equal; lia|]. unfold coordinates in *. cbn [flat_map fst snd].
      split; [rewrite length_app, repeat_length; lia|].
      rewrite Hc.
      rewrite take_app_add', drop_app_add' by (now rewrite repeat_length).
      now rewrite <- app_assoc.
Qed.

Lemma place_sectors (q : QN) (scts : list QNSector) :
  forall offset : nat,
    NoDup (map fst scts) -> Forall (fun s : QNSector => (1 <= snd s)%nat) scts ->
    NoDup (map fst (fst (place q scts offset)))
    /\ Forall (fun s : QNSector => (1 <= snd s)%nat) (fst (place q scts offset))
    /\ (forall q', q' ∈ map fst (fst (place q scts offset))
                   <-> q' = q \/ q' ∈ map fst scts).
Proof.
  induction scts as [|[qn dim] rest IH]; intros offset Hnd Hdim.
  - cbn. split; [apply NoDup_singleton|]. split; [repeat constructor|].
    intros q'. rewrite list_elem_of_singleton, elem_of_nil. tauto.
  - cbn [place]. destruct (decide (qn = q)) as [->|Hne].
    + cbn [fst map] in *. split; [exact Hnd|]. split.
      * apply List.Forall_cons_iff in Hdim as [_ Hdim]. constructor; [cbn; lia|exact Hdim].
      * intros q'. rewrite elem_of_cons. tauto.
    + cbn [map fst] in Hnd. apply NoDup_cons in Hnd as [Hnin Hnd].
      apply List.Forall_cons_iff in Hdim as [Hd Hdim].
      destruct (IH (offset + dim)%nat Hnd Hdim) as (H1 & H2 & H3).
      destruct (place q rest (offset + dim)) as [rest' o]. cbn [fst map] in *.
      split; [|split].
      * apply NoDup_cons. split; [|exact H1]. rewrite H3. intros [->|H]; tauto.
      * constructor; assumption.
      * intros q'. rewrite !elem_of_cons, H3. tauto.
Qed.

Lemma insert_at_perm (o : nat) (y : Z) (v : list Z) :
  Permutation (insert_at o y v) (y :: v).
Proof.
  unfold insert_at. rewrite <- Permutation_middle. constructor.
  now rewrite firstn_skipn.
Qed.

Lemma insert_at_map {B : Type} (f : Z -> B) (o : nat) (y : Z) (v : list Z) :
  map f (insert_at o y v) = firstn o (map f v) ++ f y :: skipn o (map f v).
Proof.
  unfold insert_at. now rewrite map_app, firstn_map, skipn_map.
Qed.

(** *** One column *)

(** What a column with a non-null element does to the sectors and to
    [transposed_idxs]. *)
Definition insert_col (q : QN) (y : Z) (st : list QNSector * list Z)
    : list QNSector * list Z :=
  let '(scts', offset) := place q (fst st) 0 in
  (scts', insert_at offset y (snd st)).

(** All the non-null elements of column [y] in the rows [xs] have the
    target quantum number of the first of them. *)
Definition agree (y : Z) (xs : list Z) : Prop :=
  forall x elem,
    In x xs -> op_repr_mat x y = Some elem ->
    first_ntrvl y xs = Some (CalcTgtRvbQN_ x y elem).

Lemma rows_after_first (y : Z) (q : QN) (st : list QNSector * list Z) (xs : list Z) :
  (forall x elem, In x xs -> op_repr_mat x y = Some elem -> CalcTgtRvbQN_ x y elem = q) <->
  SizeT.run_over (row_step y) xs (Some q, st) = Some (Some q, st).
Proof.
  induction xs as [|x xs IH]; cbn [SizeT.run_over].
  - split; [reflexivity|]. intros _ x elem [].
  - unfold row_step at 1. destruct st as [scts idxs].
    destruct (op_repr_mat x y) as [elem|] eqn:E.
    + destruct (decide (CalcTgtRvbQN_ x y elem = q)) as [Hq|Hq].
      * rewrite <- IH. split.
        -- intros H x' e' Hin. apply H. now right.
        -- intros H x' e' [<-|Hin] He; [congruence|now apply (H x' e')].
      * split; [|discriminate]. intros H. exfalso. apply Hq. apply (H x elem); [now left|exact E].
    + rewrite <- IH. split.
      * intros H x' e' Hin. apply H. now right.
      * intros H x' e' [<-|Hin] He; [congruence|now apply (H x' e')].
Qed.

Lemma rows_after_first_any (y : Z) (q : QN) (xs : list Z) :
  forall (st : list QNSector * list Z) (r : sort_state),
    SizeT.run_over (row_step y) xs (Some q, st) = Some r -> r = (Some q, st).
Proof.
  induction xs as [|x xs IH]; intros st r H; cbn [SizeT.run_over] in H.
  - now injection H as <-.
  - unfold row_step in H at 1. destruct st as [scts idxs].
    destruct (op_repr_mat x y) as [elem|].
    + destruct (decide (CalcTgtRvbQN_ x y elem = q)); [|discriminate H].
      now apply IH.
    + now apply IH.
Qed.

Lemma rows_run (y : Z) (st : list QNSector * list Z) (xs : list Z) :
  agree y xs <->
  SizeT.run_over (row_step y) xs (None, st)
  = Some (first_ntrvl y xs,
          match first_ntrvl y xs with
          | Some q => insert_col q y st
          | None => st
          end).
Proof.
  unfold agree. induction xs as [|x xs IH]; cbn [SizeT.run_over first_ntrvl].
  - split; [reflexivity|]. intros _ x elem [].
  - unfold row_step at 1. destruct st as [scts idxs].
    destruct (op_repr_mat x y) as [elem|] eqn:E.
    + unfold insert_col. cbn [fst snd].
      destruct (place (CalcTgtRvbQN_ x y elem) scts 0) as [scts' offset].
      rewrite <- rows_after_first. split.
      * intros H x' e' Hin He. specialize (H x' e' (or_intror Hin) He). congruence.
      * intros H x' e' [<-|Hin] He; [congruence|].
        f_equal. symmetry. now apply (H x' e').
    + rewrite <- IH. split.
      * intros H x' e' Hin. apply H. now right.
      * intros H x' e' [<-|Hin] He; [congruence|now apply (H x' e')].
Qed.

Lemma col_step_run (y : Z) (st : list QNSector * list Z) :
  agree y (SizeT.upto 0 (Z.to_nat rows)) ->
  col_step y st
  = Some match col_qn y with
         | Some q => insert_col q y st
         | None => st
         end.
Proof.
  intros H. unfold col_step. apply (rows_run y st) in H. rewrite H. reflexivity.
Qed.

Lemma rows_returns (y : Z) (xs : list Z) :
  forall (st : list QNSector * list Z) (r : sort_state),
    SizeT.run_over (row_step y) xs (None, st) = Some r -> agree y xs.
Proof.
  induction xs as [|x xs IH]; intros st r H; [intros x elem []|].
  cbn [SizeT.run_over] in H. unfold row_step in H at 1. destruct st as [scts idxs].
  destruct (op_repr_mat x y) as [elem|] eqn:E.
  - destruct (place (CalcTgtRvbQN_ x y elem) scts 0) as [scts' offset].
    pose proof (rows_after_first_any _ _ _ _ _ H) as ->.
    pose proof (proj2 (rows_after_first _ _ _ _) H) as Hall.
    intros x' e' Hin He. cbn [first_ntrvl]. rewrite E.
    destruct Hin as [<-|Hin]; [congruence|]. f_equal. symmetry. now apply (Hall x' e').
  - specialize (IH _ _ H). intros x' e' Hin He. cbn [first_ntrvl]. rewrite E.
    destruct Hin as [<-|Hin]; [congruence|]. now apply IH.
Qed.

(** *** All the columns *)

(** The columns [done] have been grouped: the quantum numbers of the
    columns listed are those of the coordinates of the sectors, the sectors
    have distinct quantum numbers and none is empty, and the columns listed
    are those of [done] that have a non-null element. *)
Definition grouped (done : list Z) (st : list QNSector * list Z) : Prop :=
  map col_qn (snd st) = coordinates (fst st)
  /\ NoDup (map fst (fst st))
  /\ Forall (fun s : QNSector => (1 <= snd s)%nat) (fst st)
  /\ Permutation (snd st) (filter (fun y => is_Some (col_qn y)) done).

Lemma grouped_step (done : list Z) (st : list QNSector * list Z) (y : Z) :
  grouped done st ->
  grouped (done ++ [y])
    match col_qn y with
    | Some q => insert_col q y st
    | None => st
    end.
Proof.
  intros (Hc & Hnd & Hdim & Hperm). destruct st as [scts idxs]. cbn [fst snd] in *.
  unfold grouped. rewrite filter_app.
  destruct (col_qn y) as [q|] eqn:Eq.
  - unfold insert_col. cbn [fst snd].
    destruct (place_coordinates q scts 0) as (scts' & o & Hp & Ho & Hc').
    destruct (place_sectors q scts 0 Hnd Hdim) as (Hnd' & Hdim' & _).
    rewrite Hp in Hnd', Hdim' |- *. cbn [fst snd Nat.add] in *.
    split; [|split; [exact Hnd'|split; [exact Hdim'|]]].
    + rewrite insert_at_map, Hc, Eq. symmetry. exact Hc'.
    + rewrite insert_at_perm, Hperm.
      rewrite filter_cons, decide_True by (rewrite Eq; eauto).
      rewrite filter_nil. apply Permutation_cons_append.
  - cbn [fst snd]. split; [exact Hc|]. split; [exact Hnd|]. split; [exact Hdim|].
    rewrite filter_cons, decide_False by (rewrite Eq; apply is_Some_None).
    rewrite filter_nil, app_nil_r. exact Hperm.
Qed.

Lemma cols_run (ys : list Z) :
  forall (done : list Z) (st : list QNSector * list Z),
    (forall y, In y ys -> agree y (SizeT.upto 0 (Z.to_nat rows))) ->
    grouped done st ->
    exists st', SizeT.run_over col_step ys st = Some st' /\ grouped (done ++ ys) st'.
Proof.
  induction ys as [|y ys IH]; intros done st Hag Hg.
  - exists st. rewrite app_nil_r. split; [reflexivity|exact Hg].
  - cbn [SizeT.run_over]. rewrite col_step_run by (apply Hag; now left).
    destruct (IH (done ++ [y]) _ (fun y' H => Hag y' (or_intror H))
                (grouped_step done st y Hg)) as (st' & Hrun & Hg').
    exists st'. split; [exact Hrun|]. now rewrite <- app_assoc in Hg'.
Qed.

Lemma cols_returns (ys : list Z) :
  forall (st r : list QNSector * list Z),
    SizeT.run_over col_step ys st = Some r ->
    forall y, In y ys -> agree y (SizeT.upto 0 (Z.to_nat rows)).
Proof.
  induction ys as [|y ys IH]; intros st r H y' Hin; [destruct Hin|].
  cbn [SizeT.run_over] in H.
  destruct (col_step y st) as [st1|] eqn:E; [|discriminate H].
  destruct Hin as [<-|Hin]; [|now apply (IH st1 r)].
  unfold col_step in E.
  destruct (SizeT.run_over (row_step y) (SizeT.upto 0 (Z.to_nat rows)) (None, st))
    as [r1|] eqn:Er; [|discriminate E].
  now apply (rows_returns _ _ _ _ Er).
Qed.

(** X17: when, in every column, all non-null elements have the same
    target quantum number, [SortSparOpReprMatColsByQN_] returns; the
    returned [transposed_idxs] lists each column that has a non-null
    element once and no other column; the sectors of the new [trans_vb]
    have pairwise different quantum numbers and positive dimensions; and
    the columns are grouped by sector: the quantum number of the [k]-th
    column listed is that of the [k]-th coordinate of the new bond. *)
Theorem columns_grouped_by_quantum_number :
  (forall y, 0 <= y < cols -> agree y (SizeT.upto 0 (Z.to_nat rows))) ->
  exists rvb_qnscts transposed_idxs,
    SortSparOpReprMatColsByQN_ = Some (rvb_qnscts, transposed_idxs)
    /\ map col_qn transposed_idxs = coordinates rvb_qnscts
    /\ NoDup (map fst rvb_qnscts)
    /\ Forall (fun s : QNSector => (1 <= snd s)%nat) rvb_qnscts
    /\ Permutation transposed_idxs
         (filter (fun y => is_Some (col_qn y)) (SizeT.upto 0 (Z.to_nat cols))).
Proof.
  intros Hag. unfold SortSparOpReprMatColsByQN_.
  destruct (cols_run (SizeT.upto 0 (Z.to_nat cols)) [] ([], []))
    as ([scts idxs] & H & Hc & Hnd & Hdim & Hperm).
  - intros y Hy. apply SizeT.upto_In in Hy. apply Hag. lia.
  - repeat split; constructor.
  - exists scts, idxs. cbn [fst snd app] in *. repeat split; assumption.
Qed.

(** X18: [SortSparOpReprMatColsByQN_] returns exactly when all the
    non-null elements of each column have the same target quantum number;
    otherwise its [assert(rvb_qn == col_rvb_qn)] fails. *)
Theorem sort_returns_iff_columns_agree :
  (exists rvb_qnscts transposed_idxs,
      SortSparOpReprMatColsByQN_ = Some (rvb_qnscts, transposed_idxs))
  <-> (forall y, 0 <= y < cols -> agree y (SizeT.upto 0 (Z.to_nat rows))).
Proof.
  unfold SortSparOpReprMatColsByQN_. split.
  - intros (scts & idxs & H) y Hy.
    apply (cols_returns _ _ _ H). apply SizeT.upto_In. lia.
  - intros Hag.
    destruct (cols_run (SizeT.upto 0 (Z.to_nat cols)) [] ([], [])) as ([scts idxs] & H & _).
    + intros y Hy. apply SizeT.upto_In in Hy. apply Hag. lia.
    + repeat split; constructor.
    + now exists scts, idxs.
Qed.

End Sort.

(** *** A two-by-four matrix over integer charges

    The operator representations are named by their divergence, the left
    bond has the charges 0 and 1, and column 2 is empty. *)
Definition charges_mat (x y : Z) : option Z :=
  match x, y with
  | 0, 0 => Some 0
  | 0, 1 => Some (-1)
  | 1, 1 => Some 0
  | 1, 3 => Some 1
  | _, _ => None
  end.

Definition left_charge (x : Z) : Z := x.

Example charges_mat_sorted :
  SortSparOpReprMatColsByQN_ Z Z.sub Z.add Z 0 left_charge (fun op => op) charges_mat 2 4
  = Some ([(0, 2%nat); (1, 1%nat)], [3; 0; 1]).
Proof. vm_compute. reflexivity. Qed.

Lemma columns_grouped_by_quantum_number_witness :
  exists rvb_qnscts transposed_idxs,
    SortSparOpReprMatColsByQN_ Z Z.sub Z.add Z 0 left_charge (fun op => op) charges_mat 2 4
    = Some (rvb_qnscts, transposed_idxs)
    /\ map (col_qn Z Z.sub Z.add Z 0 left_charge (fun op => op) charges_mat 2)
         transposed_idxs
       = coordinates Z rvb_qnscts
    /\ NoDup (map fst rvb_qnscts)
    /\ Forall (fun s : QNSector Z => (1 <= snd s)%nat) rvb_qnscts
    /\ Permutation transposed_idxs
         (filter (fun y => is_Some (col_qn Z Z.sub Z.add Z 0 left_charge (fun op => op)
                                      charges_mat 2 y))
            (SizeT.upto 0 (Z.to_nat 4))).
Proof.
  apply (columns_grouped_by_quantum_number Z Z.sub Z.add Z 0 left_charge (fun op => op)
           charges_mat 2 4).
  intros y Hy x elem Hin He.
  assert (Hys : y = 0 \/ y = 1 \/ y = 2 \/ y = 3) by lia.
  destruct Hin as [<- | [<- | []]]; destruct Hys as [-> | [-> | [-> | ->]]];
    vm_compute in He; try discriminate He; injection He as <-; reflexivity.
Defined.

(** Two non-null elements of one column with different target quantum
    numbers: the assert fails. *)
Example sort_asserts_on_mixed_column :
  SortSparOpReprMatColsByQN_ Z Z.sub Z.add Z 0 left_charge (fun op => op)
    (fun x y => if y =? 0 then Some 0 else None) 2 1
  = None.
Proof. vm_compute. reflexivity. Qed.

End MPOGenSort.

(** * The dense form of a symmetric tridiagonal matrix
       ([SymmetricTriDiagonalMatrix::ToColumnMajorFullMatrix] of the
       Lanczos tests) *)

Module TriDiag.

(** [size_t n; std::vector<double> a; std::vector<double> b;] *)
Record SymmetricTriDiagonalMatrix : Set := MkTri {
  n : Z;
  a : list float;
  b : list float
}.

(** The array behind [double* M], and [M[k] = v]. *)
Definition array : Set := Z -> float.

Definition store (M : array) (k : Z) (v : float) : array :=
  fun k' => if k' =? k then v else M k'.

(** [M[i * n + i] = a[i];] *)
Definition diagonal (m : SymmetricTriDiagonalMatrix) (i : Z) (M : array) : option array :=
  a_i ← nth_error (a m) (Z.to_nat i);
  Some (store M (SizeT.add (SizeT.mul i (n m)) i) a_i).

(** [M[i * n + (i + 1)] = b[i]; M[(i + 1) * n + i] = b[i];] *)
Definition second_diagonal (m : SymmetricTriDiagonalMatrix) (i : Z) (M : array)
    : option array :=
  b_i ← nth_error (b m) (Z.to_nat i);
  let M := store M (SizeT.add (SizeT.mul i (n m)) (SizeT.add i 1)) b_i in
  Some (store M (SizeT.add (SizeT.mul (SizeT.add i 1) (n m)) i) b_i).

(** [ToColumnMajorFullMatrix(M)]; [None] when a subscript into [a] or [b]
    is out of range. *)
Definition ToColumnMajorFullMatrix (fuel : nat) (m : SymmetricTriDiagonalMatrix)
    (M : array) : option array :=
  M ← BoundaryEnvs.for_below fuel 0 (n m) (diagonal m) M;
  BoundaryEnvs.for_below fuel 0 (SizeT.sub (n m) 1) (second_diagonal m) M.

(** [ToRawMajorFullMatrix] and [ToFullMatrix] call it as it is. *)
Definition ToRawMajorFullMatrix := ToColumnMajorFullMatrix.
Definition ToFullMatrix := ToColumnMajorFullMatrix.

(** Elements [(i, j)] and [(i', j')] of an [n] by [n] array share a
    position only when they are the same element. *)
Lemma position_inj (n i j i' j' : Z) :
  0 <= j < n -> 0 <= j' < n -> i * n + j = i' * n + j' -> i = i' /\ j = j'.
Proof.
  intros Hj Hj' H.
  assert (Hi : i = i').
  { destruct (Z.lt_trichotomy i i') as [Hlt|[Heq|Hgt]]; [exfalso|exact Heq|exfalso].
    - assert (Hle : (i + 1) * n <= i' * n).
      { apply Z.mul_le_mono_nonneg_r. all: lia. }
      rewrite Z.mul_add_distr_r in Hle. lia.
    - assert (Hle : (i' + 1) * n <= i * n).
      { apply Z.mul_le_mono_nonneg_r. all: lia. }
      rewrite Z.mul_add_distr_r in Hle. lia. }
  subst i'. split; [reflexivity|lia].
Qed.

Section Fill.

Variable m : SymmetricTriDiagonalMatrix.
Hypothesis n_positive : 1 <= n m.
Hypothesis array_fits : n m * n m < SizeT.modulus.
Hypothesis a_long_enough : (Z.to_nat (n m) <= length (a m))%nat.
Hypothesis b_long_enough : (Z.to_nat (n m) - 1 <= length (b m))%nat.

Definition a_at (i : Z) : float := nth (Z.to_nat i) (a m) 0%float.
Definition b_at (i : Z) : float := nth (Z.to_nat i) (b m) 0%float.

Definition listed (i : Z) (l : list Z) : bool := existsb (Z.eqb i) l.

Lemma diagonal_run (l : list Z) :
  forall M : array,
    (forall i, In i l -> 0 <= i < n m) ->
    exists M',
      SizeT.run_over (diagonal m) l M = Some M'
      /\ (forall i j, 0 <= i < n m -> 0 <= j < n m ->
            M' (i * n m + j)
            = if (i =? j) && listed i l then a_at i else M (i * n m + j))
      /\ (forall k, ~ 0 <= k < n m * n m -> M' k = M k).
Proof.
  induction l as [|x l IH]; intros M Hl.
  - exists M. split; [reflexivity|]. split; [|reflexivity].
    intros i j _ _. cbn. now rewrite andb_false_r.
  - cbn [SizeT.run_over]. unfold diagonal at 1.
    assert (Hx : 0 <= x < n m) by (apply Hl; now left).
    destruct (nth_error (a m) (Z.to_nat x)) as [a_x|] eqn:Ea;
      [|apply nth_error_None in Ea; lia].
    cbn [mbind option_bind].
    assert (Hpos : SizeT.add (SizeT.mul x (n m)) x = x * n m + x).
    { unfold SizeT.mul. rewrite SizeT.wrap_small by nia.
      apply SizeT.add_small; nia. }
    rewrite Hpos.
    destruct (IH (store M (x * n m + x) a_x)) as (M' & -> & Hin & Hout);
      [intros i Hi; apply Hl; now right|].
    exists M'. split; [reflexivity|]. split.
    + intros i j Hi Hj. rewrite (Hin i j Hi Hj). cbn [listed existsb].
      unfold store.
      destruct (Z.eqb_spec i j) as [<-|Hij]; cbn [andb].
      * destruct (Z.eqb_spec i x) as [->|Hix]; cbn [orb].
        -- rewrite Z.eqb_refl. unfold a_at.
           rewrite (nth_error_nth _ _ _ Ea).
           now destruct (listed x l).
        -- fold (listed i l). destruct (listed i l); [reflexivity|].
           destruct (Z.eqb_spec (i * n m + i) (x * n m + x)) as [E|_]; [|reflexivity].
           apply position_inj in E; [|lia|lia]. lia.
      * destruct (Z.eqb_spec (i * n m + j) (x * n m + x)) as [E|_]; [|reflexivity].
        apply position_inj in E; [|lia|lia]. lia.
    + intros k Hk. rewrite (Hout k Hk). unfold store.
      destruct (Z.eqb_spec k (x * n m + x)) as [->|_]; [|reflexivity].
      exfalso. apply Hk. nia.
Qed.

Lemma position_eqb (i j i' j' : Z) :
  0 <= j < n m -> 0 <= j' < n m ->
  (i * n m + j =? i' * n m + j') = (i =? i') && (j =? j').
Proof.
  intros Hj Hj'.
  destruct (Z.eqb_spec (i * n m + j) (i' * n m + j')) as [E|E].
  - apply position_inj in E as [-> ->]; [|lia|lia]. now rewrite !Z.eqb_refl.
  - destruct (Z.eqb_spec i i') as [->|_]; [|reflexivity].
    destruct (Z.eqb_spec j j') as [->|_]; [|reflexivity]. contradiction.
Qed.

Ltac split_tests :=
  repeat match goal with
         | |- context [?x =? ?y] => destruct (Z.eqb_spec x y)
         end.

Lemma second_diagonal_run (l : list Z) :
  forall M : array,
    (forall i, In i l -> 0 <= i < n m - 1) ->
    exists M',
      SizeT.run_over (second_diagonal m) l M = Some M'
      /\ (forall i j, 0 <= i < n m -> 0 <= j < n m ->
            M' (i * n m + j)
            = if (j =? i + 1) && listed i l then b_at i
              else if (i =? j + 1) && listed j l then b_at j
              else M (i * n m + j))
      /\ (forall k, ~ 0 <= k < n m * n m -> M' k = M k).
Proof.
  induction l as [|x l IH]; intros M Hl.
  - exists M. split; [reflexivity|]. split; [|reflexivity].
    intros i j _ _. cbn. now rewrite !andb_false_r.
  - cbn [SizeT.run_over]. unfold second_diagonal at 1.
    assert (Hx : 0 <= x < n m - 1) by (apply Hl; now left).
    destruct (nth_error (b m) (Z.to_nat x)) as [b_x|] eqn:Eb;
      [|apply nth_error_None in Eb; lia].
    cbn [mbind option_bind].
    assert (Hup : SizeT.add (SizeT.mul x (n m)) (SizeT.add x 1) = x * n m + (x + 1)).
    { unfold SizeT.mul. rewrite SizeT.wrap_small by nia.
      rewrite (SizeT.add_small x 1) by nia. apply SizeT.add_small; nia. }
    assert (Hlow : SizeT.add (SizeT.mul (SizeT.add x 1) (n m)) x = (x + 1) * n m + x).
    { rewrite (SizeT.add_small x 1) by nia.
      unfold SizeT.mul. rewrite SizeT.wrap_small by nia.
      apply SizeT.add_small; nia. }
    rewrite Hup, Hlow.
    destruct (IH (store (store M (x * n m + (x + 1)) b_x) ((x + 1) * n m + x) b_x))
      as (M' & -> & Hin & Hout); [intros i Hi; apply Hl; now right|].
    exists M'. split; [reflexivity|]. split.
    + intros i j Hi Hj. rewrite (Hin i j Hi Hj). cbn [listed existsb].
      fold (listed i l) (listed j l). unfold store.
      rewrite !position_eqb by lia.
      assert (Hb : b_at x = b_x) by (unfold b_at; apply (nth_error_nth _ _ _ Eb)).
      destruct (listed i l), (listed j l); split_tests; cbn; subst;
        try reflexivity; try lia; try (symmetry; exact Hb).
    + intros k Hk. rewrite (Hout k Hk). unfold store.
      destruct (Z.eqb_spec k ((x + 1) * n m + x)) as [->|_]; [exfalso; apply Hk; nia|].
      destruct (Z.eqb_spec k (x * n m + (x + 1))) as [->|_]; [exfalso; apply Hk; nia|].
      reflexivity.
Qed.

Lemma listed_upto (i lo : Z) (k : nat) :
  listed i (SizeT.upto lo k) = (lo <=? i) && (i <? lo + Z.of_nat k).
Proof.
  revert lo. induction k as [|k IH]; intros lo.
  - cbn [SizeT.upto listed existsb]. change (Z.of_nat 0) with 0. rewrite Z.add_0_r.
    destruct (Z.leb_spec lo i), (Z.ltb_spec i lo); try reflexivity; lia.
  - cbn [SizeT.upto listed existsb]. fold (listed i (SizeT.upto (lo + 1) k)). rewrite IH.
    destruct (Z.eqb_spec i lo), (Z.leb_spec (lo + 1) i), (Z.leb_spec lo i),
      (Z.ltb_spec i (lo + 1 + Z.of_nat k)), (Z.ltb_spec i (lo + Z.of_nat (S k)));
      try reflexivity; lia.
Qed.

(** X19: for a matrix of size [n >= 1] with enough entries in [a] and
    [b], [ToColumnMajorFullMatrix] returns with [a] on the diagonal of
    the array and [b] on both second diagonals; every other element of the
    array, inside the matrix or not, is left as it was (the function does
    not clear the array).  So the array holds a symmetric matrix, the same
    read by columns or by rows, exactly when what it held away from the
    three diagonals was symmetric. *)
Theorem tridiagonal_fills_three_diagonals (fuel : nat) (M : array) :
  (Z.to_nat (n m) < fuel)%nat ->
  exists M',
    ToColumnMajorFullMatrix fuel m M = Some M'
    /\ (forall i j, 0 <= i < n m -> 0 <= j < n m ->
          M' (i * n m + j)
          = if i =? j then a_at i
            else if j =? i + 1 then b_at i
            else if i =? j + 1 then b_at j
            else M (i * n m + j))
    /\ (forall k, ~ 0 <= k < n m * n m -> M' k = M k)
    /\ ((forall i j, 0 <= i < n m -> 0 <= j < n m -> M' (i * n m + j) = M' (j * n m + i))
        <-> (forall i j, 0 <= i < n m -> 0 <= j < n m -> i + 1 < j ->
               M (i * n m + j) = M (j * n m + i))).
Proof.
  intros Hfuel. unfold ToColumnMajorFullMatrix.
  assert (Hn : n m < SizeT.modulus) by nia.
  rewrite (BoundaryEnvs.for_below_run _ (Z.to_nat (n m)) 0 (n m) fuel) by lia.
  destruct (diagonal_run (SizeT.upto 0 (Z.to_nat (n m))) M) as (M1 & -> & Hin1 & Hout1);
    [intros i Hi; apply SizeT.upto_In in Hi; lia|].
  cbn [mbind option_bind]. rewrite SizeT.sub_small by lia.
  rewrite (BoundaryEnvs.for_below_run _ (Z.to_nat (n m - 1)) 0 (n m - 1) fuel) by lia.
  destruct (second_diagonal_run (SizeT.upto 0 (Z.to_nat (n m - 1))) M1)
    as (M2 & -> & Hin2 & Hout2); [intros i Hi; apply SizeT.upto_In in Hi; lia|].
  assert (Hband : forall i j, 0 <= i < n m -> 0 <= j < n m ->
            M2 (i * n m + j)
            = if i =? j then a_at i
              else if j =? i + 1 then b_at i
              else if i =? j + 1 then b_at j
              else M (i * n m + j)).
  { intros i j Hi Hj. rewrite (Hin2 i j Hi Hj), (Hin1 i j Hi Hj), !listed_upto.
    split_tests; cbn;
      repeat match goal with
             | |- context [?x <=? ?y] => destruct (Z.leb_spec x y)
             | |- context [?x <? ?y] => destruct (Z.ltb_spec x y)
             end; cbn; try reflexivity; lia. }
  exists M2. split; [reflexivity|]. split; [exact Hband|]. split.
  - intros k Hk. now rewrite (Hout2 k Hk), (Hout1 k Hk).
  - split.
    + intros Hsym i j Hi Hj Hij. specialize (Hsym i j Hi Hj).
      rewrite (Hband i j Hi Hj), (Hband j i Hj Hi) in Hsym.
      revert Hsym. split_tests; try lia. tauto.
    + intros Hsym i j Hi Hj. rewrite (Hband i j Hi Hj), (Hband j i Hj Hi).
      split_tests; subst; try reflexivity; try lia.
      * destruct (Z.lt_trichotomy i j) as [Hlt|[Heq|Hgt]]; [|lia|].
        -- apply Hsym; lia.
        -- symmetry. apply Hsym; lia.
Qed.

End Fill.

(** [matrix2x2_example1] of the tests. *)
#[local] Set Warnings "-inexact-float".
Definition two_by_two : SymmetricTriDiagonalMatrix :=
  MkTri 2 [0.5%float; 0.3%float] [0.2%float].
#[local] Set Warnings "inexact-float".

Lemma tridiagonal_fills_three_diagonals_witness :
  exists M',
    ToColumnMajorFullMatrix 3 two_by_two (fun _ => 0%float) = Some M'
    /\ (forall i j, 0 <= i < n two_by_two -> 0 <= j < n two_by_two ->
          M' (i * n two_by_two + j)
          = if i =? j then a_at two_by_two i
            else if j =? i + 1 then b_at two_by_two i
            else if i =? j + 1 then b_at two_by_two j
            else (fun _ => 0%float) (i * n two_by_two + j))
    /\ (forall k, ~ 0 <= k < n two_by_two * n two_by_two -> M' k = (fun _ => 0%float) k)
    /\ ((forall i j, 0 <= i < n two_by_two -> 0 <= j < n two_by_two ->
           M' (i * n two_by_two + j) = M' (j * n two_by_two + i))
        <-> (forall i j, 0 <= i < n two_by_two -> 0 <= j < n two_by_two -> i + 1 < j ->
               (fun _ : Z => 0%float) (i * n two_by_two + j)
               = (fun _ : Z => 0%float) (j * n two_by_two + i))).
Proof.
  apply (tridiagonal_fills_three_diagonals two_by_two).
  - simpl. lia.
  - rewrite SizeT.modulus_val. simpl. lia.
  - simpl. lia.
  - simpl. lia.
  - simpl. lia.
Defined.

(** The matrix of the first test case, read off the array. *)
Example two_by_two_dense :
  (fun M => map M [0; 1; 2; 3]) <$> ToColumnMajorFullMatrix 3 two_by_two (fun _ => 0%float)
  = Some [a_at two_by_two 0; b_at two_by_two 0; b_at two_by_two 0; a_at two_by_two 1].
Proof. vm_compute. reflexivity. Qed.

(** With [n = 0] the bound [n - 1] of the second loop wraps around and
    [b[0]] is read. *)
Example empty_matrix_reads_b :
  ToColumnMajorFullMatrix 3 (MkTri 0 [] []) (fun _ => 0%float) = None.
Proof. vm_compute. reflexivity. Qed.

End TriDiag.

